(** * PaperArena: the two territory engines

    A shallow embedding of the simulation core of the repository's two game
    classes, [PaperIOGame] (the grid engine) and [SmoothPaperIOGame] (the
    continuous engine), and the properties of their flood fill, move
    validity, claim, elimination, end-of-game and ranking code; and of the
    click listener of the bet buttons of [script.js].

    Conventions of the embedding.
    - A JavaScript number that is used as a grid coordinate, an id or an
      array index is a [Z]; a number that is a time stamp, a canvas
      coordinate or a value of [Math.random()] is a binary64 [float].
    - The key [`${x},${y}`] of the territory and visited sets is the decimal
      rendering of the pair [(x, y)]; it is one-to-one on integers and
      [pos.split(',').map(Number)] is its inverse, so a set of keys is a
      [gset (Z * Z)].
    - A player object is addressed by its index in [this.players]; an
      in-place mutation of the object is an update of the list at this
      index.
    - The canvas and the DOM are not part of the state: functions that only
      write HTML ([updateScores], [render], [updateTimer]) leave it alone. *)

From Stdlib Require Import ZArith Floats Uint63 Lia String.
From Stdlib Require Import Sorting.Permutation Sorting.Sorted.
From stdpp Require Import gmap list sets relations.

Open Scope Z_scope.

(** ** Numbers shared by both engines *)

(** [this.gameTimeLimit = 180000] *)
Definition gameTimeLimit : float := 180000%float.

(** A small non-negative integer as a JavaScript number. *)
Definition natToFloat (n : nat) : float :=
  PrimFloat.of_uint63 (Uint63.of_Z (Z.of_nat n)).

(** [arr[Math.floor(v)]] for [0 <= v]: the element at the index [k] with
    [k <= v < k + 1], [None] (JavaScript's [undefined]) when there is none. *)
Fixpoint floorNthFrom {A : Type} (k : nat) (v : float) (l : list A) : option A :=
  match l with
  | [] => None
  | a :: l' =>
      if (PrimFloat.leb (natToFloat k) v && PrimFloat.ltb v (natToFloat (S k)))%bool
      then Some a
      else floorNthFrom (S k) v l'
  end.

Definition floorNth {A : Type} (v : float) (l : list A) : option A :=
  floorNthFrom 0 v l.

(** [Array.prototype.sort(cmp)] is a stable sort; for a comparator that is a
    difference of numbers its result is the one of this insertion sort.
    [before a b] is [cmp(b, a) < 0]: [b] has to come strictly before [a]. *)
Section StableSort.
Context {A : Type} (before : A → A → bool).

Fixpoint insertSorted (a : A) (l : list A) : list A :=
  match l with
  | [] => [a]
  | b :: l' => if before a b then b :: insertSorted a l' else a :: b :: l'
  end.

Fixpoint stableSort (l : list A) : list A :=
  match l with
  | [] => []
  | a :: l' => insertSorted a (stableSort l')
  end.
End StableSort.

(** A list in descending order of [key]. *)
Definition descending {A : Type} (key : A → nat) (l : list A) : Prop :=
  StronglySorted (λ a b, (key b ≤ key a)%nat) l.

(** * The grid engine: [class PaperIOGame] *)
Module PaperIOGame.

(** ** Data *)

Abbreviation Cell := (Z * Z)%type.

Record Player : Type := mkPlayer {
  pid : Z;                      (* id *)
  px : Z;                       (* x *)
  py : Z;                       (* y *)
  direction : Z * Z;
  color : string;
  trail : list Cell;
  territory : gset Cell;
  alive : bool;
  isHuman : bool;
  lastMoveTime : float;
  moveInterval : float
}.

Record Game : Type := mkGame {
  mapWidth : Z;
  mapHeight : Z;
  grid : list (list Z);         (* grid[y][x] *)
  players : list Player;
  gameRunning : bool;
  gameStartTime : float
}.

Definition setDirection (d : Z * Z) (p : Player) : Player :=
  mkPlayer (pid p) (px p) (py p) d (color p) (trail p) (territory p)
           (alive p) (isHuman p) (lastMoveTime p) (moveInterval p).

Definition setPosition (x y : Z) (p : Player) : Player :=
  mkPlayer (pid p) x y (direction p) (color p) (trail p) (territory p)
           (alive p) (isHuman p) (lastMoveTime p) (moveInterval p).

Definition setTrail (t : list Cell) (p : Player) : Player :=
  mkPlayer (pid p) (px p) (py p) (direction p) (color p) t (territory p)
           (alive p) (isHuman p) (lastMoveTime p) (moveInterval p).

Definition setTerritory (s : gset Cell) (p : Player) : Player :=
  mkPlayer (pid p) (px p) (py p) (direction p) (color p) (trail p) s
           (alive p) (isHuman p) (lastMoveTime p) (moveInterval p).

Definition setAlive (b : bool) (p : Player) : Player :=
  mkPlayer (pid p) (px p) (py p) (direction p) (color p) (trail p) (territory p)
           b (isHuman p) (lastMoveTime p) (moveInterval p).

Definition setLastMoveTime (t : float) (p : Player) : Player :=
  mkPlayer (pid p) (px p) (py p) (direction p) (color p) (trail p) (territory p)
           (alive p) (isHuman p) t (moveInterval p).

Definition setGrid (gr : list (list Z)) (g : Game) : Game :=
  mkGame (mapWidth g) (mapHeight g) gr (players g) (gameRunning g) (gameStartTime g).

Definition setPlayers (ps : list Player) (g : Game) : Game :=
  mkGame (mapWidth g) (mapHeight g) (grid g) ps (gameRunning g) (gameStartTime g).

Definition setGameRunning (b : bool) (g : Game) : Game :=
  mkGame (mapWidth g) (mapHeight g) (grid g) (players g) b (gameStartTime g).

(** The in-place mutation of the player object at index [i]. *)
Definition updPlayer (i : nat) (f : Player → Player) (g : Game) : Game :=
  setPlayers (alter f i (players g)) g.

(** ** The board *)

(** [this.grid[y][x]]; [None] is a read past the rows or columns. Every read
    in the source comes after a bounds check against [mapWidth] and
    [mapHeight]. *)
Definition gridAt (gr : list (list Z)) (c : Cell) : option Z :=
  if (0 <=? c.1) && (0 <=? c.2)
  then row ← gr !! Z.to_nat c.2; row !! Z.to_nat c.1
  else None.

(** [this.grid[y][x] = v], for a cell of the board. Off the board the source
    raises a [TypeError] where the row [y] is missing and lengthens the row
    where [x] is past its end; the model writes nothing there, and agrees
    with the source as long as every written cell is on the board. The cells
    that the source writes are cells of a start square that passed
    [isValidPosition], region cells that [getConnectedRegion] has tested,
    and trail cells, which were positions of the player: these are on the
    board in every state of a session on a board of at least 6 by 6 cells,
    where the four start positions are on the board. *)
Definition setCell (gr : list (list Z)) (c : Cell) (v : Z) : list (list Z) :=
  if (0 <=? c.1) && (0 <=? c.2)
  then alter (λ row, <[Z.to_nat c.1 := v]> row) (Z.to_nat c.2) gr
  else gr.

(** [isValidPosition(x, y)] *)
Definition isValidPosition (W H : Z) (c : Cell) : bool :=
  (0 <=? c.1) && (c.1 <? W) && (0 <=? c.2) && (c.2 <? H).

(** The grid of [initializeGame]: [mapHeight] rows of [mapWidth] cells. *)
Definition wf_grid (W H : Z) (gr : list (list Z)) : Prop :=
  0 ≤ W ∧ 0 ≤ H ∧ length gr = Z.to_nat H ∧
  Forall (λ row, length row = Z.to_nat W) gr.

(** ** [isValidMove(player, x, y)] *)

(** [trail.some(pos => pos.x === x && pos.y === y)] *)
Definition trailHas (t : list Cell) (c : Cell) : bool :=
  existsb (λ pos, (pos.1 =? c.1) && (pos.2 =? c.2)) t.

Definition isValidMove (g : Game) (player : Player) (c : Cell) : bool :=
  if (c.1 <? 0) || (mapWidth g <=? c.1) || (c.2 <? 0) || (mapHeight g <=? c.2)
  then false
  else
    let foreign :=
      match gridAt (grid g) c with
      | Some cellOwner => negb (cellOwner =? 0) && negb (cellOwner =? pid player)
      | None => true            (* undefined !== 0 && undefined !== id *)
      end in
    if foreign then false
    else if trailHas (trail player) c then false
    else
      negb (existsb
              (λ otherPlayer,
                 negb (pid otherPlayer =? pid player) && alive otherPlayer
                 && trailHas (trail otherPlayer) c)
              (players g)).

(** ** [getConnectedRegion], [regionTouchesBorder], [floodFillTerritory] *)

(** The state of the [while (stack.length > 0)] loop. The head of [stack] is
    the element that [stack.pop()] returns; [region] is the [Set] in its
    insertion order. *)
Record RegionState : Type := mkRegionState {
  rs_stack : list Cell;
  rs_region : list Cell;
  rs_visited : gset Cell
}.

Definition regionStep (W H : Z) (gr : list (list Z)) (k : Cell)
    (stack : list Cell) (region : list Cell) (visited : gset Cell) : RegionState :=
  if bool_decide (k ∈ visited) || bool_decide (k ∈ region)
  then mkRegionState stack region visited
  else if (k.1 <? 0) || (W <=? k.1) || (k.2 <? 0) || (H <=? k.2)
  then mkRegionState stack region visited
  else if negb (bool_decide (gridAt gr k = Some 0))
  then mkRegionState stack region visited
  else mkRegionState
         ((k.1, k.2 - 1) :: (k.1, k.2 + 1) :: (k.1 - 1, k.2) :: (k.1 + 1, k.2) :: stack)
         (region ++ [k])
         ({[k]} ∪ visited).

Fixpoint regionLoop (fuel : nat) (W H : Z) (gr : list (list Z)) (s : RegionState)
    : RegionState :=
  match fuel with
  | O => s
  | S fuel' =>
      match rs_stack s with
      | [] => s
      | k :: stack =>
          regionLoop fuel' W H gr (regionStep W H gr k stack (rs_region s) (rs_visited s))
      end
  end.

(** Every iteration pops one cell and only an iteration that adds a cell of
    the board to [visited] pushes four, so the loop body runs at most
    [4 * mapWidth * mapHeight + 1] times. *)
Definition regionFuel (W H : Z) : nat := S (4 * (Z.to_nat W * Z.to_nat H)).

Definition getConnectedRegionState (W H : Z) (gr : list (list Z)) (start : Cell)
    (visited : gset Cell) : RegionState :=
  regionLoop (regionFuel W H) W H gr (mkRegionState [start] [] visited).

(** The returned region and the updated [visited] set. *)
Definition getConnectedRegion (W H : Z) (gr : list (list Z)) (start : Cell)
    (visited : gset Cell) : list Cell * gset Cell :=
  let s := getConnectedRegionState W H gr start visited in
  (rs_region s, rs_visited s).

Definition isBorder (W H : Z) (c : Cell) : bool :=
  (c.1 =? 0) || (c.1 =? W - 1) || (c.2 =? 0) || (c.2 =? H - 1).

Definition regionTouchesBorder (W H : Z) (region : list Cell) : bool :=
  existsb (isBorder W H) region.

(** The state threaded through the two [for] loops of [floodFillTerritory]:
    the grid, the claiming player's territory set and [visited]. *)
Record FillState : Type := mkFillState {
  fs_grid : list (list Z);
  fs_territory : gset Cell;
  fs_visited : gset Cell
}.

(** [for (const pos of region) { grid[py][px] = id; territory.add(pos) }] *)
Definition fillRegion (id : Z) (region : list Cell) (s : FillState) : FillState :=
  foldl (λ s pos, mkFillState (setCell (fs_grid s) pos id)
                              ({[pos]} ∪ fs_territory s)
                              (fs_visited s))
        s region.

(** The body of the inner [for] loop at the cell [(x, y)]. *)
Definition fillCell (W H : Z) (id : Z) (s : FillState) (c : Cell) : FillState :=
  if bool_decide (gridAt (fs_grid s) c = Some 0) && negb (bool_decide (c ∈ fs_visited s))
  then
    let '(region, visited) := getConnectedRegion W H (fs_grid s) c (fs_visited s) in
    let s' := mkFillState (fs_grid s) (fs_territory s) visited in
    if negb (regionTouchesBorder W H region) then fillRegion id region s' else s'
  else s.

(** The cells in the order of [for x ... for y ...]. *)
Definition scanOrder (W H : Z) : list Cell :=
  x ← seqZ 0 W; y ← seqZ 0 H; [(x, y)].

Definition floodFillState (W H : Z) (id : Z) (gr : list (list Z)) (terr : gset Cell)
    : FillState :=
  foldl (fillCell W H id) (mkFillState gr terr ∅) (scanOrder W H).

(** [floodFillTerritory(player)] on the grid and the player's territory. *)
Definition floodFillTerritory (W H : Z) (id : Z) (gr : list (list Z)) (terr : gset Cell)
    : list (list Z) * gset Cell :=
  let s := floodFillState W H id gr terr in (fs_grid s, fs_territory s).

(** ** Regions of unowned cells *)

(** The cells of the board. *)
Definition onBoard (W H : Z) (c : Cell) : Prop :=
  0 ≤ c.1 < W ∧ 0 ≤ c.2 < H.

(** An unowned cell: a cell of the board whose owner is 0. *)
Definition unowned (W H : Z) (gr : list (list Z)) (c : Cell) : Prop :=
  onBoard W H c ∧ gridAt gr c = Some 0.

(** The four neighbours of a cell. *)
Definition adjacent (c d : Cell) : Prop :=
  d = (c.1, c.2 - 1) ∨ d = (c.1, c.2 + 1) ∨ d = (c.1 - 1, c.2) ∨ d = (c.1 + 1, c.2).

(** One step inside a region: to a neighbour that is unowned. *)
Definition regionStepTo (W H : Z) (gr : list (list Z)) (c d : Cell) : Prop :=
  adjacent c d ∧ unowned W H gr d.

(** [d] is in the 4-connected region of unowned cells of the unowned cell
    [c]: a path of unowned cells leads from [c] to [d]. *)
Definition sameRegion (W H : Z) (gr : list (list Z)) (c d : Cell) : Prop :=
  rtc (regionStepTo W H gr) c d.

(** The region of [c] contains a border cell of the board. *)
Definition regionHasBorderCell (W H : Z) (gr : list (list Z)) (c : Cell) : Prop :=
  ∃ d, sameRegion W H gr c d ∧ isBorder W H d = true.

(** ** [eliminatePlayer(player)] *)

(** The function calls itself from inside its two loops; [fuel] bounds the
    depth of these calls and [None] is a run that needs more. The loop over
    [this.players] reads each [otherPlayer] when its turn comes, the loop
    over [player.trail] iterates the array that [player.trail] holds when
    the loop starts, and [otherPlayer.trail] is read in every iteration. *)
Fixpoint eliminatePlayerFuel (fuel : nat) (g : Game) (i : nat) : option Game :=
  match fuel with
  | O => None
  | S fuel' =>
      let g1 := updPlayer i (λ p, setTrail [] (setAlive false p)) g in
      foldl
        (λ acc j,
           g ← acc;
           match players g !! i, players g !! j with
           | Some player, Some otherPlayer =>
               if negb (pid otherPlayer =? pid player) && alive otherPlayer
               then
                 foldl
                   (λ acc trailPos,
                      g ← acc;
                      match players g !! j with
                      | Some otherPlayer =>
                          if trailHas (trail otherPlayer) trailPos
                          then eliminatePlayerFuel fuel' g j
                          else Some g
                      | None => Some g
                      end)
                   (Some g) (trail player)
               else Some g
           | _, _ => Some g
           end)
        (Some g1) (seq 0 (length (players g)))
  end.

(** A call can only nest inside a call for another, still living player, so
    the depth is at most the number of players. The properties of
    [eliminatePlayer] below show that no nested call is ever made. *)
Definition eliminatePlayer (g : Game) (i : nat) : Game :=
  default g (eliminatePlayerFuel (S (length (players g))) g i).

(** ** [claimTerritory(player)] and [movePlayer(player)] *)

(** [for (const pos of player.trail) { territory.add(...); grid[...] = id }] *)
Definition paintTrail (id : Z) (t : list Cell) (gr : list (list Z)) (terr : gset Cell)
    : list (list Z) * gset Cell :=
  foldl (λ acc pos, (setCell acc.1 pos id, {[pos]} ∪ acc.2)) (gr, terr) t.

Definition claimTerritory (g : Game) (i : nat) : Game :=
  match players g !! i with
  | None => g
  | Some player =>
      if (length (trail player) =? 0)%nat then g
      else
        let '(gr1, terr1) :=
          paintTrail (pid player) (trail player) (grid g) (territory player) in
        let '(gr2, terr2) :=
          floodFillTerritory (mapWidth g) (mapHeight g) (pid player) gr1 terr1 in
        updPlayer i (λ p, setTrail [] (setTerritory terr2 p)) (setGrid gr2 g)
  end.

Definition movePlayer (g : Game) (i : nat) : Game :=
  match players g !! i with
  | None => g
  | Some player =>
      let newX := px player + (direction player).1 in
      let newY := py player + (direction player).2 in
      if negb (isValidMove g player (newX, newY)) then eliminatePlayer g i
      else
        let t :=
          if negb (bool_decide ((px player, py player) ∈ territory player))
          then trail player ++ [(px player, py player)]
          else trail player in
        let g1 := updPlayer i (λ p, setPosition newX newY (setTrail t p)) g in
        if bool_decide ((newX, newY) ∈ territory player) && (0 <? length t)%nat
        then claimTerritory g1 i
        else g1
  end.

(** ** [updateAI(player)] and [updatePlayers(currentTime)] *)

(** [Math.random()] is an oracle: [random n] is the value of the [n]-th call
    and the counter of calls is threaded next to the game. *)
Definition directions : list (Z * Z) := [(0, -1); (0, 1); (-1, 0); (1, 0)].

(** [player.direction = arr[Math.floor(Math.random() * arr.length)]]. For a
    value of [Math.random()], which is below 1, the index is in range; the
    model leaves the direction alone otherwise. *)
Definition pickDirection (r : float) (arr : list (Z * Z)) (i : nat) (g : Game) : Game :=
  match floorNth (r * natToFloat (length arr))%float arr with
  | Some d => updPlayer i (setDirection d) g
  | None => g
  end.

Definition updateAI (random : nat → float) (n : nat) (g : Game) (i : nat) : Game * nat :=
  match players g !! i with
  | None => (g, n)
  | Some player =>
      if ((direction player).1 =? 0) && ((direction player).2 =? 0)
      then (pickDirection (random n) directions i g, S n)
      else
        let nextX := px player + (direction player).1 in
        let nextY := py player + (direction player).2 in
        let valid := isValidMove g player (nextX, nextY) in
        if valid && PrimFloat.ltb (random n) 0x1.ccccccccccccdp-1%float (* 0.9 *) then (g, S n)
        else
          let n' := if valid then S n else n in
          let safeDirections :=
            filter (λ dir, Is_true
                      (isValidMove g player (px player + dir.1, py player + dir.2)
                       && negb ((dir.1 =? - (direction player).1)
                                && (dir.2 =? - (direction player).2))))
                   directions in
          if (0 <? length safeDirections)%nat
          then (pickDirection (random n') safeDirections i g, S n')
          else (g, n')
  end.

(** The body of [for (const player of this.players)] at index [i]. *)
Definition updatePlayer (random : nat → float) (currentTime : float)
    (st : Game * nat) (i : nat) : Game * nat :=
  let '(g, n) := st in
  match players g !! i with
  | None => st
  | Some player =>
      if negb (alive player) then st
      else if PrimFloat.leb (moveInterval player) (currentTime - lastMoveTime player)%float
      then
        let '(g1, n1) := if negb (isHuman player) then updateAI random n g i else (g, n) in
        match players g1 !! i with
        | None => (g1, n1)
        | Some player1 =>
            if negb ((direction player1).1 =? 0) || negb ((direction player1).2 =? 0)
            then (updPlayer i (setLastMoveTime currentTime) (movePlayer g1 i), n1)
            else (g1, n1)
        end
      else st
  end.

Definition updatePlayers (random : nat → float) (currentTime : float)
    (st : Game * nat) : Game * nat :=
  foldl (updatePlayer random currentTime) st (seq 0 (length (players st.1))).

(** ** [checkGameEnd], [showGameOver], [gameLoop] *)

(** [this.players.sort((a, b) => b.territory.size - a.territory.size)]: the
    array is sorted in place. The HTML of the panel is not modelled. *)
Definition smallerTerritory (a b : Player) : bool :=
  (size (territory a) <? size (territory b))%nat.

Definition showGameOver (g : Game) : Game :=
  setPlayers (stableSort smallerTerritory (players g)) g.

(** [now] is the value of [Date.now()] inside [checkGameEnd]. *)
Definition checkGameEnd (now : float) (g : Game) : Game :=
  let alivePlayers := filter (λ p, Is_true (alive p)) (players g) in
  let timeElapsed := (now - gameStartTime g)%float in
  if (length alivePlayers <=? 1)%nat || PrimFloat.leb gameTimeLimit timeElapsed
  then showGameOver (setGameRunning false g)
  else g.

(** One animation frame: [currentTime] is the [Date.now()] of [gameLoop] and
    [now] the later one of [checkGameEnd]. *)
Definition gameLoop (random : nat → float) (currentTime now : float)
    (st : Game * nat) : Game * nat :=
  if gameRunning st.1
  then let '(g, n) := updatePlayers random currentTime st in (checkGameEnd now g, n)
  else st.

(** ** The [keydown] listener of [setupEventListeners] *)

Inductive Key : Type := ArrowUp | ArrowDown | ArrowLeft | ArrowRight | OtherKey.

(** The listener. [None] is the [TypeError] that [player.alive] raises where
    [this.players[0]] is [undefined]; it is raised before any write. *)
Definition keydownListener (key : Key) (g : Game) : option Game :=
  if negb (gameRunning g) then Some g
  else
    match players g !! 0%nat with
    | None => None
    | Some player =>
        if negb (alive player) then Some g
        else
          let d := direction player in
          let newDirection :=
            match key with
            | ArrowUp => if negb (d.2 =? 1) then (0, -1) else d
            | ArrowDown => if negb (d.2 =? -1) then (0, 1) else d
            | ArrowLeft => if negb (d.1 =? 1) then (-1, 0) else d
            | ArrowRight => if negb (d.1 =? -1) then (1, 0) else d
            | OtherKey => d
            end in
          Some (updPlayer 0 (setDirection newDirection) g)
    end.

(** The game after a [keydown] event. The game does not catch the exception
    of its listener: the page reports it, and the game is as the listener
    left it, which is as it was. *)
Definition keydown (key : Key) (g : Game) : Game :=
  default g (keydownListener key g).

(** ** [render()]: the pass that draws the territories *)

(** What the pass does at the cell [(x, y)] of its two loops: no fill, a fill
    with [fillStyle = player.color + '80'] for
    [player = this.players[owner - 1]], or a [TypeError] where the row or the
    player is [undefined]. *)
Inductive Fill : Type := NoFill | FillStyle (style : string) | FillError.

Definition territoryFill (g : Game) (x y : nat) : Fill :=
  match grid g !! y with
  | None => FillError
  | Some row =>
      match row !! x with
      | None => NoFill          (* undefined > 0 is false *)
      | Some owner =>
          if 0 <? owner
          then match players g !! Z.to_nat (owner - 1) with
               | Some player => FillStyle (color player ++ "80")
               | None => FillError
               end
          else NoFill
      end
  end.

(** ** [initializeGame()] and [restart()] *)

Definition colors : list string :=
  ["#FF6B6B"; "#4ECDC4"; "#45B7D1"; "#96CEB4";
   "#FFEAA7"; "#DDA0DD"; "#98D8C8"; "#F7DC6F"]%string.

Definition startPositions (W H : Z) : list Cell :=
  [(5, 5); (W - 6, 5); (5, H - 6); (W - 6, H - 6)].

(** The 3x3 square around the start cell, in the order of the two loops. *)
Definition startSquare (c : Cell) : list Cell :=
  dy ← [-1; 0; 1]; dx ← [-1; 0; 1]; [(c.1 + dx, c.2 + dy)].

Definition createPlayer (W H : Z) (random : nat → float)
    (st : list (list Z) * list Player * nat) (i : nat)
    : list (list Z) * list Player * nat :=
  let '(gr, ps, n) := st in
  let start := default (0, 0) (startPositions W H !! i) in
  let id := Z.of_nat i + 1 in
  let '(interval, n') :=
    if (i =? 0)%nat then (100%float, n)
    else ((150 + random n * 100)%float, S n) in
  let '(gr', terr) :=
    foldl (λ acc c,
             if isValidPosition W H c
             then (setCell acc.1 c id, {[c]} ∪ acc.2)
             else acc)
          (gr, ∅) (startSquare start) in
  let player :=
    mkPlayer id start.1 start.2 (0, 0) (default EmptyString (colors !! i)) [] terr
             true (i =? 0)%nat 0%float interval in
  (gr', ps ++ [player], n').

(** [now] is the [Date.now()] stored in [gameStartTime]. *)
Definition initializeGame (random : nat → float) (now : float) (st : Game * nat)
    : Game * nat :=
  let '(g, n) := st in
  let W := mapWidth g in
  let H := mapHeight g in
  let gr0 := replicate (Z.to_nat H) (replicate (Z.to_nat W) 0) in
  let '(gr, ps, n') := foldl (createPlayer W H random) (gr0, [], n) (seq 0 4) in
  (mkGame W H gr ps true now, n').

Definition restart := initializeGame.

(** ** Notions used by the properties *)

(** The part of the game that [isValidMove] reads. *)
Definition boardState (g : Game) : Z * Z * list (list Z) * list (Z * bool * list Cell) :=
  (mapWidth g, mapHeight g, grid g, map (λ p, (pid p, alive p, trail p)) (players g)).

(** The trail that [movePlayer] has built when it tests for a claim: the cell
    that the player leaves is pushed if it is not in the territory. *)
Definition trailAfterStep (player : Player) : list Cell :=
  if negb (bool_decide ((px player, py player) ∈ territory player))
  then trail player ++ [(px player, py player)]
  else trail player.

(** The grid and the territory set after the trail is painted and the board
    is flood filled. *)
Definition claimedBoard (g : Game) (player : Player) (t : list Cell)
    : list (list Z) * gset Cell :=
  let painted := paintTrail (pid player) t (grid g) (territory player) in
  floodFillTerritory (mapWidth g) (mapHeight g) (pid player) painted.1 painted.2.

(** [painted] is the grid [gr] after the first loop of [claimTerritory]: on
    the board, the cells of the trail [t] have the owner [id] and the other
    cells have the owner that [gr] gives them. *)
Definition paintedWith (W H : Z) (id : Z) (t : list Cell) (gr painted : list (list Z))
    : Prop :=
  ∀ d, onBoard W H d →
       gridAt painted d = if decide (d ∈ t) then Some id else gridAt gr d.

(** The player [p'] is the player [p], with its id and its [isHuman] flag,
    and with a territory set that has only gained cells. *)
Definition grows (p p' : Player) : Prop :=
  pid p' = pid p ∧ isHuman p' = isHuman p ∧ territory p ⊆ territory p'.

(** A cell with an owner keeps it from [g] to [g'] unless a player of [g]
    owns it in [g'] and it is a cell of the trail of this player or the cell
    it stood on. *)
Definition ownersKept (g g' : Game) : Prop :=
  ∀ c owner, gridAt (grid g) c = Some owner → owner ≠ 0 →
    gridAt (grid g') c = Some owner
    ∨ ∃ p, p ∈ players g ∧ gridAt (grid g') c = Some (pid p)
           ∧ (c ∈ trail p ∨ c = (px p, py p)).

Definition idsNonzero (g : Game) : Prop := ∀ p, p ∈ players g → pid p ≠ 0.

(** The id and the [isHuman] flag of the players, in the order of the array;
    [initializeGame] writes them as [i + 1] and [i === 0]. *)
Definition seats (g : Game) : list (Z * bool) :=
  map (λ p, (pid p, isHuman p)) (players g).

Definition initialSeats : list (Z * bool) :=
  [(1, true); (2, false); (3, false); (4, false)].

(** ** The events of a session *)

(** What the page delivers to the game: an animation frame, a key press, or
    a click on the restart button. *)
Inductive Event : Type :=
  | Frame (currentTime now : float)
  | KeyDown (key : Key)
  | Restart (now : float).

Definition step (random : nat → float) (st : Game * nat) (e : Event) : Game * nat :=
  match e with
  | Frame currentTime now => gameLoop random currentTime now st
  | KeyDown key => (keydown key st.1, st.2)
  | Restart now => restart random now st
  end.

Definition isRestart (e : Event) : bool :=
  match e with Restart _ => true | _ => false end.

Definition run (random : nat → float) (st : Game * nat) (events : list Event)
    : Game * nat :=
  foldl (step random) st events.

Definition noRestart (events : list Event) : Prop :=
  Forall (λ e, isRestart e = false) events.

(** At most one player is alive, or the time limit has passed at [now]. *)
Definition endCondition (now : float) (g : Game) : Prop :=
  (length (filter (λ p, Is_true (alive p)) (players g)) ≤ 1)%nat
  ∨ PrimFloat.leb gameTimeLimit (now - gameStartTime g)%float = true.

(** ** Invariants used in the proofs *)

(** The number of cells of the board that are not in [visited]. *)
Definition unvisitedCount (W H : Z) (visited : gset Cell) : nat :=
  length (filter (λ c, c ∉ visited) (scanOrder W H)).

(** A bound on the iterations that the loop of [getConnectedRegion] still
    makes from the state [s]: it falls by one in every iteration. *)
Definition regionMeasure (W H : Z) (s : RegionState) : nat :=
  (length (rs_stack s) + 4 * unvisitedCount W H (rs_visited s))%nat.

(** The invariant of the loop of [getConnectedRegion], started at [start]
    with the set [visited0]. *)
Record RegionInv (W H : Z) (gr : list (list Z)) (visited0 : gset Cell) (start : Cell)
    (s : RegionState) : Prop := {
  ri_visited : ∀ d, d ∈ rs_visited s ↔ d ∈ rs_region s ∨ d ∈ visited0;
  ri_region : ∀ d, d ∈ rs_region s → sameRegion W H gr start d ∧ d ∉ visited0;
  ri_stack : ∀ e, e ∈ rs_stack s → e = start ∨ ∃ d, d ∈ rs_region s ∧ adjacent d e;
  ri_frontier : ∀ d e, d ∈ rs_region s → adjacent d e →
                e ∈ rs_stack s ∨ e ∈ rs_visited s ∨ ¬ unowned W H gr e;
  ri_start : start ∈ rs_region s ∨ start ∈ rs_stack s
}.

(** What the scan has established so far, in terms of the grid [g0] at the
    start of [floodFillTerritory]: the visited cells are whole regions of
    [g0], a visited region is filled exactly if it has no border cell, and
    nothing else has changed. *)
Record FillInv (W H : Z) (id : Z) (g0 : list (list Z)) (terr0 : gset Cell)
    (s : FillState) : Prop := {
  fi_unowned : ∀ c, c ∈ fs_visited s → unowned W H g0 c;
  fi_closed : ∀ c d, c ∈ fs_visited s → regionStepTo W H g0 c d → d ∈ fs_visited s;
  fi_same : ∀ c, c ∉ fs_visited s → gridAt (fs_grid s) c = gridAt g0 c;
  fi_border : ∀ c, c ∈ fs_visited s → regionHasBorderCell W H g0 c →
              gridAt (fs_grid s) c = Some 0;
  fi_enclosed : ∀ c, c ∈ fs_visited s → ¬ regionHasBorderCell W H g0 c →
                gridAt (fs_grid s) c = Some id ∧ c ∈ fs_territory s;
  fi_territory : ∀ c, c ∈ fs_territory s ↔
                 c ∈ terr0 ∨ (c ∈ fs_visited s ∧ ¬ regionHasBorderCell W H g0 c);
  fi_values : ∀ c, gridAt (fs_grid s) c = gridAt g0 c ∨ gridAt (fs_grid s) c = Some id
}.

(** [g'] is [g] after a turn of the player at index [k]: the other players,
    the dimensions and the flags of the game are as before, and the player
    keeps its id and its [isHuman] flag while its territory set has only
    gained cells. *)
Record TurnOf (k : nat) (g g' : Game) : Prop := {
  to_width : mapWidth g' = mapWidth g;
  to_height : mapHeight g' = mapHeight g;
  to_running : gameRunning g' = gameRunning g;
  to_others : ∀ j, j ≠ k → players g' !! j = players g !! j;
  to_none : players g !! k = None → players g' !! k = None;
  to_player : ∀ p, players g !! k = Some p →
              ∃ p', players g' !! k = Some p' ∧ grows p p'
}.

(** The player stands on the board and its trail is on the board. *)
Definition onBoardPlayer (W H : Z) (p : Player) : Prop :=
  onBoard W H (px p, py p) ∧ Forall (onBoard W H) (trail p).

(** What the reads and writes of the grid rely on: the grid has the
    dimensions of the board, and no position or trail cell is off the
    board. *)
Record BoardInv (W H : Z) (g : Game) : Prop := {
  bi_width : mapWidth g = W;
  bi_height : mapHeight g = H;
  bi_grid : wf_grid W H (grid g);
  bi_players : Forall (onBoardPlayer W H) (players g)
}.

(** A cell with an owner keeps it from [gr] to [gr'], unless it is a cell of
    the trail of [player], or the cell [player] stands on, and [player] owns
    it in [gr']. *)
Definition repaintedBy (player : Player) (gr gr' : list (list Z)) : Prop :=
  ∀ c owner, gridAt gr c = Some owner → owner ≠ 0 →
    gridAt gr' c = Some owner
    ∨ (gridAt gr' c = Some (pid player)
       ∧ (c ∈ trail player ∨ c = (px player, py player))).

(** ** Example games *)

(** A 5x5 board on which player 1 owns a ring around the cell (2, 2). *)
Definition ringBoard : list (list Z) :=
  [[0; 0; 0; 0; 0];
   [0; 1; 1; 1; 0];
   [0; 1; 0; 1; 0];
   [0; 1; 1; 1; 0];
   [0; 0; 0; 0; 0]].

(** A session on a canvas of 140 by 140 pixels, that is a board of 14 by 14
    cells, on which the four start squares touch. The values of
    [Math.random()] are 0.5 but for five calls: with them player 2 walks
    left, up and up to the unowned cell (7, 3), then right and down, back
    onto its territory, while players 3 and 4 walk away to the border. *)
Definition sessionRandom (n : nat) : float :=
  match n with
  | 4%nat | 6%nat => 0.25%float
  | 5%nat => 0.75%float
  | 12%nat | 16%nat => 0.9375%float
  | _ => 0.5%float
  end.

(** The game as the constructor and [initializeGame] leave it, at the time 0. *)
Definition sessionStart : Game * nat :=
  initializeGame sessionRandom 0 (mkGame 14 14 [] [] false 0, 0%nat).

(** Eight frames, one second apart, so that every player steps once in each
    of them, the human first. The human walks right, up and up to (6, 3),
    right onto (7, 3), the cell on which player 2 stands, and then around:
    (7, 2), (6, 2), (5, 2), (5, 3). In the fifth frame player 2 claims its
    trail (7, 3), (8, 3). *)
Definition sessionEvents : list Event :=
  [KeyDown ArrowRight; Frame 1000 1000;
   KeyDown ArrowUp; Frame 2000 2000; Frame 3000 3000;
   KeyDown ArrowRight; Frame 4000 4000;
   KeyDown ArrowUp; Frame 5000 5000;
   KeyDown ArrowLeft; Frame 6000 6000; Frame 7000 7000;
   KeyDown ArrowDown; Frame 8000 8000].

Definition sessionAtFrame8 : Game * nat := run sessionRandom sessionStart sessionEvents.

(** The human player after the eighth frame: at (5, 3), heading down to the
    cell (5, 4) of its start square, with (7, 3) in its trail. *)
Definition humanAtFrame8 : Player :=
  mkPlayer 1 5 3 (0, 1) "#FF6B6B" [(6, 3); (7, 3); (7, 2); (6, 2); (5, 2)]
           (list_to_set (startSquare (5, 5))) true true 8000 100.

(** Another session from the same start, in which the human player walks
    around the unowned cell (4, 3): up to (5, 2), left to (3, 2), down to
    (3, 4), and then turns right, towards the cell (4, 4) of its start
    square. The other players are away from these cells. *)
Definition loopEvents : list Event :=
  [KeyDown ArrowUp; Frame 1000 1000; Frame 2000 2000; Frame 3000 3000;
   KeyDown ArrowLeft; Frame 4000 4000; Frame 5000 5000;
   KeyDown ArrowDown; Frame 6000 6000; Frame 7000 7000;
   KeyDown ArrowRight].

Definition sessionBeforeLoop : Game * nat := run sessionRandom sessionStart loopEvents.

(** The human player in this state: at (3, 4), heading right. *)
Definition humanBeforeLoop : Player :=
  mkPlayer 1 3 4 (1, 0) "#FF6B6B" [(5, 3); (5, 2); (4, 2); (3, 2); (3, 3)]
           (list_to_set (startSquare (5, 5))) true true 7000 100.

(** ** More notions of the properties *)

(** The direction that a key asks for. *)
Definition keyDirection (key : Key) : option (Z * Z) :=
  match key with
  | ArrowUp => Some (0, -1)
  | ArrowDown => Some (0, 1)
  | ArrowLeft => Some (-1, 0)
  | ArrowRight => Some (1, 0)
  | OtherKey => None
  end.

Definition opposite (d : Z * Z) : Z * Z := (- d.1, - d.2).

(** The player at index [i] as [initializeGame] creates it on a board of
    [W] by [H] cells. *)
Definition createdPlayer (W H : Z) (i : nat) (p : Player) : Prop :=
  pid p = Z.of_nat i + 1 ∧ (isHuman p = true ↔ i = 0%nat) ∧ alive p = true
  ∧ trail p = [] ∧ direction p = (0, 0)
  ∧ (px p, py p) = default (0, 0) (startPositions W H !! i)
  ∧ ∀ c, c ∈ territory p
         ↔ c ∈ startSquare (default (0, 0) (startPositions W H !! i)) ∧ onBoard W H c.

(** The trail of a player has no cell twice, does not contain the cell the
    player stands on nor a cell of its territory, and is empty when the
    player is out. *)
Definition trailInv (p : Player) : Prop :=
  NoDup (trail p) ∧ ((px p, py p) ∉ trail p)
  ∧ (∀ c, c ∈ trail p → c ∉ territory p)
  ∧ (alive p = false → trail p = []).

(** Every cell that has an owner is in the territory set of a player with
    this id. *)
Definition ownersInTerritory (g : Game) : Prop :=
  ∀ c owner, gridAt (grid g) c = Some owner → owner ≠ 0 →
    ∃ p, p ∈ players g ∧ pid p = owner ∧ c ∈ territory p.

(** No unowned cell is cut off from the border. *)
Definition noPocket (g : Game) : Prop :=
  ∀ c, unowned (mapWidth g) (mapHeight g) (grid g) c →
       regionHasBorderCell (mapWidth g) (mapHeight g) (grid g) c.

(** The session goes on: the human player turns right, onto the cell (6, 3)
    of its own trail, and is out after the ninth frame. *)
Definition sessionHumanOut : Game * nat :=
  run sessionRandom sessionAtFrame8 [KeyDown ArrowRight; Frame 9000 9000].

Definition humanOut : Player :=
  mkPlayer 1 5 3 (1, 0) "#FF6B6B" [] (list_to_set (startSquare (5, 5))) false true 9000 100.

(** Player 2 after the eighth frame. *)
Definition player2AtFrame8 : Player :=
  mkPlayer 2 9 6 (1, 0) "#4ECDC4" []
           ({[(7, 3); (8, 3)]} ∪ list_to_set (startSquare (8, 5))) true false 8000 200.

End PaperIOGame.

(** * The continuous engine: [class SmoothPaperIOGame] *)
Module SmoothPaperIOGame.

Open Scope float_scope.

(** ** Numbers *)

(** JavaScript's numbers are the binary64 floats. [Math.sqrt] is taken as the
    correctly rounded square root [PrimFloat.sqrt] and [v ** 2] as the
    product [v * v]. *)
Definition sq (v : float) : float := v * v.

Definition isNegative (v : float) : bool := PrimFloat.ltb (1 / v) 0.

(** [Math.min(a, b)] and [Math.max(a, b)]: [NaN] if an argument is [NaN],
    and [-0] is below [+0]. *)
Definition jsMin (a b : float) : float :=
  if (PrimFloat.is_nan a || PrimFloat.is_nan b)%bool then nan
  else if PrimFloat.ltb a b then a
  else if PrimFloat.ltb b a then b
  else if isNegative a then a else b.

Definition jsMax (a b : float) : float :=
  if (PrimFloat.is_nan a || PrimFloat.is_nan b)%bool then nan
  else if PrimFloat.ltb a b then b
  else if PrimFloat.ltb b a then a
  else if isNegative a then b else a.

(** ** Data *)

Abbreviation Point := (float * float)%type.

(** The field [aiTarget] is [null] throughout and is left out. *)
Record Player : Type := mkPlayer {
  pid : Z;                      (* id *)
  px : float;                   (* x *)
  py : float;                   (* y *)
  direction : Point;
  color : string;
  trail : list Point;
  territory : list (list Point);
  alive : bool;
  isHuman : bool;
  speed : float;
  lastDirectionChange : float
}.

(** [canvasWidth] and [canvasHeight] are [this.canvas.width] and
    [this.canvas.height]. *)
Record Game : Type := mkGame {
  canvasWidth : float;
  canvasHeight : float;
  players : list Player;
  gameRunning : bool;
  gameStartTime : float;
  lastFrameTime : float
}.

Definition playerSpeed : float := 120.
Definition aiSpeed : float := 100.
Definition playerSize : float := 8.

Definition setPosition (x y : float) (p : Player) : Player :=
  mkPlayer (pid p) x y (direction p) (color p) (trail p) (territory p)
           (alive p) (isHuman p) (speed p) (lastDirectionChange p).

Definition setDirection (d : Point) (p : Player) : Player :=
  mkPlayer (pid p) (px p) (py p) d (color p) (trail p) (territory p)
           (alive p) (isHuman p) (speed p) (lastDirectionChange p).

Definition setTrail (t : list Point) (p : Player) : Player :=
  mkPlayer (pid p) (px p) (py p) (direction p) (color p) t (territory p)
           (alive p) (isHuman p) (speed p) (lastDirectionChange p).

Definition setTerritory (t : list (list Point)) (p : Player) : Player :=
  mkPlayer (pid p) (px p) (py p) (direction p) (color p) (trail p) t
           (alive p) (isHuman p) (speed p) (lastDirectionChange p).

Definition setAlive (b : bool) (p : Player) : Player :=
  mkPlayer (pid p) (px p) (py p) (direction p) (color p) (trail p) (territory p)
           b (isHuman p) (speed p) (lastDirectionChange p).

Definition setLastDirectionChange (t : float) (p : Player) : Player :=
  mkPlayer (pid p) (px p) (py p) (direction p) (color p) (trail p) (territory p)
           (alive p) (isHuman p) (speed p) t.

Definition setPlayers (ps : list Player) (g : Game) : Game :=
  mkGame (canvasWidth g) (canvasHeight g) ps (gameRunning g) (gameStartTime g)
         (lastFrameTime g).

Definition setGameRunning (b : bool) (g : Game) : Game :=
  mkGame (canvasWidth g) (canvasHeight g) (players g) b (gameStartTime g)
         (lastFrameTime g).

Definition setLastFrameTime (t : float) (g : Game) : Game :=
  mkGame (canvasWidth g) (canvasHeight g) (players g) (gameRunning g)
         (gameStartTime g) t.

(** The in-place mutation of the player object at index [i]. *)
Definition updPlayer (i : nat) (f : Player → Player) (g : Game) : Game :=
  setPlayers (alter f i (players g)) g.

(** ** Geometry *)

(** [distanceToLineSegment(px, py, p1, p2)]. [divided] records whether the
    division by [length * length] was evaluated. *)
Definition distanceToLineSegmentTraced (x y : float) (p1 p2 : Point) : float * bool :=
  let dx := p2.1 - p1.1 in
  let dy := p2.2 - p1.2 in
  let length := PrimFloat.sqrt (dx * dx + dy * dy) in
  if PrimFloat.eqb length 0
  then (PrimFloat.sqrt (sq (x - p1.1) + sq (y - p1.2)), false)
  else
    let t := jsMax 0 (jsMin 1 (((x - p1.1) * dx + (y - p1.2) * dy) / (length * length))) in
    let projection := (p1.1 + t * dx, p1.2 + t * dy) in
    (PrimFloat.sqrt (sq (x - projection.1) + sq (y - projection.2)), true).

Definition distanceToLineSegment (x y : float) (p1 p2 : Point) : float :=
  (distanceToLineSegmentTraced x y p1 p2).1.

(** [isPointNearTrail(x, y, trail, threshold)]: the loop over the
    consecutive pairs [trail[i]], [trail[i + 1]]. *)
Fixpoint isPointNearTrail (x y : float) (trail : list Point) (threshold : float) : bool :=
  match trail with
  | p1 :: ((p2 :: _) as rest) =>
      if PrimFloat.ltb (distanceToLineSegment x y p1 p2) threshold then true
      else isPointNearTrail x y rest threshold
  | _ => false
  end.

(** One step of the loop of [isPointInPolygon] for the vertices
    [pi = polygon[i]] and [pj = polygon[j]]. *)
Definition crosses (x y : float) (pi pj : Point) : bool :=
  (negb (Bool.eqb (PrimFloat.ltb y pi.2) (PrimFloat.ltb y pj.2))
   && PrimFloat.ltb x ((pj.1 - pi.1) * (y - pi.2) / (pj.2 - pi.2) + pi.1))%bool.

Fixpoint pointInPolygonFrom (x y : float) (pj : Point) (rest : list Point)
    (inside : bool) : bool :=
  match rest with
  | [] => inside
  | pi :: rest' =>
      pointInPolygonFrom x y pi rest'
        (if crosses x y pi pj then negb inside else inside)
  end.

(** [isPointInPolygon(x, y, polygon)]: [j] starts at the last vertex. *)
Definition isPointInPolygon (x y : float) (polygon : list Point) : bool :=
  match last polygon with
  | None => false
  | Some pj => pointInPolygonFrom x y pj polygon false
  end.

Definition isInTerritory (player : Player) (x y : float) : bool :=
  existsb (isPointInPolygon x y) (territory player).

(** [polygonArea(polygon)]: the shoelace sum over [i] and [(i + 1) % n]. *)
Definition polygonArea (polygon : list Point) : float :=
  let n := List.length polygon in
  let area :=
    foldl (λ area i,
             match polygon !! i, polygon !! ((i + 1) mod n)%nat with
             | Some pi, Some pj => area + pi.1 * pj.2 - pj.1 * pi.2
             | _, _ => area
             end)
          0 (seq 0 n) in
  PrimFloat.abs area / 2.

Definition calculateTerritoryArea (territories : list (list Point)) : float :=
  foldl (λ totalArea t, totalArea + polygonArea t) 0 territories.

(** ** [isPositionSafe], [eliminatePlayer], [closeTrail] *)

Definition isPositionSafe (g : Game) (player : Player) (x y : float) : bool :=
  if (PrimFloat.ltb x 10 || PrimFloat.ltb (canvasWidth g - 10) x
      || PrimFloat.ltb y 10 || PrimFloat.ltb (canvasHeight g - 10) y)%bool
  then false
  else if existsb
            (λ otherPlayer,
               negb ((pid otherPlayer =? pid player)%Z || negb (alive otherPlayer))
               && isPointNearTrail x y (trail otherPlayer) 15)%bool
            (players g)
  then false
  else if isPointNearTrail x y (trail player) 10 then false
  else true.

Definition eliminatePlayer (g : Game) (i : nat) : Game :=
  updPlayer i (λ p, setDirection (0, 0) (setTrail [] (setAlive false p))) g.

(** [findTerritoryConnection(player)]: an object, never [null]. *)
Definition findTerritoryConnection (player : Player) : option Point :=
  Some (px player, py player).

Definition closeTrailPlayer (player : Player) : Player :=
  if (List.length (trail player) <? 3)%nat then setTrail [] player
  else
    let trail1 := trail player ++ [(px player, py player)] in
    let territory1 :=
      match findTerritoryConnection player with
      | Some _ => territory player ++ [trail1]
      | None => territory player
      end in
    setTrail [] (setTerritory territory1 player).

Definition closeTrail (g : Game) (i : nat) : Game :=
  updPlayer i closeTrailPlayer g.

(** ** [updatePlayers(deltaTime)] *)

(** The body of [for (const player of this.players)] at index [i]. *)
Definition updatePlayer (deltaTime : float) (g : Game) (i : nat) : Game :=
  match players g !! i with
  | None => g
  | Some player =>
      if (negb (alive player)
          || (PrimFloat.eqb (direction player).1 0 && PrimFloat.eqb (direction player).2 0))%bool
      then g
      else
        let oldX := px player in
        let oldY := py player in
        let x := oldX + (direction player).1 * speed player * deltaTime in
        let y := oldY + (direction player).2 * speed player * deltaTime in
        let g1 := updPlayer i (setPosition x y) g in
        if negb (isInTerritory player x y)
        then
          let distance := PrimFloat.sqrt (sq (x - oldX) + sq (y - oldY)) in
          if PrimFloat.ltb 2 distance
          then updPlayer i (λ p, setTrail (trail p ++ [(oldX, oldY)]) p) g1
          else g1
        else if (0 <? List.length (trail player))%nat then closeTrail g1 i
        else g1
  end.

Definition updatePlayers (deltaTime : float) (g : Game) : Game :=
  foldl (updatePlayer deltaTime) g (seq 0 (List.length (players g))).

(** ** [checkCollisions()] *)

Definition outsideCanvas (g : Game) (player : Player) : bool :=
  (PrimFloat.ltb (px player) 0 || PrimFloat.ltb (canvasWidth g) (px player)
   || PrimFloat.ltb (py player) 0 || PrimFloat.ltb (canvasHeight g) (py player))%bool.

(** The inner loop over [otherPlayer]: some other living player's trail is
    closer than [playerSize]. The loop ends at the first one. *)
Definition hitsOtherTrail (g : Game) (player : Player) : bool :=
  existsb
    (λ otherPlayer,
       negb ((pid otherPlayer =? pid player)%Z || negb (alive otherPlayer))
       && isPointNearTrail (px player) (py player) (trail otherPlayer) playerSize)%bool
    (players g).

(** [player.trail.length > 10] and the point is near
    [player.trail.slice(0, -5)]. *)
Definition hitsOwnTrail (player : Player) : bool :=
  ((10 <? List.length (trail player))%nat
   && isPointNearTrail (px player) (py player)
        (take (List.length (trail player) - 5) (trail player)) playerSize)%bool.

(** The body of [for (const player of this.players)] at index [i]: the own
    trail is read again after the loop over the other players. *)
Definition checkCollision (g : Game) (i : nat) : Game :=
  match players g !! i with
  | None => g
  | Some player =>
      if negb (alive player) then g
      else if outsideCanvas g player then eliminatePlayer g i
      else
        let g1 := if hitsOtherTrail g player then eliminatePlayer g i else g in
        match players g1 !! i with
        | None => g1
        | Some player1 => if hitsOwnTrail player1 then eliminatePlayer g1 i else g1
        end
  end.

Definition checkCollisions (g : Game) : Game :=
  foldl checkCollision g (seq 0 (List.length (players g))).

(** ** The AI *)

Definition directions : list Point := [(0, -1); (0, 1); (-1, 0); (1, 0)].

Definition directionScore (g : Game) (player : Player) (dir : Point) : float :=
  let testX := px player + dir.1 * 100 in
  let testY := py player + dir.2 * 100 in
  let score :=
    foldl (λ score otherPlayer,
             if (pid otherPlayer =? pid player)%Z then score
             else
               let distance :=
                 PrimFloat.sqrt (sq (testX - px otherPlayer) + sq (testY - py otherPlayer)) in
               score + jsMin (distance / 100) 1)
          0 (players g) in
  let centerX := canvasWidth g / 2 in
  let centerY := canvasHeight g / 2 in
  let distanceToCenter := PrimFloat.sqrt (sq (testX - centerX) + sq (testY - centerY)) in
  if (PrimFloat.ltb testX 50 || PrimFloat.ltb (canvasWidth g - 50) testX
      || PrimFloat.ltb testY 50 || PrimFloat.ltb (canvasHeight g - 50) testY)%bool
  then score + (1 - distanceToCenter / 400)
  else score.

(** [findBestAIDirection(player, directions)]; [None] is [null]. *)
Definition findBestAIDirection (g : Game) (player : Player) (dirs : list Point)
    : option Point :=
  (foldl (λ best dir,
            let score := directionScore g player dir in
            if PrimFloat.ltb best.2 score then (Some dir, score) else best)
         (None, (-1)%float) dirs).1.

Definition isAIInDanger (g : Game) (player : Player) : bool :=
  let lookAhead := 30 in
  negb (isPositionSafe g player (px player + (direction player).1 * lookAhead)
                               (py player + (direction player).2 * lookAhead)).

(** [Math.random()] is an oracle as in the grid engine; a direction picked
    at an index out of range, which a value below 1 never gives, leaves the
    direction alone. *)
Definition pickDirection (r : float) (arr : list Point) (i : nat) (g : Game) : Game :=
  match floorNth (r * natToFloat (List.length arr)) arr with
  | Some d => updPlayer i (setDirection d) g
  | None => g
  end.

Definition updateAIDirection (random : nat → float) (n : nat) (g : Game) (i : nat)
    : Game * nat :=
  match players g !! i with
  | None => (g, n)
  | Some player =>
      let safeDirections :=
        filter (λ dir, Is_true
                  (if (PrimFloat.eqb dir.1 (- (direction player).1)
                       && PrimFloat.eqb dir.2 (- (direction player).2))%bool
                   then false
                   else isPositionSafe g player (px player + dir.1 * 50)
                                                (py player + dir.2 * 50)))
               directions in
      if (0 <? List.length safeDirections)%nat
      then
        match findBestAIDirection g player safeDirections with
        | Some bestDirection => (updPlayer i (setDirection bestDirection) g, n)
        | None => (pickDirection (random n) safeDirections i g, S n)
        end
      else if (List.length (trail player) =? 0)%nat
      then (pickDirection (random n) directions i g, S n)
      else (g, n)
  end.

(** The body of the loop of [updateAI(currentTime)] at index [i]. *)
Definition updateAIPlayer (random : nat → float) (currentTime : float)
    (st : Game * nat) (i : nat) : Game * nat :=
  let '(g, n) := st in
  match players g !! i with
  | None => st
  | Some player =>
      if (negb (alive player) || isHuman player)%bool then st
      else
        let '(g1, n1) :=
          if PrimFloat.ltb (1000 + random n * 2000) (currentTime - lastDirectionChange player)
          then
            let '(g', n') := updateAIDirection random (S n) g i in
            (updPlayer i (setLastDirectionChange currentTime) g', n')
          else (g, S n) in
        match players g1 !! i with
        | None => (g1, n1)
        | Some player1 =>
            if isAIInDanger g1 player1
            then
              let '(g', n') := updateAIDirection random n1 g1 i in
              (updPlayer i (setLastDirectionChange currentTime) g', n')
            else (g1, n1)
        end
  end.

Definition updateAI (random : nat → float) (currentTime : float) (st : Game * nat)
    : Game * nat :=
  foldl (updateAIPlayer random currentTime) st (seq 0 (List.length (players st.1))).

(** ** [checkGameEnd], [showGameOver], [gameLoop] *)

(** The comparator [(a, b) => areaB - areaA] is negative when [a] has to come
    first. *)
Definition smallerArea (a b : Player) : bool :=
  PrimFloat.ltb (calculateTerritoryArea (territory a) - calculateTerritoryArea (territory b)) 0.

(** [showGameOver()] sorts the copy [[...this.players]] and writes the panel
    from it; the result is the game and the ranking shown. *)
Definition showGameOver (g : Game) : Game * list Player :=
  let sortedPlayers := stableSort smallerArea (players g) in
  (g, sortedPlayers).

Definition checkGameEnd (now : float) (g : Game) : Game :=
  let alivePlayers := filter (λ p, Is_true (alive p)) (players g) in
  let timeElapsed := now - gameStartTime g in
  if ((List.length alivePlayers <=? 1)%nat || PrimFloat.leb gameTimeLimit timeElapsed)%bool
  then (showGameOver (setGameRunning false g)).1
  else g.

(** One animation frame: [currentTime] is the [Date.now()] of [gameLoop] and
    [now] the later one of [checkGameEnd]. *)
Definition gameLoop (random : nat → float) (currentTime now : float)
    (st : Game * nat) : Game * nat :=
  let '(g, n) := st in
  let deltaTime := (currentTime - lastFrameTime g) / 1000 in
  let g0 := setLastFrameTime currentTime g in
  if gameRunning g0
  then
    let g1 := updatePlayers deltaTime g0 in
    let g2 := checkCollisions g1 in
    let '(g3, n3) := updateAI random currentTime (g2, n) in
    (checkGameEnd now g3, n3)
  else (g0, n).

(** ** [handleInput(keys)] *)

Inductive Key : Type := ArrowUp | ArrowDown | ArrowLeft | ArrowRight.

(** [keys] is the map of the keys that are down. [None] is the [TypeError]
    that [player.alive] raises where [this.players[0]] is [undefined]; it is
    raised before any write. *)
Definition handleInput (keys : Key → bool) (g : Game) : option Game :=
  if negb (gameRunning g) then Some g
  else
    match players g !! 0%nat with
    | None => None
    | Some player =>
        if negb (alive player) then Some g
        else
          let d := direction player in
          let newDirection : Point :=
            if (keys ArrowUp && negb (PrimFloat.eqb d.2 1))%bool then (0, -1)
            else if (keys ArrowDown && negb (PrimFloat.eqb d.2 (-1)))%bool then (0, 1)
            else if (keys ArrowLeft && negb (PrimFloat.eqb d.1 1))%bool then (-1, 0)
            else if (keys ArrowRight && negb (PrimFloat.eqb d.1 (-1)))%bool then (1, 0)
            else d in
          Some (updPlayer 0 (setDirection newDirection) g)
    end.

(** The game after the [keydown] listener has called [handleInput(keys)].
    The listener does not catch the exception: the page reports it, and the
    game is as [handleInput] left it, which is as it was. *)
Definition afterInput (keys : Key → bool) (g : Game) : Game :=
  default g (handleInput keys g).

(** ** [initializeGame()] and [restart()] *)

Section Initialize.
(** [Math.cos] and [Math.sin]. *)
Variables cos sin : float → float.

(** [Math.PI] *)
Definition PI : float := 0x1.921fb54442d18p+1.

Definition colors : list string :=
  ["#FF6B6B"; "#4ECDC4"; "#45B7D1"; "#96CEB4";
   "#FFEAA7"; "#DDA0DD"; "#98D8C8"; "#F7DC6F"]%string.

Definition startPositions : list Point :=
  [(100, 100); (700, 100); (100, 500); (700, 500)].

(** [createInitialTerritory(player)]: a polygon of 16 points on the circle
    of radius 40. *)
Definition createInitialTerritory (player : Player) : Player :=
  let radius := 40 in
  let segments := 16%nat in
  let points :=
    map (λ i, let angle := natToFloat i / natToFloat segments * PI * 2 in
              (px player + cos angle * radius, py player + sin angle * radius))
        (seq 0 segments) in
  setTerritory [points] player.

Definition createPlayer (i : nat) : Player :=
  let start := default (0, 0) (startPositions !! i) in
  createInitialTerritory
    (mkPlayer (Z.of_nat i + 1) start.1 start.2 (0, 0)
              (default EmptyString (colors !! i)) [] [] true (i =? 0)%nat
              (if (i =? 0)%nat then playerSpeed else aiSpeed) 0).

(** [now] and [frameNow] are the two values of [Date.now()] that are stored
    in [gameStartTime] and [lastFrameTime]. *)
Definition initializeGame (now frameNow : float) (g : Game) : Game :=
  mkGame (canvasWidth g) (canvasHeight g) (map createPlayer (seq 0 4)) true now frameNow.

Definition restart := initializeGame.

(** ** The events of a session *)

(** An animation frame, a key going down or up, or a click on the restart
    button. The state of a session is the game, the map [keys] of the
    listeners and the counter of the calls of [Math.random()]. *)
Inductive Event : Type :=
  | Frame (currentTime now : float)
  | KeyDown (key : Key)
  | KeyUp (key : Key)
  | Restart (now frameNow : float).

Definition sameKey (a b : Key) : bool :=
  match a, b with
  | ArrowUp, ArrowUp | ArrowDown, ArrowDown
  | ArrowLeft, ArrowLeft | ArrowRight, ArrowRight => true
  | _, _ => false
  end.

(** [keys[e.key] = b] *)
Definition setKey (key : Key) (b : bool) (keys : Key → bool) : Key → bool :=
  λ k, if sameKey key k then b else keys k.

Definition step (random : nat → float) (st : Game * (Key → bool) * nat) (e : Event)
    : Game * (Key → bool) * nat :=
  let '(g, keys, n) := st in
  match e with
  | Frame currentTime now =>
      let '(g', n') := gameLoop random currentTime now (g, n) in (g', keys, n')
  | KeyDown key => let keys' := setKey key true keys in (afterInput keys' g, keys', n)
  | KeyUp key => (g, setKey key false keys, n)
  | Restart now frameNow => (restart now frameNow g, keys, n)
  end.

Definition isRestart (e : Event) : bool :=
  match e with Restart _ _ => true | _ => false end.

Definition run (random : nat → float) (st : Game * (Key → bool) * nat)
    (events : list Event) : Game * (Key → bool) * nat :=
  foldl (step random) st events.
End Initialize.

Definition noRestart (events : list Event) : Prop :=
  Forall (λ e, isRestart e = false) events.

(** At most one player is alive, or the time limit has passed at [now]. *)
Definition endCondition (now : float) (g : Game) : Prop :=
  (List.length (filter (λ p, Is_true (alive p)) (players g)) ≤ 1)%nat
  ∨ PrimFloat.leb gameTimeLimit (now - gameStartTime g) = true.

(** ** Closeness to a trail *)

(** The point [(x, y)] is within [d] of the polyline [trail]: closer than [d]
    to the segment between two consecutive points of it. *)
Definition nearTrail (x y : float) (trail : list Point) (d : float) : Prop :=
  ∃ k p1 p2, trail !! k = Some p1 ∧ trail !! S k = Some p2
             ∧ PrimFloat.ltb (distanceToLineSegment x y p1 p2) d = true.

(** The position is outside the canvas. *)
Definition offCanvas (g : Game) (player : Player) : Prop :=
  PrimFloat.ltb (px player) 0 = true ∨ PrimFloat.ltb (canvasWidth g) (px player) = true
  ∨ PrimFloat.ltb (py player) 0 = true ∨ PrimFloat.ltb (canvasHeight g) (py player) = true.

(** The position is within [playerSize] of the trail of another player of
    [g] that is alive. *)
Definition nearOtherTrail (g : Game) (player : Player) : Prop :=
  ∃ q, q ∈ players g ∧ pid q ≠ pid player ∧ alive q = true
       ∧ nearTrail (px player) (py player) (trail q) playerSize.

(** The own trail has more than 10 points and the position is within
    [playerSize] of it, its last 5 points left out. *)
Definition nearOwnTrail (player : Player) : Prop :=
  (10 < List.length (trail player))%nat
  ∧ nearTrail (px player) (py player)
      (take (List.length (trail player) - 5) (trail player)) playerSize.

(** The player [p'] is the player [p] with a list of polygons that has only
    gained polygons, at its end. *)
Definition extends (p p' : Player) : Prop :=
  pid p' = pid p ∧ territory p `prefix_of` territory p'.

Definition allExtend (g g' : Game) : Prop :=
  Forall2 extends (players g) (players g').

(** The game at the moment [checkCollisions] examines the player at index
    [i]: the players before it have been examined. *)
Definition checkCollisionsBefore (g : Game) (i : nat) : Game :=
  foldl checkCollision g (seq 0 i).

(** The player as [eliminatePlayer] leaves it. *)
Definition eliminated (p : Player) : Player :=
  setDirection (0, 0) (setTrail [] (setAlive false p)).

(** ** An example game *)

(** Two computer players whose paths cross: each has just stepped onto the
    trail of the other. Player 2 is examined first. *)
Definition homeSquare (x y : float) : list Point :=
  [(x - 30, y - 30); (x + 30, y - 30); (x + 30, y + 30); (x - 30, y + 30)].

Definition crossGame : Game :=
  mkGame 800 600
    [ mkPlayer 1 100 100 (0, 0) "#FF6B6B" [] [homeSquare 100 100] true true 120 0;
      mkPlayer 2 103 160 (-1, 0) "#4ECDC4" [(153, 60); (153, 110); (153, 160)]
               [homeSquare 700 100] true false 100 0;
      mkPlayer 3 150 110 (1, 0) "#45B7D1" [(100, 210); (100, 160); (100, 110)]
               [homeSquare 100 500] true false 100 0;
      mkPlayer 4 700 500 (0, 0) "#96CEB4" [] [homeSquare 700 500] true false 100 0 ]
    true 0 0.

(** ** More notions of the properties *)

(** The player [p'] is what frames and key events can make of the player
    [p]: the same object if [p] is out; for a living [p] a player with the
    same id, [isHuman] flag, colour and speed, with a list of polygons that
    has only gained polygons, and, if it is out, with an empty trail and the
    direction (0, 0). *)
Definition evolves (p p' : Player) : Prop :=
  p' = p
  ∨ (alive p = true ∧ pid p' = pid p ∧ isHuman p' = isHuman p ∧ color p' = color p
     ∧ speed p' = speed p ∧ territory p `prefix_of` territory p'
     ∧ (alive p' = false → trail p' = [] ∧ direction p' = (0, 0))).

Definition allEvolve (g g' : Game) : Prop :=
  Forall2 evolves (players g) (players g').

(** The test of the filter of [updateAIDirection]: [d] is not the reverse of
    the direction of [p] and the position 50 units ahead is safe. *)
Definition aiSafe (g : Game) (p : Player) (d : Point) : Prop :=
  (PrimFloat.eqb d.1 (- (direction p).1) && PrimFloat.eqb d.2 (- (direction p).2))%bool
  = false
  ∧ isPositionSafe g p (px p + d.1 * 50) (py p + d.2 * 50) = true.

(** Player 2 of [crossGame]. *)
Definition crossPlayer2 : Player :=
  mkPlayer 2 103 160 (-1, 0) "#4ECDC4" [(153, 60); (153, 110); (153, 160)]
           [homeSquare 700 100] true false 100 0.

End SmoothPaperIOGame.

(** * The bet buttons: [script.js] *)
Module BetButtons.

(** The [classList] of a button: the class tokens in their order. [add]
    appends a token that is not in the list and [remove] takes a token
    out. *)
Definition classAdd (t : string) (cl : list string) : list string :=
  if bool_decide (t ∈ cl) then cl else cl ++ [t].

Definition classRemove (t : string) (cl : list string) : list string :=
  filter (λ c, c ≠ t) cl.

(** [btn.classList.remove('btn-primary'); btn.classList.add('btn-primary-dark')] *)
Definition resetButton (cl : list string) : list string :=
  classAdd "btn-primary-dark" (classRemove "btn-primary" cl).

(** [button.classList.remove('btn-primary-dark'); button.classList.add('btn-primary')] *)
Definition activateButton (cl : list string) : list string :=
  classAdd "btn-primary" (classRemove "btn-primary-dark" cl).

(** The click listener of the button at index [i] of [betButtons]: every
    button is reset, then the clicked one is made the active one. *)
Definition click (i : nat) (betButtons : list (list string)) : list (list string) :=
  alter activateButton i (map resetButton betButtons).

End BetButtons.

(** * The stable sort *)

Lemma insertSorted_Permutation {A} (before : A → A → bool) a l :
  Permutation (a :: l) (insertSorted before a l).
Proof.
  induction l as [|b l IH]; simpl; [done|].
  destruct (before a b); [|done].
  rewrite <- IH. apply perm_swap.
Qed.

Lemma stableSort_Permutation {A} (before : A → A → bool) l :
  Permutation l (stableSort before l).
Proof.
  induction l as [|a l IH]; simpl; [done|].
  rewrite <- insertSorted_Permutation. by constructor.
Qed.

Section SortByKey.
Context {A : Type} (key : A → nat).

Let smallerKey (a b : A) : bool := (key a <? key b)%nat.

Lemma insertSorted_descending a l :
  descending key l → descending key (insertSorted smallerKey a l).
Proof.
  unfold descending. induction l as [|b l IH]; intros Hl; simpl.
  { constructor; constructor. }
  apply StronglySorted_inv in Hl as [Hl Hb].
  unfold smallerKey at 1. destruct (key a <? key b)%nat eqn:E.
  - apply Nat.ltb_lt in E. constructor; [by apply IH|].
    rewrite <- insertSorted_Permutation. constructor; [lia|done].
  - apply Nat.ltb_ge in E. constructor; [by constructor|].
    constructor; [done|]. eapply Forall_impl; [exact Hb|]. simpl. intros x Hx. lia.
Qed.

Lemma stableSort_descending l : descending key (stableSort smallerKey l).
Proof.
  induction l as [|a l IH]; simpl; [constructor|]. by apply insertSorted_descending.
Qed.

(** The first element of the sorted list has a largest key. *)
Lemma stableSort_first_largest l first :
  stableSort smallerKey l !! 0%nat = Some first →
  ∀ a, a ∈ l → (key a ≤ key first)%nat.
Proof.
  intros Hfirst a Ha. pose proof (stableSort_descending l) as Hs.
  rewrite (stableSort_Permutation smallerKey l) in Ha.
  destruct (stableSort smallerKey l) as [|b l']; [done|].
  simpl in Hfirst. injection Hfirst as ->.
  apply StronglySorted_inv in Hs as [_ Hall].
  apply elem_of_cons in Ha as [->|Ha]; [done|].
  by apply (proj1 (Forall_forall _ _) Hall).
Qed.
End SortByKey.

(** * Properties of the grid engine *)
Module PaperIOGameFacts.
Import PaperIOGame.

(** ** Reading and writing the grid *)

Lemma gridAt_setCell_eq gr c v :
  is_Some (gridAt gr c) → gridAt (setCell gr c v) c = Some v.
Proof.
  unfold gridAt, setCell. destruct c as [x y]; simpl.
  destruct ((0 <=? x) && (0 <=? y)) eqn:E; [|by intros [? ?]].
  intros [o Ho]. rewrite list_lookup_alter_eq.
  destruct (gr !! Z.to_nat y) as [row|] eqn:Er; simpl in *; [|done].
  apply list_lookup_insert_eq. by eapply lookup_lt_Some.
Qed.

Lemma gridAt_setCell_ne gr c d v :
  c ≠ d → gridAt (setCell gr c v) d = gridAt gr d.
Proof.
  unfold gridAt, setCell. destruct c as [x y], d as [x' y']; simpl. intros Hne.
  destruct ((0 <=? x) && (0 <=? y)) eqn:E; [|done].
  destruct ((0 <=? x') && (0 <=? y')) eqn:E'; [|done].
  apply andb_true_iff in E as [?%Z.leb_le ?%Z.leb_le].
  apply andb_true_iff in E' as [?%Z.leb_le ?%Z.leb_le].
  destruct (decide (y = y')) as [->|Hy].
  - rewrite list_lookup_alter_eq.
    destruct (gr !! Z.to_nat y') as [row|]; simpl; [|done].
    apply list_lookup_insert_ne. intros Hx. apply Hne. f_equal. lia.
  - rewrite list_lookup_alter_ne; [done|lia].
Qed.

Lemma gridAt_setCell gr c d v :
  gridAt (setCell gr c v) d =
    if decide (c = d) then (λ _, v) <$> gridAt gr d else gridAt gr d.
Proof.
  case_decide as Hcd.
  - subst d. destruct (gridAt gr c) as [o|] eqn:E; simpl.
    + apply gridAt_setCell_eq. by rewrite E.
    + revert E. unfold gridAt, setCell. destruct c as [x y]; simpl.
      destruct ((0 <=? x) && (0 <=? y)); [|done].
      rewrite list_lookup_alter_eq.
      destruct (gr !! Z.to_nat y) as [row|]; simpl; [|done].
      intros Hn. apply lookup_ge_None. rewrite length_insert.
      by apply lookup_ge_None.
  - by apply gridAt_setCell_ne.
Qed.

(** ** Adjacency and regions *)

Lemma adjacent_sym c d : adjacent c d → adjacent d c.
Proof.
  destruct c as [x y], d as [x' y']. unfold adjacent; simpl.
  intros [H|[H|[H|H]]]; inversion H; subst.
  - right; left. f_equal; lia.
  - left. f_equal; lia.
  - do 3 right. f_equal; lia.
  - right; right; left. f_equal; lia.
Qed.

Lemma sameRegion_unowned W H gr c d :
  unowned W H gr c → sameRegion W H gr c d → unowned W H gr d.
Proof.
  intros Hc Hcd. induction Hcd as [|a b e [_ Hb] _ IH]; [done|]. by apply IH.
Qed.

Lemma sameRegion_sym W H gr c d :
  unowned W H gr c → sameRegion W H gr c d → sameRegion W H gr d c.
Proof.
  intros Hc Hcd. induction Hcd as [|a b e [Hab Hb] _ IH]; [apply rtc_refl|].
  eapply rtc_r; [by apply IH|]. split; [by apply adjacent_sym|done].
Qed.

Lemma regionHasBorderCell_same W H gr c d :
  unowned W H gr c → sameRegion W H gr c d →
  regionHasBorderCell W H gr c ↔ regionHasBorderCell W H gr d.
Proof.
  intros Hc Hcd. split; intros (e & He & Hb); exists e; (split; [|done]).
  - eapply rtc_trans; [|done]. by apply sameRegion_sym.
  - by eapply rtc_trans.
Qed.

(** ** Termination of the loop of [getConnectedRegion] *)

Lemma elem_of_scanOrder W H c : c ∈ scanOrder W H ↔ onBoard W H c.
Proof.
  unfold scanOrder, onBoard. destruct c as [x y]; simpl.
  rewrite list_elem_of_bind. split.
  - intros (x' & Hy & Hx). apply list_elem_of_bind in Hy as (y' & Hc & Hy).
    apply list_elem_of_singleton in Hc. inversion Hc; subst.
    apply elem_of_seqZ in Hx, Hy. lia.
  - intros [Hx Hy]. exists x. split; [|apply elem_of_seqZ; lia].
    apply list_elem_of_bind. exists y. split; [by apply list_elem_of_singleton|].
    apply elem_of_seqZ; lia.
Qed.

Lemma length_scanOrder W H :
  length (scanOrder W H) = (Z.to_nat W * Z.to_nat H)%nat.
Proof.
  unfold scanOrder. rewrite <- (length_seqZ 0 W), <- (length_seqZ 0 H).
  induction (seqZ 0 W) as [|x xs IH]; [done|].
  rewrite bind_cons, length_app, IH.
  assert (length (seqZ 0 H ≫= λ y : Z, [(x, y)]) = length (seqZ 0 H)) as ->; [|done].
  clear IH. induction (seqZ 0 H) as [|y ys IHy]; [done|].
  rewrite bind_cons, length_app, IHy. done.
Qed.

Lemma unvisitedCount_le W H visited :
  (unvisitedCount W H visited ≤ Z.to_nat W * Z.to_nat H)%nat.
Proof. unfold unvisitedCount. rewrite <- length_scanOrder. apply length_filter. Qed.

Lemma filter_unvisited_insert (l : list Cell) (k : Cell) (visited : gset Cell) :
  (length (filter (λ c, c ∉ {[k]} ∪ visited) l) ≤ length (filter (λ c, c ∉ visited) l))%nat
  ∧ (k ∈ l → k ∉ visited →
     (length (filter (λ c, c ∉ {[k]} ∪ visited) l) < length (filter (λ c, c ∉ visited) l))%nat).
Proof.
  induction l as [|a l [IHle IHlt]]; [split; [done|by intros ?%elem_of_nil]|].
  rewrite !filter_cons.
  destruct (decide (a ∉ {[k]} ∪ visited)) as [Ha|Ha];
    destruct (decide (a ∉ visited)) as [Ha'|Ha']; simpl.
  - split; [lia|]. intros [->|Hk]%elem_of_cons Hv.
    + exfalso. apply Ha, elem_of_union. left. by apply elem_of_singleton.
    + specialize (IHlt Hk Hv). lia.
  - exfalso. apply Ha'. intros Hav. apply Ha, elem_of_union. by right.
  - split; [lia|]. intros _ _. lia.
  - split; [lia|]. intros [->|Hk]%elem_of_cons Hv; [done|]. by apply IHlt.
Qed.

Lemma unvisitedCount_insert W H k visited :
  onBoard W H k → k ∉ visited →
  (unvisitedCount W H ({[k]} ∪ visited) < unvisitedCount W H visited)%nat.
Proof.
  intros Hk Hv. apply filter_unvisited_insert; [|done]. by apply elem_of_scanOrder.
Qed.

Lemma regionStep_measure W H gr k stack region visited :
  (regionMeasure W H (regionStep W H gr k stack region visited)
   ≤ length stack + 4 * unvisitedCount W H visited)%nat.
Proof.
  unfold regionStep, regionMeasure.
  destruct (bool_decide (k ∈ visited)) eqn:Ev; simpl; [lia|].
  destruct (bool_decide (k ∈ region)); simpl; [lia|].
  destruct ((k.1 <? 0) || (W <=? k.1) || (k.2 <? 0) || (H <=? k.2)) eqn:Eb; simpl; [lia|].
  destruct (bool_decide (gridAt gr k = Some 0)); simpl; [|lia].
  apply bool_decide_eq_false in Ev.
  assert (onBoard W H k) as Hk.
  { unfold onBoard. rewrite !orb_false_iff in Eb. lia. }
  pose proof (unvisitedCount_insert W H k visited Hk Ev). lia.
Qed.

Lemma regionLoop_stack_empty W H gr fuel s :
  (regionMeasure W H s ≤ fuel)%nat → rs_stack (regionLoop fuel W H gr s) = [].
Proof.
  revert s. induction fuel as [|fuel IH]; intros s Hm; simpl.
  - unfold regionMeasure in Hm. destruct (rs_stack s); [done|simpl in Hm; lia].
  - destruct (rs_stack s) as [|k stack] eqn:Es; [done|].
    apply IH. unfold regionMeasure in Hm. rewrite Es in Hm. simpl in Hm.
    pose proof (regionStep_measure W H gr k stack (rs_region s) (rs_visited s)). lia.
Qed.

(** The loop of [getConnectedRegion] always ends with an empty stack: the
    fuel of the model is never used up. *)
Lemma getConnectedRegion_terminates W H gr start visited :
  rs_stack (getConnectedRegionState W H gr start visited) = [].
Proof.
  apply regionLoop_stack_empty. unfold regionMeasure, regionFuel. simpl.
  pose proof (unvisitedCount_le W H visited). lia.
Qed.

(** ** The region that [getConnectedRegion] returns *)

Section Region.
Variables (W H : Z) (gr : list (list Z)) (visited0 : gset Cell) (start : Cell).

(** [start] is an unowned cell that was not visited, and the visited
    cells are whole regions: no step leaves them. *)
Hypothesis start_unowned : unowned W H gr start.
Hypothesis start_fresh : start ∉ visited0.
Hypothesis visited_closed :
  ∀ c d, c ∈ visited0 → regionStepTo W H gr c d → d ∈ visited0.

Lemma RegionInv_init : RegionInv W H gr visited0 start (mkRegionState [start] [] visited0).
Proof.
  split; simpl.
  - intros d. rewrite elem_of_nil. tauto.
  - by intros d ?%elem_of_nil.
  - intros e ->%list_elem_of_singleton. by left.
  - by intros d e ?%elem_of_nil.
  - right. by apply list_elem_of_singleton.
Qed.

Lemma RegionInv_step k stack region visited :
  RegionInv W H gr visited0 start (mkRegionState (k :: stack) region visited) →
  RegionInv W H gr visited0 start (regionStep W H gr k stack region visited).
Proof.
  intros [Hv Hr Hs Hf Hst]; simpl in *. unfold regionStep.
  assert (k ∈ visited ∨ ¬ unowned W H gr k →
          RegionInv W H gr visited0 start (mkRegionState stack region visited)) as Hskip.
  { intros Hk. split; simpl; [done|done|..].
    - intros e He. apply Hs. by right.
    - intros d e Hd Hde. destruct (Hf d e Hd Hde) as [[->|?]%elem_of_cons|?]; tauto.
    - destruct Hst as [?|[->|?]%elem_of_cons]; [by left| |by right].
      left. destruct Hk as [Hk|Hk]; [|done].
      apply Hv in Hk as [?|?]; done. }
  destruct (bool_decide (k ∈ visited)) eqn:Ev; simpl.
  { apply bool_decide_eq_true in Ev. apply Hskip. by left. }
  apply bool_decide_eq_false in Ev.
  destruct (bool_decide (k ∈ region)) eqn:Er; simpl.
  { apply bool_decide_eq_true in Er. exfalso. apply Ev, Hv. by left. }
  destruct ((k.1 <? 0) || (W <=? k.1) || (k.2 <? 0) || (H <=? k.2)) eqn:Eb; simpl.
  { apply Hskip. right. intros [[? ?] _].
    rewrite !orb_true_iff in Eb. lia. }
  destruct (bool_decide (gridAt gr k = Some 0)) eqn:Eg; simpl.
  2:{ apply bool_decide_eq_false in Eg. apply Hskip. right. by intros [_ ?]. }
  apply bool_decide_eq_true in Eg.
  assert (unowned W H gr k) as Hk.
  { split; [|done]. unfold onBoard. rewrite !orb_false_iff in Eb. lia. }
  assert (k ∉ visited0) as Hk0 by (intros ?; apply Ev, Hv; by right).
  assert (sameRegion W H gr start k) as Hsk.
  { destruct (Hs k) as [->|(d & Hd & Hdk)]; [by left|apply rtc_refl|].
    eapply rtc_r; [by apply Hr|]. by split. }
  assert (k ∈ region ++ [k]) as Hkr by (apply elem_of_app; right; by left).
  split; simpl.
  - intros d. rewrite elem_of_union, elem_of_singleton, elem_of_app,
      list_elem_of_singleton, Hv. tauto.
  - intros d [Hd| ->%list_elem_of_singleton]%elem_of_app; [by apply Hr|done].
  - intros e He. rewrite !elem_of_cons in He.
    destruct He as [->|[->|[->|[->|He]]]].
    + right. exists k. split; [done|]. by left.
    + right. exists k. split; [done|]. right; by left.
    + right. exists k. split; [done|]. right; right; by left.
    + right. exists k. split; [done|]. by do 3 right.
    + destruct (Hs e) as [->|(d & Hd & Hde)]; [by right|by left|].
      right. exists d. split; [apply elem_of_app; by left|done].
  - intros d e [Hd| ->%list_elem_of_singleton]%elem_of_app Hde.
    + destruct (Hf d e Hd Hde) as [[->|He]%elem_of_cons|[He|He]].
      * right; left. apply elem_of_union. left. by apply elem_of_singleton.
      * left. by do 4 apply list_elem_of_further.
      * right; left. apply elem_of_union. by right.
      * by do 2 right.
    + left. rewrite !elem_of_cons. unfold adjacent in Hde. tauto.
  - destruct Hst as [?|[->|?]%elem_of_cons].
    + left. apply elem_of_app. by left.
    + by left.
    + right. by do 4 apply list_elem_of_further.
Qed.

Lemma RegionInv_loop fuel s :
  RegionInv W H gr visited0 start s → RegionInv W H gr visited0 start (regionLoop fuel W H gr s).
Proof.
  revert s. induction fuel as [|fuel IH]; intros s Hs; simpl; [done|].
  destruct s as [stack region visited]; simpl.
  destruct stack as [|k stack]; [done|]. by apply IH, RegionInv_step.
Qed.

(** A finished loop has collected the whole region of [start]. *)
Lemma RegionInv_complete s :
  RegionInv W H gr visited0 start s → rs_stack s = [] →
  ∀ d, d ∈ rs_region s ↔ sameRegion W H gr start d.
Proof.
  intros [Hv Hr Hs Hf Hst] Hnil d. rewrite Hnil in *.
  split; [by intros [? ?]%Hr|]. revert d. unfold sameRegion. apply rtc_ind_r.
  - destruct Hst as [?|?%elem_of_nil]; done.
  - intros d e Hsd [Hde He] IH.
    destruct (Hf d e IH Hde) as [?%elem_of_nil|[Hev|?]]; [done| |done].
    apply Hv in Hev as [?|He0]; [done|]. exfalso.
    apply (Hr d IH). apply (visited_closed e d He0). split.
    * by apply adjacent_sym.
    * eapply sameRegion_unowned; [apply start_unowned|done].
Qed.

Lemma getConnectedRegion_spec :
  let '(region, visited) := getConnectedRegion W H gr start visited0 in
  (∀ d, d ∈ region ↔ sameRegion W H gr start d)
  ∧ (∀ d, d ∈ visited ↔ sameRegion W H gr start d ∨ d ∈ visited0).
Proof.
  unfold getConnectedRegion.
  pose proof (RegionInv_loop (regionFuel W H) _ RegionInv_init) as Hinv.
  pose proof (getConnectedRegion_terminates W H gr start visited0) as Hnil.
  fold (getConnectedRegionState W H gr start visited0) in Hinv.
  pose proof (RegionInv_complete _ Hinv Hnil) as Hreg.
  split; [done|]. intros d. rewrite (ri_visited _ _ _ _ _ _ Hinv), Hreg. done.
Qed.
End Region.


(** ** The loops of [floodFillTerritory] *)

Lemma fillRegion_spec id region s :
  (∀ d, gridAt (fs_grid (fillRegion id region s)) d =
        if decide (d ∈ region) then (λ _, id) <$> gridAt (fs_grid s) d
        else gridAt (fs_grid s) d)
  ∧ (∀ d, d ∈ fs_territory (fillRegion id region s) ↔ d ∈ region ∨ d ∈ fs_territory s)
  ∧ fs_visited (fillRegion id region s) = fs_visited s.
Proof.
  unfold fillRegion. revert s. induction region as [|pos region IH]; intros s; simpl.
  - split; [|split]; [|intros d; rewrite elem_of_nil; tauto|done].
    intros d. destruct (decide (d ∈ [])) as [Hd|Hd]; [by apply elem_of_nil in Hd|done].
  - destruct (IH (mkFillState (setCell (fs_grid s) pos id) ({[pos]} ∪ fs_territory s)
                              (fs_visited s))) as (Hg & Ht & Hv); simpl in *.
    split; [|split]; [| |done].
    + intros d. rewrite Hg, gridAt_setCell.
      repeat case_decide; subst; try done;
        try (by destruct (gridAt (fs_grid s) d));
        exfalso; repeat match goal with
                   | Hx : _ ∈ _ :: _ |- _ => apply elem_of_cons in Hx
                   | Hx : ¬ (_ ∈ _ :: _) |- _ => rewrite elem_of_cons in Hx
                   end; intuition congruence.
    + intros d. rewrite Ht, elem_of_union, elem_of_singleton, elem_of_cons. tauto.
Qed.

Section Fill.
Variables (W H : Z) (id : Z) (g0 : list (list Z)) (terr0 : gset Cell).

Lemma FillInv_init : FillInv W H id g0 terr0 (mkFillState g0 terr0 ∅).
Proof.
  split; simpl.
  - by intros c ?%elem_of_empty.
  - by intros c d ?%elem_of_empty.
  - done.
  - by intros c ?%elem_of_empty.
  - by intros c ?%elem_of_empty.
  - intros c. split; [by left|]. by intros [?|[?%elem_of_empty _]].
  - by left.
Qed.

(** Outside the visited cells the current grid and [g0] have the same
    regions. *)
Lemma FillInv_region s c d :
  FillInv W H id g0 terr0 s → c ∉ fs_visited s → unowned W H g0 c →
  sameRegion W H (fs_grid s) c d ↔ sameRegion W H g0 c d.
Proof.
  intros Hinv Hc Hc0.
  assert (∀ e, sameRegion W H g0 c e → e ∉ fs_visited s) as Hout.
  { unfold sameRegion. apply rtc_ind_r; [done|].
    intros a b Hca [Hab Hb] Ha Hbv. apply Ha.
    apply (fi_closed _ _ _ _ _ _ Hinv b a Hbv). split; [by apply adjacent_sym|].
    by apply (sameRegion_unowned W H g0 c a). }
  split.
  - revert d. unfold sameRegion at 1. apply rtc_ind_r; [apply rtc_refl|].
    intros a b Hca [Hab [Hb Hgb]] IH.
    eapply rtc_r; [done|]. split; [done|]. split; [done|].
    destruct (decide (b ∈ fs_visited s)) as [Hbv|Hbv].
    + apply (fi_unowned _ _ _ _ _ _ Hinv b Hbv).
    + by rewrite <- (fi_same _ _ _ _ _ _ Hinv b Hbv).
  - revert d. unfold sameRegion at 1. apply rtc_ind_r; [apply rtc_refl|].
    intros a b Hca [Hab [Hb Hgb]] IH.
    eapply rtc_r; [done|]. split; [done|]. split; [done|].
    rewrite (fi_same _ _ _ _ _ _ Hinv b); [done|].
    apply Hout. eapply rtc_r; [done|]. by split.
Qed.

Lemma FillInv_fillCell s c :
  FillInv W H id g0 terr0 s → onBoard W H c →
  FillInv W H id g0 terr0 (fillCell W H id s c)
  ∧ fs_visited s ⊆ fs_visited (fillCell W H id s c)
  ∧ (unowned W H g0 c → c ∈ fs_visited (fillCell W H id s c)).
Proof.
  intros Hinv Hc. unfold fillCell.
  destruct (bool_decide (gridAt (fs_grid s) c = Some 0)) eqn:Eg; cbn [andb negb].
  2:{ apply bool_decide_eq_false in Eg. split; [done|]. split; [done|].
      intros [_ H0]. destruct (decide (c ∈ fs_visited s)) as [|Hv]; [done|].
      by rewrite (fi_same _ _ _ _ _ _ Hinv c Hv) in Eg. }
  apply bool_decide_eq_true in Eg.
  destruct (bool_decide (c ∈ fs_visited s)) eqn:Ev; cbn [andb negb].
  { apply bool_decide_eq_true in Ev. done. }
  apply bool_decide_eq_false in Ev.
  assert (unowned W H g0 c) as Hc0.
  { split; [done|]. by rewrite <- (fi_same _ _ _ _ _ _ Hinv c Ev). }
  assert (unowned W H (fs_grid s) c) as Hcs by done.
  assert (∀ a b, a ∈ fs_visited s → regionStepTo W H (fs_grid s) a b →
                 b ∈ fs_visited s) as Hclosed.
  { intros a b Ha [Hab [Hb Hgb]].
    destruct (decide (b ∈ fs_visited s)) as [|Hbv]; [done|].
    apply (fi_closed _ _ _ _ _ _ Hinv a b Ha). split; [done|]. split; [done|].
    by rewrite <- (fi_same _ _ _ _ _ _ Hinv b Hbv). }
  pose proof (getConnectedRegion_spec W H (fs_grid s) (fs_visited s) c
                Hcs Ev Hclosed) as Hspec.
  destruct (getConnectedRegion W H (fs_grid s) c (fs_visited s))
    as [region visited]. destruct Hspec as [Hreg Hvis].
  assert (∀ d, d ∈ region ↔ sameRegion W H g0 c d) as Hreg0.
  { intros d. rewrite Hreg. by apply FillInv_region. }
  assert (∀ d, d ∈ visited ↔ sameRegion W H g0 c d ∨ d ∈ fs_visited s) as Hvis0.
  { intros d. rewrite Hvis. by rewrite FillInv_region. }
  assert (∀ d, sameRegion W H g0 c d → d ∉ fs_visited s) as Hout.
  { intros d Hd Hdv. apply Ev.
    assert (sameRegion W H g0 d c) as Hdc by (by apply sameRegion_sym).
    clear Hd. revert Hdv. unfold sameRegion in Hdc.
    induction Hdc as [|a b e Hab _ IH]; [done|].
    intros Ha. apply IH; [done..|]. by apply (fi_closed _ _ _ _ _ _ Hinv a b). }
  assert (regionTouchesBorder W H region = true ↔ regionHasBorderCell W H g0 c) as Htouch.
  { unfold regionTouchesBorder, regionHasBorderCell. rewrite existsb_exists.
    split; intros (d & Hd & Hb); exists d; (split; [|done]).
    - apply Hreg0. by apply list_elem_of_In.
    - apply list_elem_of_In. by apply Hreg0. }
  assert (c ∈ visited) as Hcv by (apply Hvis0; left; apply rtc_refl).
  assert (fs_visited s ⊆ visited) as Hsub by (intros d Hd; apply Hvis0; by right).
  assert (∀ a b, a ∈ visited → regionStepTo W H g0 a b → b ∈ visited) as Hclosed'.
  { intros a b [Ha|Ha]%Hvis0 Hab; apply Hvis0.
    - left. by eapply rtc_r.
    - right. by apply (fi_closed _ _ _ _ _ _ Hinv a b). }
  assert (∀ a, a ∈ visited → unowned W H g0 a) as Hun'.
  { intros a [Ha|Ha]%Hvis0; [by apply (sameRegion_unowned W H g0 c a)|].
    by apply (fi_unowned _ _ _ _ _ _ Hinv a). }
  assert (fs_visited s ⊆ visited ∧ (unowned W H g0 c → c ∈ visited)) as Hrest by done.
  destruct (regionTouchesBorder W H region) eqn:Et; cbn [andb negb].
  - (* the region has a border cell: nothing is written *)
    assert (regionHasBorderCell W H g0 c) as Hb by (by apply Htouch).
    split; [|exact Hrest]. split; simpl; [done|done|..].
    + intros a Ha. apply (fi_same _ _ _ _ _ _ Hinv). intros ?. apply Ha. by apply Hsub.
    + intros a [Ha|Ha]%Hvis0 Hba; [|by apply (fi_border _ _ _ _ _ _ Hinv)].
      rewrite (fi_same _ _ _ _ _ _ Hinv a (Hout a Ha)).
      by apply (sameRegion_unowned W H g0 c a).
    + intros a [Ha|Ha]%Hvis0 Hba; [|by apply (fi_enclosed _ _ _ _ _ _ Hinv)].
      exfalso. apply Hba. by apply (regionHasBorderCell_same W H g0 c a).
    + intros a. rewrite (fi_territory _ _ _ _ _ _ Hinv a), Hvis0. split; [tauto|].
      intros [?|[[Ha|?] Hba]]; [tauto| |tauto].
      exfalso. apply Hba. by apply (regionHasBorderCell_same W H g0 c a).
    + apply (fi_values _ _ _ _ _ _ Hinv).
  - (* the region is enclosed: every cell of it is written *)
    assert (¬ regionHasBorderCell W H g0 c) as Hb.
    { intros ?%Htouch. congruence. }
    destruct (fillRegion_spec id region (mkFillState (fs_grid s) (fs_territory s) visited))
      as (Hg & Ht & Hv).
    cbn [fs_grid fs_territory fs_visited] in Hg, Ht, Hv.
    remember (fillRegion id region (mkFillState (fs_grid s) (fs_territory s) visited))
      as s' eqn:Es'. clear Es'.
    split; [|by rewrite Hv]. split; rewrite ?Hv; [exact Hun'|exact Hclosed'|..].
    + intros a Ha. rewrite Hg, decide_False.
      * apply (fi_same _ _ _ _ _ _ Hinv). intros ?. apply Ha. by apply Hsub.
      * intros ?%Hreg0. apply Ha, Hvis0. by left.
    + intros a [Ha|Ha]%Hvis0 Hba.
      * exfalso. apply Hb. by apply (regionHasBorderCell_same W H g0 c a).
      * rewrite Hg, decide_False; [by apply (fi_border _ _ _ _ _ _ Hinv)|].
        intros ?%Hreg0. by apply (Hout a).
    + intros a [Ha|Ha]%Hvis0 Hba.
      * rewrite Hg, Ht, decide_True by (by apply Hreg0).
        rewrite (fi_same _ _ _ _ _ _ Hinv a (Hout a Ha)).
        destruct (sameRegion_unowned W H g0 c a Hc0 Ha) as [_ ->].
        split; [done|]. left. by apply Hreg0.
      * rewrite Hg, Ht, decide_False.
        -- destruct (fi_enclosed _ _ _ _ _ _ Hinv a Ha Hba). split; [done|by right].
        -- intros ?%Hreg0. by apply (Hout a).
    + intros a. rewrite Ht, (fi_territory _ _ _ _ _ _ Hinv a), Hvis0, Hreg0. split.
      * intros [Ha|[?|[? ?]]]; [|tauto|tauto].
        right. split; [by left|].
        intros ?. apply Hb. by apply (regionHasBorderCell_same W H g0 c a).
      * intros [?|[[?|?] ?]]; tauto.
    + intros a. rewrite Hg. destruct (decide (a ∈ region)) as [Ha|Ha].
      * right. apply Hreg0 in Ha. rewrite (fi_same _ _ _ _ _ _ Hinv a (Hout a Ha)).
        by destruct (sameRegion_unowned W H g0 c a Hc0 Ha) as [_ ->].
      * apply (fi_values _ _ _ _ _ _ Hinv).
Qed.
End Fill.


Section Scan.
Variables (W H : Z) (id : Z) (g0 : list (list Z)) (terr0 : gset Cell).

Lemma FillInv_scan l s :
  FillInv W H id g0 terr0 s → (∀ c, c ∈ l → onBoard W H c) →
  FillInv W H id g0 terr0 (foldl (fillCell W H id) s l)
  ∧ fs_visited s ⊆ fs_visited (foldl (fillCell W H id) s l)
  ∧ (∀ c, c ∈ l → unowned W H g0 c → c ∈ fs_visited (foldl (fillCell W H id) s l)).
Proof.
  revert s. induction l as [|c l IH]; intros s Hinv Hl; simpl.
  - split; [done|]. split; [done|]. by intros c ?%elem_of_nil.
  - destruct (FillInv_fillCell W H id g0 terr0 s c Hinv) as (Hinv1 & Hsub1 & Hc1).
    { apply Hl. by left. }
    destruct (IH _ Hinv1) as (Hinv2 & Hsub2 & Hl2).
    { intros d Hd. apply Hl. by right. }
    split; [done|]. split; [by etrans|].
    intros d [->|Hd]%elem_of_cons Hd0; [|by apply Hl2].
    by apply Hsub2, Hc1.
Qed.

(** The state at the end of the two loops. *)
Lemma floodFillState_inv :
  FillInv W H id g0 terr0 (floodFillState W H id g0 terr0)
  ∧ ∀ c, unowned W H g0 c → c ∈ fs_visited (floodFillState W H id g0 terr0).
Proof.
  destruct (FillInv_scan (scanOrder W H) (mkFillState g0 terr0 ∅)) as (Hinv & _ & Hall).
  - apply FillInv_init.
  - intros c. by rewrite elem_of_scanOrder.
  - split; [done|]. intros c Hc. apply Hall; [|done].
    apply elem_of_scanOrder, Hc.
Qed.
End Scan.

(** A cell that has an owner keeps it, and the territory set only grows. *)
Lemma floodFillTerritory_frame W H id gr terr :
  (∀ c, gridAt gr c ≠ Some 0 →
        gridAt (floodFillTerritory W H id gr terr).1 c = gridAt gr c)
  ∧ terr ⊆ (floodFillTerritory W H id gr terr).2.
Proof.
  destruct (floodFillState_inv W H id gr terr) as [Hinv _].
  unfold floodFillTerritory; simpl. split.
  - intros c Hc. apply (fi_same _ _ _ _ _ _ Hinv). intros Hv.
    by destruct (fi_unowned _ _ _ _ _ _ Hinv c Hv).
  - intros c Hc. apply (fi_territory _ _ _ _ _ _ Hinv). by left.
Qed.

(** The cells that the flood fill adds to the territory are cells of
    enclosed regions. *)
Lemma floodFillTerritory_added W H id gr terr c :
  c ∈ (floodFillTerritory W H id gr terr).2 →
  c ∈ terr ∨ (unowned W H gr c ∧ ¬ regionHasBorderCell W H gr c).
Proof.
  destruct (floodFillState_inv W H id gr terr) as [Hinv _].
  unfold floodFillTerritory; simpl.
  intros [?|[Hv ?]]%(fi_territory _ _ _ _ _ _ Hinv); [by left|right].
  split; [|done]. by apply (fi_unowned _ _ _ _ _ _ Hinv).
Qed.

(** C1. After [floodFillTerritory] has run for the player [id], take any
    4-connected region of unowned cells, given by one of its cells [c]. If
    the region has no border cell of the board, every cell of the region is
    owned by [id] in the grid and is in the player's territory set; if the
    region has a border cell, every cell of it has the owner it had. *)
Theorem floodFillTerritory_regions W H id gr terr c :
  wf_grid W H gr → unowned W H gr c →
  (¬ regionHasBorderCell W H gr c →
   ∀ d, sameRegion W H gr c d →
        gridAt (floodFillTerritory W H id gr terr).1 d = Some id
        ∧ d ∈ (floodFillTerritory W H id gr terr).2)
  ∧ (regionHasBorderCell W H gr c →
     ∀ d, sameRegion W H gr c d →
          gridAt (floodFillTerritory W H id gr terr).1 d = gridAt gr d).
Proof.
  intros _ Hc. destruct (floodFillState_inv W H id gr terr) as [Hinv Hall].
  unfold floodFillTerritory; simpl. split; intros Hb d Hd.
  - assert (unowned W H gr d) as Hd0 by (by apply (sameRegion_unowned W H gr c)).
    apply (fi_enclosed _ _ _ _ _ _ Hinv); [by apply Hall|].
    by rewrite <- (regionHasBorderCell_same W H gr c d).
  - assert (unowned W H gr d) as Hd0 by (by apply (sameRegion_unowned W H gr c)).
    destruct Hd0 as [Hon Hg]. rewrite Hg.
    apply (fi_border _ _ _ _ _ _ Hinv); [by apply Hall|].
    by rewrite <- (regionHasBorderCell_same W H gr c d).
Qed.

Lemma ringBoard_wf : wf_grid 5 5 ringBoard.
Proof. repeat split; try lia; try done. by repeat constructor. Qed.

Lemma ringBoard_centre_enclosed : ¬ regionHasBorderCell 5 5 ringBoard (2, 2).
Proof.
  intros (d & Hd & Hb). unfold sameRegion in Hd.
  inversion Hd as [|a b e [Hadj [_ Hg]]]; subst; [done|].
  destruct Hadj as [-> | [-> | [-> | -> ] ] ]; done.
Qed.

(** The ring's centre is an enclosed region of one cell: the flood fill gives
    it to player 1. *)
Lemma floodFillTerritory_regions_witness :
  gridAt (floodFillTerritory 5 5 1 ringBoard ∅).1 (2, 2) = Some 1
  ∧ (2, 2) ∈ (floodFillTerritory 5 5 1 ringBoard ∅).2.
Proof.
  refine (proj1 (floodFillTerritory_regions 5 5 1 ringBoard ∅ (2, 2) ringBoard_wf _)
                ringBoard_centre_enclosed (2, 2) _).
  - split; [unfold onBoard; simpl; lia|reflexivity].
  - apply rtc_refl.
Defined.



(** ** [isValidMove] *)

Lemma trailHas_elem_of t c : trailHas t c = true ↔ c ∈ t.
Proof.
  unfold trailHas. rewrite existsb_exists. split.
  - intros (pos & Hin & Heq). apply andb_true_iff in Heq as [?%Z.eqb_eq ?%Z.eqb_eq].
    apply list_elem_of_In in Hin. destruct pos, c; simpl in *. by subst.
  - intros Hc. exists c. split; [by apply list_elem_of_In|].
    by rewrite !Z.eqb_refl.
Qed.

Lemma wf_grid_gridAt W H gr c :
  wf_grid W H gr → onBoard W H c → is_Some (gridAt gr c).
Proof.
  intros (HW & HH & Hlen & Hrows) [Hx Hy]. unfold gridAt.
  destruct c as [x y]; simpl in *.
  replace ((0 <=? x) && (0 <=? y)) with true by (symmetry; apply andb_true_iff; lia).
  destruct (lookup_lt_is_Some_2 gr (Z.to_nat y)) as [row Hrow]; [lia|].
  rewrite Hrow; simpl. apply lookup_lt_is_Some_2.
  rewrite (Forall_lookup_1 _ _ _ _ Hrows Hrow). lia.
Qed.


(** C2. [isValidMove(player, x, y)] is false exactly when the cell is off the
    board, or its owner is not 0 and not the player's id, or it is in the
    player's own trail, or it is in the trail of a player with another id
    whose [alive] flag is true. The function returns the Boolean and nothing
    else, and its value is determined by the board state (the dimensions,
    the grid and the id, [alive] flag and trail of every player) together
    with the id and trail of [player]. *)
Theorem isValidMove_false_iff g player c :
  wf_grid (mapWidth g) (mapHeight g) (grid g) →
  (isValidMove g player c = false ↔
     ¬ onBoard (mapWidth g) (mapHeight g) c
     ∨ (∃ owner, gridAt (grid g) c = Some owner ∧ owner ≠ 0 ∧ owner ≠ pid player)
     ∨ c ∈ trail player
     ∨ (∃ other, other ∈ players g ∧ pid other ≠ pid player ∧ alive other = true
                 ∧ c ∈ trail other))
  ∧ (∀ g' player',
       boardState g' = boardState g → pid player' = pid player →
       trail player' = trail player →
       isValidMove g' player' c = isValidMove g player c).
Proof.
  intros Hwf. split.
  - unfold isValidMove.
    destruct ((c.1 <? 0) || (mapWidth g <=? c.1) || (c.2 <? 0) || (mapHeight g <=? c.2))
      eqn:Eb.
    { split; [intros _|done]. left. intros [? ?].
      rewrite !orb_true_iff in Eb. lia. }
    assert (onBoard (mapWidth g) (mapHeight g) c) as Hon.
    { unfold onBoard. rewrite !orb_false_iff in Eb. lia. }
    destruct (wf_grid_gridAt _ _ _ c Hwf Hon) as [o Ho]. rewrite Ho.
    destruct (negb (o =? 0) && negb (o =? pid player)) eqn:Eo.
    { split; [intros _|done]. right; left. exists o.
      apply andb_true_iff in Eo as [?%negb_true_iff%Z.eqb_neq ?%negb_true_iff%Z.eqb_neq].
      done. }
    assert (¬ (o ≠ 0 ∧ o ≠ pid player)) as Hno.
    { intros [?%Z.eqb_neq ?%Z.eqb_neq]. rewrite andb_false_iff, !negb_false_iff in Eo.
      destruct Eo; congruence. }
    destruct (trailHas (trail player) c) eqn:Et.
    { split; [intros _|done]. right; right; left. by apply trailHas_elem_of. }
    assert (c ∉ trail player) as Hnt.
    { intros ?%trailHas_elem_of. congruence. }
    rewrite negb_false_iff, existsb_exists. split.
    + intros (q & Hq & Hc). do 3 right. exists q.
      apply andb_true_iff in Hc as [Hc Ht]. apply andb_true_iff in Hc as [Hid Hal].
      apply negb_true_iff, Z.eqb_neq in Hid. apply trailHas_elem_of in Ht.
      by apply list_elem_of_In in Hq.
    + intros [?|[(o' & Ho' & ? & ?)|[?|(q & Hq & Hid & Hal & Ht)]]]; [done| |done|].
      { exfalso. apply Hno. by simplify_eq. }
      exists q. split; [by apply list_elem_of_In|].
      rewrite Hal, andb_true_r. apply andb_true_iff. split.
      * by apply negb_true_iff, Z.eqb_neq.
      * by apply trailHas_elem_of.
  - intros g' player' Hb Hid Ht. unfold boardState in Hb.
    injection Hb as HW HH Hg Hp. unfold isValidMove.
    rewrite HW, HH, Hg, Hid, Ht.
    assert (∀ f : Player → bool,
              (∀ p p', (pid p, alive p, trail p) = (pid p', alive p', trail p') → f p = f p') →
              existsb f (players g') = existsb f (players g)) as Hext.
    { intros f Hf. revert Hp. generalize (players g) (players g'). clear -Hf.
      induction l as [|p l IH]; intros [|p' l'] Heq; try done.
      simpl in Heq. injection Heq as Hi Ha Ht Hl. simpl.
      rewrite (IH l') by done. f_equal. apply Hf. by rewrite Hi, Ha, Ht. }
    rewrite Hext; [done|]. intros p p' Heq. injection Heq as -> -> ->. done.
Qed.



(** ** [eliminatePlayer] *)

Lemma eliminatePlayerFuel_S fuel g i :
  eliminatePlayerFuel (S fuel) g i
  = Some (updPlayer i (λ p, setTrail [] (setAlive false p)) g).
Proof.
  simpl. generalize (seq 0 (length (players g))). intros l.
  induction l as [|j l IH] using rev_ind; [done|].
  rewrite foldl_snoc, IH. simpl. rewrite list_lookup_alter_eq.
  destruct (players g !! i) as [p|]; simpl; [|done].
  destruct (alter _ i (players g) !! j) as [q|]; [|done].
  by destruct (negb (pid q =? pid p) && alive q).
Qed.

Lemma eliminatePlayer_eq g i :
  eliminatePlayer g i = updPlayer i (λ p, setTrail [] (setAlive false p)) g.
Proof. unfold eliminatePlayer. by rewrite eliminatePlayerFuel_S. Qed.

(** C6. [eliminatePlayer(p)] sets [alive] to false and the trail to the empty
    list and leaves the position of [p]; the loops that follow never call
    [eliminatePlayer] again (a depth of one call is enough), so every other
    player is exactly as before, and so is the grid. *)
Theorem eliminatePlayer_effect g i :
  (∀ fuel, eliminatePlayerFuel (S fuel) g i = Some (eliminatePlayer g i))
  ∧ (∀ p, players g !! i = Some p →
          ∃ p', players (eliminatePlayer g i) !! i = Some p'
                ∧ alive p' = false ∧ trail p' = []
                ∧ px p' = px p ∧ py p' = py p ∧ pid p' = pid p
                ∧ territory p' = territory p ∧ direction p' = direction p)
  ∧ (∀ j, j ≠ i → players (eliminatePlayer g i) !! j = players g !! j)
  ∧ grid (eliminatePlayer g i) = grid g
  ∧ gameRunning (eliminatePlayer g i) = gameRunning g.
Proof.
  rewrite eliminatePlayer_eq. split; [|split; [|split]].
  - intros fuel. apply eliminatePlayerFuel_S.
  - intros p Hp. exists (setTrail [] (setAlive false p)). split; [|done].
    simpl. by rewrite list_lookup_alter_eq, Hp.
  - intros j Hj. simpl. by rewrite list_lookup_alter_ne.
  - done.
Qed.

(** ** [claimTerritory] and [movePlayer] *)

Lemma paintTrail_spec id t gr terr :
  (∀ d, gridAt (paintTrail id t gr terr).1 d =
        if decide (d ∈ t) then (λ _, id) <$> gridAt gr d else gridAt gr d)
  ∧ (∀ d, d ∈ (paintTrail id t gr terr).2 ↔ d ∈ t ∨ d ∈ terr).
Proof.
  unfold paintTrail. revert gr terr. induction t as [|pos t IH]; intros gr terr; simpl.
  - split; [|intros d; rewrite elem_of_nil; tauto].
    intros d. destruct (decide (d ∈ [])) as [Hd|Hd]; [by apply elem_of_nil in Hd|done].
  - destruct (IH (setCell gr pos id) ({[pos]} ∪ terr)) as (Hg & Ht). split.
    + intros d. rewrite Hg, gridAt_setCell.
      repeat case_decide; subst; try done;
        try (by destruct (gridAt gr d));
        exfalso; repeat match goal with
                   | Hx : _ ∈ _ :: _ |- _ => apply elem_of_cons in Hx
                   | Hx : ¬ (_ ∈ _ :: _) |- _ => rewrite elem_of_cons in Hx
                   end; intuition congruence.
    + intros d. rewrite Ht, elem_of_union, elem_of_singleton, elem_of_cons. tauto.
Qed.

(** A cell that the player owns is still the player's after the fill. *)
Lemma floodFillTerritory_keeps_id W H id gr terr c :
  gridAt gr c = Some id → gridAt (floodFillTerritory W H id gr terr).1 c = Some id.
Proof.
  intros Hc. destruct (floodFillState_inv W H id gr terr) as [Hinv _].
  unfold floodFillTerritory; simpl.
  destruct (fi_values _ _ _ _ _ _ Hinv c) as [->| ->]; done.
Qed.



Arguments floodFillTerritory : simpl never.
Arguments paintTrail : simpl never.

Lemma claimTerritory_eq g i player :
  players g !! i = Some player → trail player ≠ [] →
  claimTerritory g i
  = updPlayer i (λ p, setTrail [] (setTerritory (claimedBoard g player (trail player)).2 p))
              (setGrid (claimedBoard g player (trail player)).1 g).
Proof.
  intros Hp Ht. unfold claimTerritory, claimedBoard. rewrite Hp.
  destruct (trail player) as [|c0 t'] eqn:Et; [done|]. simpl length. simpl Nat.eqb.
  cbv iota.
  destruct (paintTrail (pid player) (c0 :: t') (grid g) (territory player)) as [gr1 terr1].
  simpl. by destruct (floodFillTerritory (mapWidth g) (mapHeight g) (pid player) gr1 terr1).
Qed.

(** ** The board after a claim *)

(** The regions are those of the cells of the board: two grids that agree on
    the board have the same regions. *)
Lemma unowned_ext W H a b c :
  (∀ e, onBoard W H e → gridAt a e = gridAt b e) → unowned W H a c → unowned W H b c.
Proof. intros Hab [Hon Hc]. split; [done|]. by rewrite <- Hab. Qed.

Lemma sameRegion_ext W H a b c d :
  (∀ e, onBoard W H e → gridAt a e = gridAt b e) →
  sameRegion W H a c d → sameRegion W H b c d.
Proof.
  intros Hab. unfold sameRegion. induction 1 as [c|c e d [Hadj He] _ IH]; [apply rtc_refl|].
  eapply rtc_l; [|exact IH]. split; [done|]. by apply (unowned_ext W H a b).
Qed.

Lemma regionHasBorderCell_ext W H a b c :
  (∀ e, onBoard W H e → gridAt a e = gridAt b e) →
  regionHasBorderCell W H a c → regionHasBorderCell W H b c.
Proof.
  intros Hab (d & Hd & Hb). exists d. split; [|done]. by apply (sameRegion_ext W H a b).
Qed.

(** The first loop of [claimTerritory] paints the trail. *)
Lemma paintTrail_paintedWith W H id t gr terr :
  wf_grid W H gr → paintedWith W H id t gr (paintTrail id t gr terr).1.
Proof.
  intros Hwf d Hd. destruct (paintTrail_spec id t gr terr) as [Hg _]. rewrite Hg.
  destruct (wf_grid_gridAt _ _ _ d Hwf Hd) as [o ->]. by case_decide.
Qed.

(** What the two loops of [claimTerritory] leave, told from the grid
    [painted] that has the trail painted: the unowned regions of [painted]
    that have no border cell are the player's, in the grid and in the set;
    every other cell of the board is as in [painted]; and the set has gained
    the trail and the enclosed cells, and nothing else. *)
Lemma claimedBoard_fill g player t painted :
  wf_grid (mapWidth g) (mapHeight g) (grid g) →
  paintedWith (mapWidth g) (mapHeight g) (pid player) t (grid g) painted →
  (∀ c, unowned (mapWidth g) (mapHeight g) painted c →
        ¬ regionHasBorderCell (mapWidth g) (mapHeight g) painted c →
        gridAt (claimedBoard g player t).1 c = Some (pid player)
        ∧ c ∈ (claimedBoard g player t).2)
  ∧ (∀ c, unowned (mapWidth g) (mapHeight g) painted c →
          regionHasBorderCell (mapWidth g) (mapHeight g) painted c →
          gridAt (claimedBoard g player t).1 c = Some 0)
  ∧ (∀ c, onBoard (mapWidth g) (mapHeight g) c →
          ¬ unowned (mapWidth g) (mapHeight g) painted c →
          gridAt (claimedBoard g player t).1 c = gridAt painted c)
  ∧ (∀ c, c ∈ (claimedBoard g player t).2
          ↔ c ∈ territory player ∨ c ∈ t
            ∨ (unowned (mapWidth g) (mapHeight g) painted c
               ∧ ¬ regionHasBorderCell (mapWidth g) (mapHeight g) painted c)).
Proof.
  intros Hwf Hpaint. unfold claimedBoard. cbv zeta.
  destruct (paintTrail_spec (pid player) t (grid g) (territory player)) as [Hg1 Ht1].
  destruct (paintTrail (pid player) t (grid g) (territory player)) as [gr1 terr1].
  cbn [fst snd] in *.
  set (W := mapWidth g) in *. set (H := mapHeight g) in *.
  assert (∀ e, onBoard W H e → gridAt painted e = gridAt gr1 e) as Hab.
  { intros e He. rewrite (Hpaint e He), Hg1.
    destruct (wf_grid_gridAt _ _ _ e Hwf He) as [o ->]. by case_decide. }
  assert (∀ e, onBoard W H e → gridAt gr1 e = gridAt painted e) as Hba.
  { intros e He. symmetry. by apply Hab. }
  destruct (floodFillState_inv W H (pid player) gr1 terr1) as [Hinv Hall].
  unfold floodFillTerritory. cbn [fst snd].
  split; [|split; [|split]].
  - intros c Hc Hnb. apply (fi_enclosed _ _ _ _ _ _ Hinv).
    + apply Hall. by apply (unowned_ext W H painted gr1).
    + intros Hb. apply Hnb. by apply (regionHasBorderCell_ext W H gr1 painted).
  - intros c Hc Hb. apply (fi_border _ _ _ _ _ _ Hinv).
    + apply Hall. by apply (unowned_ext W H painted gr1).
    + by apply (regionHasBorderCell_ext W H painted gr1).
  - intros c Hon Hno. rewrite (Hab c Hon). apply (fi_same _ _ _ _ _ _ Hinv).
    intros Hv. apply Hno. apply (unowned_ext W H gr1 painted); [done|].
    by apply (fi_unowned _ _ _ _ _ _ Hinv).
  - intros c. rewrite (fi_territory _ _ _ _ _ _ Hinv c), Ht1. split.
    + intros [[?|?]|[Hv Hnb]]; [by right; left|by left|]. right; right. split.
      * apply (unowned_ext W H gr1 painted); [done|].
        by apply (fi_unowned _ _ _ _ _ _ Hinv).
      * intros Hb. apply Hnb. by apply (regionHasBorderCell_ext W H painted gr1).
    + intros [?|[?|[Hc Hnb]]]; [by left; right|by left; left|]. right. split.
      * apply Hall. by apply (unowned_ext W H painted gr1).
      * intros Hb. apply Hnb. by apply (regionHasBorderCell_ext W H gr1 painted).
Qed.

(** C3. A valid step of the player at index [i] onto a cell of its territory,
    with a trail that is not empty at that moment, claims: the new grid and
    territory set are those of the flood fill run on the grid with the trail
    painted; every cell of the trail is owned by the player in the grid and
    is in its territory set; the trail is the empty list; and the flood fill
    has run over the whole board: with [painted] the grid that has the trail
    painted, every unowned cell whose region in [painted] has no border cell
    is now owned by the player and in its territory set, every unowned cell
    whose region has a border cell is still unowned, every other cell of the
    board has its owner of [painted], and the territory set is the old one
    with the cells of the trail and the cells of the enclosed regions. *)
Theorem movePlayer_claim g i player :
  let target := (px player + (direction player).1, py player + (direction player).2) in
  let t := trailAfterStep player in
  players g !! i = Some player →
  isValidMove g player target = true →
  target ∈ territory player →
  t ≠ [] →
  wf_grid (mapWidth g) (mapHeight g) (grid g) →
  (∀ c, c ∈ t → onBoard (mapWidth g) (mapHeight g) c) →
  ∃ player',
    players (movePlayer g i) !! i = Some player'
    ∧ grid (movePlayer g i) = (claimedBoard g player t).1
    ∧ territory player' = (claimedBoard g player t).2
    ∧ (∀ c, c ∈ t → gridAt (grid (movePlayer g i)) c = Some (pid player)
                    ∧ c ∈ territory player')
    ∧ trail player' = []
    ∧ (px player', py player') = target
    ∧ (∀ painted,
         paintedWith (mapWidth g) (mapHeight g) (pid player) t (grid g) painted →
         (∀ c, unowned (mapWidth g) (mapHeight g) painted c →
               ¬ regionHasBorderCell (mapWidth g) (mapHeight g) painted c →
               gridAt (grid (movePlayer g i)) c = Some (pid player)
               ∧ c ∈ territory player')
         ∧ (∀ c, unowned (mapWidth g) (mapHeight g) painted c →
                 regionHasBorderCell (mapWidth g) (mapHeight g) painted c →
                 gridAt (grid (movePlayer g i)) c = Some 0)
         ∧ (∀ c, onBoard (mapWidth g) (mapHeight g) c →
                 ¬ unowned (mapWidth g) (mapHeight g) painted c →
                 gridAt (grid (movePlayer g i)) c = gridAt painted c)
         ∧ (∀ c, c ∈ territory player'
                 ↔ c ∈ territory player ∨ c ∈ t
                   ∨ (unowned (mapWidth g) (mapHeight g) painted c
                      ∧ ¬ regionHasBorderCell (mapWidth g) (mapHeight g) painted c))).
Proof.
  intros target t Hp Hvalid Hterr Ht Hwf Hboard.
  pose proof (claimedBoard_fill g player t) as Hfill.
  unfold movePlayer. rewrite Hp. fold target. rewrite Hvalid. cbn [negb].
  fold (trailAfterStep player). fold t.
  rewrite (bool_decide_eq_true_2 _ Hterr).
  replace (0 <? length t)%nat with true
    by (symmetry; apply Nat.ltb_lt; destruct t; [done|simpl; lia]).
  cbn [andb].
  set (player1 := setPosition target.1 target.2 (setTrail t player)).
  set (g1 := updPlayer i _ g).
  assert (players g1 !! i = Some player1) as Hp1.
  { unfold g1. simpl. by rewrite list_lookup_alter_eq, Hp. }
  rewrite (claimTerritory_eq g1 i player1 Hp1 Ht).
  change (claimedBoard g1 player1 (trail player1)) with (claimedBoard g player t).
  eexists. split.
  { simpl. by rewrite list_lookup_alter_eq, list_lookup_alter_eq, Hp. }
  cbn [grid setGrid updPlayer setPlayers territory setTrail setTerritory trail px py
       setPosition fst snd].
  do 2 (split; [done|]). split; [|split; [done|split; [done|]]].
  - intros c Hc. unfold claimedBoard.
    destruct (paintTrail_spec (pid player) t (grid g) (territory player)) as [Hg1 Ht1].
    destruct (paintTrail (pid player) t (grid g) (territory player)) as [gr1 terr1].
    simpl in *. split.
    + apply floodFillTerritory_keeps_id. rewrite Hg1, decide_True by done.
      destruct (wf_grid_gridAt _ _ _ c Hwf (Hboard c Hc)) as [o ->]. done.
    + apply floodFillTerritory_frame, Ht1. by left.
  - intros painted Hpaint. exact (Hfill painted Hwf Hpaint).
Qed.


(** ** The game after a key press *)

(** The listener raises its exception before it writes, so the game after the
    event is given by the cases of the listener, with the game as it was
    where [this.players[0]] is [undefined]. *)
Lemma keydown_eq key g :
  keydown key g
  = if negb (gameRunning g) then g
    else match players g !! 0%nat with
         | None => g
         | Some player =>
             if negb (alive player) then g
             else
               let d := direction player in
               let newDirection :=
                 match key with
                 | ArrowUp => if negb (d.2 =? 1) then (0, -1) else d
                 | ArrowDown => if negb (d.2 =? -1) then (0, 1) else d
                 | ArrowLeft => if negb (d.1 =? 1) then (-1, 0) else d
                 | ArrowRight => if negb (d.1 =? -1) then (1, 0) else d
                 | OtherKey => d
                 end in
               updPlayer 0 (setDirection newDirection) g
         end.
Proof.
  unfold keydown, keydownListener. destruct (negb (gameRunning g)); [done|].
  destruct (players g !! 0%nat) as [player|]; [|done]. by destruct (negb (alive player)).
Qed.


(** ** What one player's turn changes *)

Lemma grows_refl p : grows p p.
Proof. by repeat split. Qed.

Lemma grows_trans p1 p2 p3 : grows p1 p2 → grows p2 p3 → grows p1 p3.
Proof.
  intros (Hid & Hh & Hsub) (Hid' & Hh' & Hsub').
  split; [congruence|]. split; [congruence|]. by etrans.
Qed.

Lemma TurnOf_refl k g : TurnOf k g g.
Proof. split; try done. intros p Hp. exists p. split; [done|apply grows_refl]. Qed.

Lemma TurnOf_trans k g1 g2 g3 : TurnOf k g1 g2 → TurnOf k g2 g3 → TurnOf k g1 g3.
Proof.
  intros [] []. split; try congruence.
  - intros j Hj. rewrite to_others1, to_others0; done.
  - auto.
  - intros p Hp. destruct (to_player0 p Hp) as (p' & Hp' & Hg).
    destruct (to_player1 p' Hp') as (p'' & Hp'' & Hg').
    exists p''. split; [done|]. by apply (grows_trans p p' p'').
Qed.

Lemma TurnOf_updPlayer k f g :
  (∀ p, grows p (f p)) → TurnOf k g (updPlayer k f g).
Proof.
  intros Hf. split; simpl; try done.
  - intros j Hj. by rewrite list_lookup_alter_ne.
  - intros Hn. by rewrite list_lookup_alter_eq, Hn.
  - intros p Hp. exists (f p). by rewrite list_lookup_alter_eq, Hp.
Qed.

Lemma TurnOf_eliminatePlayer k g : TurnOf k g (eliminatePlayer g k).
Proof. rewrite eliminatePlayer_eq. by apply TurnOf_updPlayer. Qed.

Lemma claimedBoard_territory g player t :
  territory player ⊆ (claimedBoard g player t).2.
Proof.
  unfold claimedBoard. intros c Hc.
  apply floodFillTerritory_frame, paintTrail_spec. by right.
Qed.

(** The three ways in which [movePlayer] ends. *)
Lemma movePlayer_cases g i player :
  players g !! i = Some player →
  let target := (px player + (direction player).1, py player + (direction player).2) in
  let t := trailAfterStep player in
  (isValidMove g player target = false ∧ movePlayer g i = eliminatePlayer g i)
  ∨ (isValidMove g player target = true
     ∧ movePlayer g i = updPlayer i (λ p, setPosition target.1 target.2 (setTrail t p)) g)
  ∨ (isValidMove g player target = true ∧ target ∈ territory player ∧ t ≠ []
     ∧ movePlayer g i
       = updPlayer i (λ p, setTrail [] (setTerritory (claimedBoard g player t).2
                              (setPosition target.1 target.2 (setTrail t p))))
                   (setGrid (claimedBoard g player t).1 g)).
Proof.
  intros Hp target t. unfold movePlayer. rewrite Hp. fold target.
  destruct (isValidMove g player target) eqn:Ev; cbn [negb]; [|by left].
  right. fold (trailAfterStep player). fold t.
  destruct (bool_decide (target ∈ territory player)) eqn:Et; cbn [andb]; [|by left].
  apply bool_decide_eq_true in Et.
  destruct (0 <? length t)%nat eqn:El; [|by left].
  right. apply Nat.ltb_lt in El.
  assert (t ≠ []) as Hne by (intros Hnil; rewrite Hnil in El; simpl in El; lia).
  do 3 (split; [done|]).
  set (player1 := setPosition target.1 target.2 (setTrail t player)).
  set (g1 := updPlayer i _ g).
  assert (players g1 !! i = Some player1) as Hp1.
  { unfold g1. simpl. by rewrite list_lookup_alter_eq, Hp. }
  rewrite (claimTerritory_eq g1 i player1 Hp1 Hne).
  change (claimedBoard g1 player1 (trail player1)) with (claimedBoard g player t).
  unfold g1, updPlayer, setGrid, setPlayers; simpl. f_equal.
  apply list_eq. intros j. destruct (decide (j = i)) as [->|Hj].
  - by rewrite !list_lookup_alter_eq, Hp.
  - by rewrite !list_lookup_alter_ne.
Qed.

Lemma TurnOf_movePlayer k g : TurnOf k g (movePlayer g k).
Proof.
  destruct (players g !! k) as [player|] eqn:Hp.
  2:{ unfold movePlayer. rewrite Hp. apply TurnOf_refl. }
  destruct (movePlayer_cases g k player Hp) as [[_ ->]|[[_ ->]|(_ & _ & _ & ->)]].
  - apply TurnOf_eliminatePlayer.
  - by apply TurnOf_updPlayer.
  - split; simpl; try done.
    + intros j Hj. by rewrite list_lookup_alter_ne.
    + intros Hn. by rewrite list_lookup_alter_eq, Hn.
    + intros p Hp'. rewrite list_lookup_alter_eq, Hp'. eexists. split; [done|].
      split; [done|]. split; [done|]. simpl. assert (p = player) as -> by congruence.
      apply claimedBoard_territory.
Qed.

Lemma TurnOf_pickDirection k r arr g : TurnOf k g (pickDirection r arr k g).
Proof.
  unfold pickDirection. destruct (floorNth _ arr); [|apply TurnOf_refl].
  by apply TurnOf_updPlayer.
Qed.

Lemma TurnOf_updateAI random n k g : TurnOf k g (updateAI random n g k).1.
Proof.
  unfold updateAI. destruct (players g !! k) as [player|]; [|apply TurnOf_refl].
  repeat match goal with
         | |- context [if ?b then _ else _] => destruct b
         end; simpl; try apply TurnOf_refl; apply TurnOf_pickDirection.
Qed.

Lemma TurnOf_updatePlayer random currentTime k g n :
  TurnOf k g (updatePlayer random currentTime (g, n) k).1.
Proof.
  unfold updatePlayer. destruct (players g !! k) as [player|] eqn:Hp; [|apply TurnOf_refl].
  destruct (negb (alive player)); [apply TurnOf_refl|].
  destruct (PrimFloat.leb _ _); [|apply TurnOf_refl].
  assert (TurnOf k g (if negb (isHuman player) then updateAI random n g k else (g, n)).1)
    as Hai.
  { destruct (negb (isHuman player)); [apply TurnOf_updateAI|apply TurnOf_refl]. }
  destruct (if negb (isHuman player) then updateAI random n g k else (g, n)) as [g1 n1].
  simpl in Hai. destruct (players g1 !! k) as [player1|]; [|done].
  destruct (negb ((direction player1).1 =? 0) || negb ((direction player1).2 =? 0));
    [|done]. simpl.
  eapply TurnOf_trans; [done|]. eapply TurnOf_trans; [apply TurnOf_movePlayer|].
  by apply TurnOf_updPlayer.
Qed.

(** ** Owners in the grid *)

Lemma repaintedBy_refl player gr : repaintedBy player gr gr.
Proof. intros c o Hc Ho. by left. Qed.

Lemma elem_of_trailAfterStep player c :
  c ∈ trailAfterStep player → c ∈ trail player ∨ c = (px player, py player).
Proof.
  unfold trailAfterStep. destruct (negb _); [|by left].
  intros [?|?%list_elem_of_singleton]%elem_of_app; [by left|by right].
Qed.

Lemma claimedBoard_repaintedBy g player :
  pid player ≠ 0 →
  repaintedBy player (grid g) (claimedBoard g player (trailAfterStep player)).1.
Proof.
  intros Hid c o Hc Ho. unfold claimedBoard.
  destruct (paintTrail_spec (pid player) (trailAfterStep player) (grid g)
              (territory player)) as [Hg _].
  destruct (paintTrail _ _ _ _) as [gr1 terr1]; simpl in *.
  destruct (floodFillTerritory_frame (mapWidth g) (mapHeight g) (pid player) gr1 terr1)
    as [Hframe _].
  specialize (Hg c). rewrite Hc in Hg. simpl in Hg.
  destruct (decide (c ∈ trailAfterStep player)) as [Hin|Hin].
  - right. split; [|by apply elem_of_trailAfterStep].
    rewrite Hframe; [done|]. rewrite Hg. congruence.
  - left. rewrite Hframe; [done|]. rewrite Hg. congruence.
Qed.

Lemma movePlayer_repaintedBy g k player :
  players g !! k = Some player → pid player ≠ 0 →
  repaintedBy player (grid g) (grid (movePlayer g k)).
Proof.
  intros Hp Hid.
  destruct (movePlayer_cases g k player Hp) as [[_ ->]|[[_ ->]|(_ & _ & _ & ->)]].
  - rewrite eliminatePlayer_eq. apply repaintedBy_refl.
  - apply repaintedBy_refl.
  - simpl. by apply claimedBoard_repaintedBy.
Qed.

Lemma pickDirection_grid r arr k g : grid (pickDirection r arr k g) = grid g.
Proof. unfold pickDirection. by destruct (floorNth _ arr). Qed.

(** [updateAI] only sets the direction of the player. *)
Lemma updateAI_player random n k g player :
  players g !! k = Some player →
  grid (updateAI random n g k).1 = grid g
  ∧ ∃ d, players (updateAI random n g k).1 !! k = Some (setDirection d player).
Proof.
  intros Hp.
  assert (∀ r arr, grid (pickDirection r arr k g) = grid g
            ∧ ∃ d, players (pickDirection r arr k g) !! k = Some (setDirection d player))
    as Hpick.
  { intros r arr. unfold pickDirection. destruct (floorNth _ arr) as [d|]; simpl.
    - split; [done|]. exists d. by rewrite list_lookup_alter_eq, Hp.
    - split; [done|]. exists (direction player). rewrite Hp. by destruct player. }
  assert (grid g = grid g ∧ ∃ d, players g !! k = Some (setDirection d player)) as Hsame.
  { split; [done|]. exists (direction player). rewrite Hp. by destruct player. }
  unfold updateAI. rewrite Hp.
  repeat match goal with
         | |- context [if ?b then _ else _] => destruct b
         end; simpl; try apply Hsame; apply Hpick.
Qed.

Lemma updatePlayer_repaintedBy random currentTime k g n player :
  players g !! k = Some player → pid player ≠ 0 →
  repaintedBy player (grid g) (grid (updatePlayer random currentTime (g, n) k).1).
Proof.
  intros Hp Hid. unfold updatePlayer. rewrite Hp.
  destruct (negb (alive player)); [apply repaintedBy_refl|].
  destruct (PrimFloat.leb _ _); [|apply repaintedBy_refl].
  assert (grid (if negb (isHuman player) then updateAI random n g k else (g, n)).1 = grid g
          ∧ ∃ d, players (if negb (isHuman player) then updateAI random n g k
                         else (g, n)).1 !! k = Some (setDirection d player)) as Hai.
  { destruct (negb (isHuman player)); [by apply updateAI_player|].
    split; [done|]. exists (direction player). simpl. rewrite Hp. by destruct player. }
  destruct (if negb (isHuman player) then updateAI random n g k else (g, n)) as [g1 n1].
  simpl in Hai. destruct Hai as [Hg (d & Hp1)]. rewrite Hp1.
  destruct (negb ((direction (setDirection d player)).1 =? 0)
            || negb ((direction (setDirection d player)).2 =? 0)); simpl.
  - rewrite <- Hg. by apply (movePlayer_repaintedBy g1 k (setDirection d player)).
  - rewrite Hg. apply repaintedBy_refl.
Qed.

(** ** A whole frame *)




Section Turns.
Variables (random : nat → float) (currentTime : float).

Lemma updatePlayer_none k g n :
  players g !! k = None → updatePlayer random currentTime (g, n) k = (g, n).
Proof. intros Hn. unfold updatePlayer. by rewrite Hn. Qed.

Lemma updatePlayers_turns l st :
  NoDup l →
  let st' := foldl (updatePlayer random currentTime) st l in
  gameRunning st'.1 = gameRunning st.1
  ∧ (∀ j, j ∉ l → players st'.1 !! j = players st.1 !! j)
  ∧ (∀ j, players st.1 !! j = None → players st'.1 !! j = None)
  ∧ (∀ j p, players st.1 !! j = Some p →
            ∃ p', players st'.1 !! j = Some p' ∧ grows p p')
  ∧ (idsNonzero st.1 →
     ∀ c owner, gridAt (grid st.1) c = Some owner → owner ≠ 0 →
       gridAt (grid st'.1) c = Some owner
       ∨ ∃ j p, j ∈ l ∧ players st.1 !! j = Some p
                ∧ gridAt (grid st'.1) c = Some (pid p)
                ∧ (c ∈ trail p ∨ c = (px p, py p))).
Proof.
  revert st. induction l as [|k l IH]; intros [g n] Hnd; cbn [foldl fst].
  { split; [done|]. split; [done|]. split; [done|]. split.
    - intros j p Hp. exists p. split; [done|apply grows_refl].
    - intros _ c o Hc Ho. by left. }
  apply NoDup_cons in Hnd as [Hk Hnd].
  pose proof (TurnOf_updatePlayer random currentTime k g n) as Hturn.
  pose proof (updatePlayer_repaintedBy random currentTime k g n) as Hgrid.
  destruct (updatePlayer random currentTime (g, n) k) as [g1 n1] eqn:E1.
  cbn [fst] in Hturn, Hgrid.
  destruct (IH (g1, n1) Hnd) as (Hrun & Hout & Hnone & Hgrow & Hown).
  cbn [fst] in Hrun, Hout, Hnone, Hgrow, Hown.
  assert (∀ j p, players g !! j = Some p →
                 ∃ p1, players g1 !! j = Some p1 ∧ grows p p1) as Hstep.
  { intros j p Hp. destruct (decide (j = k)) as [->|Hj].
    - apply (to_player _ _ _ Hturn p Hp).
    - exists p. rewrite (to_others _ _ _ Hturn j Hj). split; [done|apply grows_refl]. }
  split; [by rewrite Hrun, (to_running _ _ _ Hturn)|]. split; [|split; [|split]].
  - intros j Hj. apply not_elem_of_cons in Hj as [Hjk Hj].
    by rewrite Hout, (to_others _ _ _ Hturn).
  - intros j Hj. apply Hnone. destruct (decide (j = k)) as [->|Hjk].
    + by apply (to_none _ _ _ Hturn).
    + by rewrite (to_others _ _ _ Hturn).
  - intros j p Hp. destruct (Hstep j p Hp) as (p1 & Hp1 & Hg1).
    destruct (Hgrow j p1 Hp1) as (p' & Hp' & Hg').
    exists p'. split; [done|]. by apply (grows_trans p p1 p').
  - intros Hids c o Hc Ho.
    assert (idsNonzero g1) as Hids1.
    { intros p1 (j & Hp1)%list_elem_of_lookup.
      destruct (players g !! j) as [p|] eqn:Hp.
      - destruct (Hstep j p Hp) as (p1' & Hp1' & Hid & _).
        assert (p1' = p1) as -> by congruence. rewrite Hid.
        apply Hids. by apply list_elem_of_lookup_2 in Hp.
      - destruct (decide (j = k)) as [->|Hjk].
        + by rewrite (to_none _ _ _ Hturn Hp) in Hp1.
        + rewrite (to_others _ _ _ Hturn j Hjk) in Hp1. congruence. }
    assert (∀ o1, gridAt (grid g1) c = Some o1 → o1 ≠ 0 →
              gridAt (grid (foldl (updatePlayer random currentTime) (g1, n1) l).1) c
              = Some o1
              ∨ ∃ j p, j ∈ k :: l ∧ players g !! j = Some p
                 ∧ gridAt (grid (foldl (updatePlayer random currentTime) (g1, n1) l).1) c
                   = Some (pid p)
                 ∧ (c ∈ trail p ∨ c = (px p, py p))) as Hlater.
    { intros o1 Hc1 Ho1. destruct (Hown Hids1 c o1 Hc1 Ho1) as [?|(j & p & Hj & Hp & ?)];
        [by left|right].
      exists j, p. split; [by right|]. split; [|done].
      rewrite <- (to_others _ _ _ Hturn j); [done|]. by intros ->. }
    destruct (players g !! k) as [pk|] eqn:Hpk.
    + destruct (Hgrid pk eq_refl) with (c := c) (owner := o) as [Hkept|[Hnew Hin]];
        [apply Hids; by apply list_elem_of_lookup_2 in Hpk|done|done|by apply Hlater|].
      assert (pid pk ≠ 0) as Hidk by (apply Hids; by apply list_elem_of_lookup_2 in Hpk).
      destruct (Hlater (pid pk) Hnew Hidk) as [Hkept|?]; [|by right].
      right. exists k, pk. split; [by left|done].
    + rewrite (updatePlayer_none k g n Hpk) in E1. injection E1 as <- <-.
      by apply Hlater.
Qed.
End Turns.

Lemma checkGameEnd_frame now g :
  Permutation (players g) (players (checkGameEnd now g))
  ∧ grid (checkGameEnd now g) = grid g.
Proof.
  unfold checkGameEnd. destruct (_ || _); [|done]. simpl. split; [|done].
  apply stableSort_Permutation.
Qed.

(** One event that is not a restart: every player is still there, under the
    same id and with a territory set that has only gained cells, possibly at
    another index; and the owners of the grid are kept up to the trails that
    were claimed. *)
Lemma step_territory random st e :
  isRestart e = false →
  (∃ ps, Forall2 grows (players st.1) ps ∧ Permutation ps (players (step random st e).1))
  ∧ (idsNonzero st.1 → ownersKept st.1 (step random st e).1).
Proof.
  destruct st as [g n]. destruct e as [currentTime now|key|now]; [| |done]; intros _; simpl.
  - unfold gameLoop. simpl. destruct (gameRunning g) eqn:Hrun; simpl.
    2:{ split.
        - exists (players g). split; [|done]. apply Forall2_same_length_lookup.
          split; [done|]. intros i p p' Hp Hp'. assert (p = p') as -> by congruence.
          apply grows_refl.
        - intros _ c o Hc Ho. by left. }
    unfold updatePlayers. simpl.
    destruct (updatePlayers_turns random currentTime (seq 0 (length (players g))) (g, n))
      as (_ & _ & Hnone & Hgrow & Hown); [apply NoDup_seq|].
    destruct (foldl _ (g, n) _) as [g1 n1]. simpl in *.
    destruct (checkGameEnd_frame now g1) as [Hperm Hgrid]. split.
    + exists (players g1). split; [|done]. apply Forall2_same_length_lookup. split.
      * destruct (decide (length (players g) ≤ length (players g1))%nat) as [Hle|Hgt].
        -- apply Nat.le_antisymm; [done|]. apply Nat.nlt_ge. intros Hlt.
           destruct (lookup_lt_is_Some_2 (players g1) (length (players g))) as [p' Hp'];
             [done|].
           rewrite Hnone in Hp'; [done|]. by apply lookup_ge_None.
        -- destruct (lookup_lt_is_Some_2 (players g) (length (players g1))) as [p Hp];
             [lia|].
           destruct (Hgrow _ p Hp) as (p' & Hp' & _).
           apply lookup_lt_Some in Hp'. lia.
      * intros i p p' Hp Hp'. destruct (Hgrow i p Hp) as (p'' & Hp'' & ?).
        by assert (p'' = p') as <- by congruence.
    + intros Hids c o Hc Ho. rewrite Hgrid.
      destruct (Hown Hids c o Hc Ho) as [?|(j & p & _ & Hp & ?)]; [by left|right].
      exists p. split; [|done]. by apply list_elem_of_lookup_2 in Hp.
  - split.
    + exists (players (keydown key g)). split; [|done].
      rewrite keydown_eq. destruct (negb (gameRunning g)).
      { apply Forall2_same_length_lookup. split; [done|]. intros i p p' Hp Hp'.
        assert (p = p') as -> by congruence. apply grows_refl. }
      destruct (players g !! 0%nat) as [player|] eqn:Hp0.
      2:{ apply Forall2_same_length_lookup. split; [done|]. intros i p p' Hp Hp'.
          assert (p = p') as -> by congruence. apply grows_refl. }
      destruct (negb (alive player)).
      { apply Forall2_same_length_lookup. split; [done|]. intros i p p' Hp Hp'.
        assert (p = p') as -> by congruence. apply grows_refl. }
      simpl. apply Forall2_same_length_lookup. split; [by rewrite length_alter|].
      intros i p p' Hp Hp'. destruct (decide (i = 0%nat)) as [->|Hi].
      * rewrite list_lookup_alter_eq, Hp in Hp'. simpl in Hp'.
        injection Hp' as <-. by repeat split.
      * rewrite list_lookup_alter_ne in Hp' by done.
        assert (p = p') as -> by congruence. apply grows_refl.
    + intros _ c o Hc Ho. left.
      rewrite keydown_eq. destruct (negb (gameRunning g)); [done|].
      destruct (players g !! 0%nat) as [player|]; [|done].
      by destruct (negb (alive player)).
Qed.

(** ** The order of the players while the game runs *)

Lemma Forall2_grows_seats ps ps' :
  Forall2 grows ps ps' →
  map (λ p, (pid p, isHuman p)) ps = map (λ p, (pid p, isHuman p)) ps'.
Proof.
  induction 1 as [|p p' ps ps' (Hid & Hh & _) _ IH]; [done|].
  simpl. by rewrite Hid, Hh, IH.
Qed.

Lemma createPlayer_players W H random gr ps n i :
  ∃ gr' p n', createPlayer W H random (gr, ps, n) i = (gr', ps ++ [p], n')
              ∧ pid p = Z.of_nat i + 1 ∧ isHuman p = (i =? 0)%nat.
Proof.
  unfold createPlayer. destruct (if (i =? 0)%nat then _ else _) as [interval n'].
  destruct (foldl _ _ _) as [gr' terr]. by do 3 eexists.
Qed.

Lemma initializeGame_seats random now st :
  gameRunning (initializeGame random now st).1 = true
  ∧ seats (initializeGame random now st).1 = initialSeats.
Proof.
  destruct st as [g n]. unfold initializeGame. cbn [seq foldl].
  destruct (createPlayer_players (mapWidth g) (mapHeight g) random
              (replicate (Z.to_nat (mapHeight g)) (replicate (Z.to_nat (mapWidth g)) 0))
              [] n 0) as (gr1 & p1 & n1 & -> & Hid1 & Hh1).
  destruct (createPlayer_players (mapWidth g) (mapHeight g) random gr1 ([] ++ [p1]) n1 1)
    as (gr2 & p2 & n2 & -> & Hid2 & Hh2).
  destruct (createPlayer_players (mapWidth g) (mapHeight g) random gr2
              (([] ++ [p1]) ++ [p2]) n2 2) as (gr3 & p3 & n3 & -> & Hid3 & Hh3).
  destruct (createPlayer_players (mapWidth g) (mapHeight g) random gr3
              ((([] ++ [p1]) ++ [p2]) ++ [p3]) n3 3) as (gr4 & p4 & n4 & -> & Hid4 & Hh4).
  split; [done|]. unfold seats. simpl.
  by rewrite Hid1, Hh1, Hid2, Hh2, Hid3, Hh3, Hid4, Hh4.
Qed.

Lemma updatePlayers_grows random currentTime st :
  Forall2 grows (players st.1) (players (updatePlayers random currentTime st).1).
Proof.
  destruct st as [g n]. unfold updatePlayers. simpl.
  destruct (updatePlayers_turns random currentTime (seq 0 (length (players g))) (g, n))
    as (_ & _ & Hnone & Hgrow & _); [apply NoDup_seq|].
  destruct (foldl _ (g, n) _) as [g1 n1]. simpl in *.
  apply Forall2_same_length_lookup. split.
  - destruct (decide (length (players g) ≤ length (players g1))%nat) as [Hle|Hgt].
    + apply Nat.le_antisymm; [done|]. apply Nat.nlt_ge. intros Hlt.
      destruct (lookup_lt_is_Some_2 (players g1) (length (players g))) as [p' Hp'];
        [done|].
      rewrite Hnone in Hp'; [done|]. by apply lookup_ge_None.
    + destruct (lookup_lt_is_Some_2 (players g) (length (players g1))) as [p Hp];
        [lia|].
      destruct (Hgrow _ p Hp) as (p' & Hp' & _).
      apply lookup_lt_Some in Hp'. lia.
  - intros i p p' Hp Hp'. destruct (Hgrow i p Hp) as (p'' & Hp'' & ?).
    by assert (p'' = p') as <- by congruence.
Qed.

Lemma Forall2_grows_refl ps : Forall2 grows ps ps.
Proof. induction ps; constructor; [apply grows_refl|done]. Qed.

Lemma keydown_grows key g : Forall2 grows (players g) (players (keydown key g)).
Proof.
  rewrite keydown_eq. destruct (negb (gameRunning g)); [apply Forall2_grows_refl|].
  destruct (players g !! 0%nat) as [player|] eqn:Hp0; [|apply Forall2_grows_refl].
  destruct (negb (alive player)); [apply Forall2_grows_refl|].
  simpl. apply Forall2_same_length_lookup. split; [by rewrite length_alter|].
  intros i p p' Hp Hp'. destruct (decide (i = 0%nat)) as [->|Hi].
  - rewrite list_lookup_alter_eq, Hp in Hp'. simpl in Hp'.
    injection Hp' as <-. by repeat split.
  - rewrite list_lookup_alter_ne in Hp' by done.
    assert (p = p') as -> by congruence. apply grows_refl.
Qed.

Lemma keydown_running key g : gameRunning (keydown key g) = gameRunning g.
Proof.
  rewrite keydown_eq. destruct (negb (gameRunning g)); [done|].
  destruct (players g !! 0%nat) as [player|]; [|done].
  by destruct (negb (alive player)).
Qed.

Lemma checkGameEnd_running now g :
  gameRunning (checkGameEnd now g) = true → checkGameEnd now g = g.
Proof. unfold checkGameEnd. by destruct (_ || _). Qed.

Lemma step_running random st e :
  isRestart e = false → gameRunning (step random st e).1 = true →
  gameRunning st.1 = true ∧ Forall2 grows (players st.1) (players (step random st e).1).
Proof.
  destruct st as [g n]. destruct e as [currentTime now|key|now]; [| |done]; intros _; simpl.
  - unfold gameLoop. simpl. destruct (gameRunning g) eqn:Hrun; [|simpl; congruence].
    pose proof (updatePlayers_grows random currentTime (g, n)) as Hgrow.
    destruct (updatePlayers random currentTime (g, n)) as [g1 n1]. simpl in *.
    intros Hend. by rewrite (checkGameEnd_running now g1 Hend).
  - rewrite keydown_running. intros Hrun. split; [done|apply keydown_grows].
Qed.

Lemma run_seats random now st0 events :
  gameRunning (run random (initializeGame random now st0) events).1 = true →
  seats (run random (initializeGame random now st0) events).1 = initialSeats.
Proof.
  induction events as [|e events IH] using rev_ind.
  - intros _. apply initializeGame_seats.
  - unfold run in *. rewrite foldl_app. simpl.
    destruct (isRestart e) eqn:He.
    + destruct e; try done. intros _. apply initializeGame_seats.
    + intros Hrun. destruct (step_running random _ e He Hrun) as [Hrun' Hgrow].
      rewrite <- (IH Hrun'). symmetry. by apply Forall2_grows_seats.
Qed.

Lemma seats_human g i p :
  seats g = initialSeats → players g !! i = Some p →
  (isHuman p = true ↔ i = 0%nat) ∧ pid p = Z.of_nat i + 1.
Proof.
  unfold seats, initialSeats. intros Hs Hp.
  assert (map (λ p, (pid p, isHuman p)) (players g) !! i = Some (pid p, isHuman p)) as Hm.
  { by rewrite list_lookup_fmap, Hp. }
  rewrite Hs in Hm.
  destruct i as [|[|[|[|i]]]]; simpl in Hm; [| | | |done]; injection Hm as <- <-; done.
Qed.

(** ** The session of the example *)

Lemma sessionAtFrame8_human : players sessionAtFrame8.1 !! 0%nat = Some humanAtFrame8.
Proof. vm_compute. reflexivity. Qed.

Lemma sessionAtFrame8_wf : wf_grid 14 14 (grid sessionAtFrame8.1).
Proof. unfold wf_grid. apply (bool_decide_unpack _). vm_compute. exact I. Qed.

(** The cell (6, 3) is in the trail of the human player, which may not step
    back onto it. *)
Lemma isValidMove_false_iff_witness :
  isValidMove sessionAtFrame8.1 humanAtFrame8 (6, 3) = false.
Proof.
  apply (proj1 (isValidMove_false_iff sessionAtFrame8.1 humanAtFrame8 (6, 3)
                  sessionAtFrame8_wf)).
  right; right; left. simpl. by left.
Defined.

(** The second session: the state in which the human player is about to
    close its loop. *)
Lemma sessionBeforeLoop_human : players sessionBeforeLoop.1 !! 0%nat = Some humanBeforeLoop.
Proof. vm_compute. reflexivity. Qed.

Lemma sessionBeforeLoop_wf :
  wf_grid (mapWidth sessionBeforeLoop.1) (mapHeight sessionBeforeLoop.1)
          (grid sessionBeforeLoop.1).
Proof. unfold wf_grid. apply (bool_decide_unpack _). vm_compute. exact I. Qed.

(** In the second session the human player stands at (3, 4) and steps onto
    the cell (4, 4) of its start square: it claims its trail, to which the
    cell (3, 4) that it leaves has been added, and the flood fill gives it
    the cell (4, 3), which the trail and the start square enclose, while the
    cell (4, 1) outside the trail stays unowned. *)
Lemma movePlayer_claim_witness :
  ∃ player',
    players (movePlayer sessionBeforeLoop.1 0) !! 0%nat = Some player'
    ∧ gridAt (grid (movePlayer sessionBeforeLoop.1 0)) (3, 2) = Some 1
    ∧ gridAt (grid (movePlayer sessionBeforeLoop.1 0)) (3, 4) = Some 1
    ∧ gridAt (grid (movePlayer sessionBeforeLoop.1 0)) (4, 3) = Some 1
    ∧ (4, 3) ∈ territory player'
    ∧ gridAt (grid (movePlayer sessionBeforeLoop.1 0)) (4, 1) = Some 0
    ∧ trail player' = [].
Proof.
  destruct (movePlayer_claim sessionBeforeLoop.1 0 humanBeforeLoop)
    as (player' & Hp & _ & _ & Hc & Ht & _ & Hfill).
  - exact sessionBeforeLoop_human.
  - vm_compute. reflexivity.
  - apply (bool_decide_unpack _). vm_compute. exact I.
  - discriminate.
  - exact sessionBeforeLoop_wf.
  - apply Forall_forall. unfold onBoard. apply (bool_decide_unpack _). vm_compute. exact I.
  - set (t := trailAfterStep humanBeforeLoop) in *.
    set (painted := (paintTrail 1 t (grid sessionBeforeLoop.1)
                       (territory humanBeforeLoop)).1).
    destruct (Hfill painted) as (Hin & Hout & _).
    { apply paintTrail_paintedWith. exact sessionBeforeLoop_wf. }
    destruct (Hin (4, 3)) as [Hg43 Ht43].
    { unfold unowned, onBoard. apply (bool_decide_unpack _). vm_compute. exact I. }
    { intros (d & Hd & Hb). unfold sameRegion in Hd.
      inversion Hd as [|a b e [Hadj [_ Hg]]]; subst; [vm_compute in Hb; discriminate|].
      destruct Hadj as [-> | [-> | [-> | -> ] ] ]; vm_compute in Hg; discriminate. }
    exists player'. split; [exact Hp|].
    split; [apply Hc; vm_compute; right; right; right; by left|].
    split; [apply Hc; vm_compute; do 5 right; by left|].
    split; [exact Hg43|]. split; [exact Ht43|]. split; [|exact Ht].
    apply (Hout (4, 1)).
    + unfold unowned, onBoard. apply (bool_decide_unpack _). vm_compute. exact I.
    + exists (4, 0). split; [|vm_compute; reflexivity].
      eapply rtc_l; [|apply rtc_refl]. split; [by left|].
      unfold unowned, onBoard. apply (bool_decide_unpack _). vm_compute. exact I.
Defined.

(** The human player is eliminated where it stands, at (5, 3). *)
Lemma eliminatePlayer_effect_witness :
  ∃ p', players (eliminatePlayer sessionAtFrame8.1 0) !! 0%nat = Some p'
        ∧ alive p' = false ∧ trail p' = [] ∧ px p' = 5 ∧ py p' = 3.
Proof.
  destruct (proj1 (proj2 (eliminatePlayer_effect sessionAtFrame8.1 0))
              humanAtFrame8 sessionAtFrame8_human)
    as (p' & Hp & Hal & Ht & Hx & Hy & _).
  exists p'. repeat split; assumption.
Defined.

(** ** A cell that changes owner *)

(** C7 as stated fails in the grid engine. The human player stepped onto
    (7, 3) while player 2 stood there, so that the cell came into both
    trails; player 2 claimed it in the fifth frame, and across the ninth
    frame, in which the human player claims its trail, the cell goes from
    its owner 2 to the owner 1. *)
Lemma owner_changes_counterexample :
  gridAt (grid sessionAtFrame8.1) (7, 3) = Some 2
  ∧ gridAt (grid (step sessionRandom sessionAtFrame8 (Frame 9000 9000)).1) (7, 3) = Some 1.
Proof. split; vm_compute; reflexivity. Qed.

(** ** The grid and the trails stay on the board *)

Lemma wf_grid_setCell W H gr c v : wf_grid W H gr → wf_grid W H (setCell gr c v).
Proof.
  intros (HW & HH & Hlen & Hrows). unfold setCell.
  destruct ((0 <=? c.1) && (0 <=? c.2)); [|done].
  split; [done|]. split; [done|]. split; [by rewrite length_alter|].
  apply Forall_alter; [done|]. intros row _ Hrow. by rewrite length_insert.
Qed.

Lemma wf_grid_paintTrail W H id t gr terr :
  wf_grid W H gr → wf_grid W H (paintTrail id t gr terr).1.
Proof.
  unfold paintTrail. revert gr terr.
  induction t as [|pos t IH]; intros gr terr Hwf; simpl; [done|].
  apply IH. by apply wf_grid_setCell.
Qed.

Lemma wf_grid_fillRegion W H id region s :
  wf_grid W H (fs_grid s) → wf_grid W H (fs_grid (fillRegion id region s)).
Proof.
  unfold fillRegion. revert s.
  induction region as [|pos region IH]; intros s Hwf; simpl; [done|].
  apply IH. simpl. by apply wf_grid_setCell.
Qed.

Lemma wf_grid_fillCell W H id s c :
  wf_grid W H (fs_grid s) → wf_grid W H (fs_grid (fillCell W H id s c)).
Proof.
  intros Hwf. unfold fillCell. destruct (_ && _); [|done].
  destruct (getConnectedRegion W H (fs_grid s) c (fs_visited s)) as [region visited].
  destruct (negb _); [|done]. by apply wf_grid_fillRegion.
Qed.

Lemma wf_grid_floodFillTerritory W H id gr terr :
  wf_grid W H gr → wf_grid W H (floodFillTerritory W H id gr terr).1.
Proof.
  intros Hwf. unfold floodFillTerritory, floodFillState. simpl.
  assert (∀ l s, wf_grid W H (fs_grid s) →
                 wf_grid W H (fs_grid (foldl (fillCell W H id) s l))) as Hfold.
  { induction l as [|c l IH]; intros s Hs; simpl; [done|].
    apply IH. by apply wf_grid_fillCell. }
  by apply Hfold.
Qed.

Lemma BoardInv_updPlayer W H i f g :
  (∀ p, players g !! i = Some p → onBoardPlayer W H p → onBoardPlayer W H (f p)) →
  BoardInv W H g → BoardInv W H (updPlayer i f g).
Proof.
  intros Hf [Hw Hh Hgr Hps]. split; try done. simpl. by apply Forall_alter.
Qed.

Lemma BoardInv_setGrid W H gr g :
  wf_grid W H gr → BoardInv W H g → BoardInv W H (setGrid gr g).
Proof. intros Hgr [Hw Hh _ Hps]. by split. Qed.

Lemma BoardInv_eliminatePlayer W H g i :
  BoardInv W H g → BoardInv W H (eliminatePlayer g i).
Proof.
  intros Hinv. rewrite eliminatePlayer_eq. apply BoardInv_updPlayer; [|done].
  intros p _ [Hpos _]. split; [done|]. simpl. constructor.
Qed.

Lemma isValidMove_onBoard g player c :
  isValidMove g player c = true → onBoard (mapWidth g) (mapHeight g) c.
Proof.
  unfold isValidMove, onBoard.
  destruct ((c.1 <? 0) || (mapWidth g <=? c.1) || (c.2 <? 0) || (mapHeight g <=? c.2))
    eqn:Eb; [done|].
  intros _. repeat (apply orb_false_iff in Eb as [Eb ?]). lia.
Qed.

Lemma trailAfterStep_onBoard W H player :
  onBoardPlayer W H player → Forall (onBoard W H) (trailAfterStep player).
Proof.
  intros [Hpos Ht]. unfold trailAfterStep. destruct (negb _); [|done].
  apply Forall_app. split; [done|]. by constructor.
Qed.

Lemma BoardInv_movePlayer W H g i :
  BoardInv W H g → BoardInv W H (movePlayer g i).
Proof.
  intros Hinv. destruct (players g !! i) as [player|] eqn:Hp.
  2:{ unfold movePlayer. by rewrite Hp. }
  assert (onBoardPlayer W H player) as Hon.
  { destruct Hinv as [_ _ _ Hps]. rewrite Forall_lookup in Hps. by apply (Hps i). }
  destruct (movePlayer_cases g i player Hp) as [[_ ->]|[[Hv ->]|(Hv & _ & _ & ->)]].
  - by apply BoardInv_eliminatePlayer.
  - apply BoardInv_updPlayer; [|done]. intros p Hp' _.
    assert (p = player) as -> by congruence. split; simpl.
    + apply isValidMove_onBoard in Hv.
      by rewrite (bi_width _ _ _ Hinv), (bi_height _ _ _ Hinv) in Hv.
    + by apply trailAfterStep_onBoard.
  - apply BoardInv_updPlayer.
    + intros p Hp' _. simpl in Hp'. assert (p = player) as -> by congruence.
      split; simpl; [|constructor]. apply isValidMove_onBoard in Hv.
      by rewrite (bi_width _ _ _ Hinv), (bi_height _ _ _ Hinv) in Hv.
    + apply BoardInv_setGrid; [|done]. unfold claimedBoard.
      rewrite (bi_width _ _ _ Hinv), (bi_height _ _ _ Hinv).
      apply wf_grid_floodFillTerritory, wf_grid_paintTrail, (bi_grid _ _ _ Hinv).
Qed.

Lemma BoardInv_setDirection W H i d g :
  BoardInv W H g → BoardInv W H (updPlayer i (setDirection d) g).
Proof. intros Hinv. apply BoardInv_updPlayer; [|done]. by intros p _ Hon. Qed.

Lemma BoardInv_pickDirection W H r arr i g :
  BoardInv W H g → BoardInv W H (pickDirection r arr i g).
Proof.
  intros Hinv. unfold pickDirection. destruct (floorNth _ _); [|done].
  by apply BoardInv_setDirection.
Qed.

Lemma BoardInv_updateAI W H random n g i :
  BoardInv W H g → BoardInv W H (updateAI random n g i).1.
Proof.
  intros Hinv. unfold updateAI. destruct (players g !! i) as [player|]; [|done].
  destruct (_ && _); [by apply BoardInv_pickDirection|].
  destruct (_ && _); [done|]. destruct (0 <? _)%nat; [|done].
  by apply BoardInv_pickDirection.
Qed.

Lemma BoardInv_updatePlayer W H random currentTime st i :
  BoardInv W H st.1 → BoardInv W H (updatePlayer random currentTime st i).1.
Proof.
  destruct st as [g n]. simpl. intros Hinv.
  destruct (players g !! i) as [player|]; [|done].
  destruct (negb (alive player)); [done|]. destruct (PrimFloat.leb _ _); [|done].
  assert (BoardInv W H (if negb (isHuman player) then updateAI random n g i else (g, n)).1)
    as Hinv1.
  { destruct (negb (isHuman player)); [by apply BoardInv_updateAI|done]. }
  destruct (if negb (isHuman player) then _ else _) as [g1 n1]. simpl in Hinv1.
  destruct (players g1 !! i) as [player1|]; [|done].
  destruct (_ || _); [|done]. simpl.
  apply BoardInv_updPlayer; [by intros p _ Hon|]. by apply BoardInv_movePlayer.
Qed.

Lemma BoardInv_updatePlayers W H random currentTime st :
  BoardInv W H st.1 → BoardInv W H (updatePlayers random currentTime st).1.
Proof.
  unfold updatePlayers. generalize (seq 0 (length (players st.1))). intros l. revert st.
  induction l as [|i l IH]; intros st Hinv; simpl; [done|].
  apply IH. by apply BoardInv_updatePlayer.
Qed.

Lemma BoardInv_checkGameEnd W H now g :
  BoardInv W H g → BoardInv W H (checkGameEnd now g).
Proof.
  intros [Hw Hh Hgr Hps]. unfold checkGameEnd. destruct (_ || _); [|done].
  split; try done. simpl.
  by rewrite <- (stableSort_Permutation smallerTerritory (players g)).
Qed.

Lemma BoardInv_keydown W H key g : BoardInv W H g → BoardInv W H (keydown key g).
Proof.
  intros Hinv. rewrite keydown_eq. destruct (negb (gameRunning g)); [done|].
  destruct (players g !! 0%nat) as [player|]; [|done].
  destruct (negb (alive player)); [done|]. by apply BoardInv_setDirection.
Qed.

Lemma createPlayer_board W H random gr ps n i :
  wf_grid W H gr → Forall (onBoardPlayer W H) ps →
  onBoard W H (default (0, 0) (startPositions W H !! i)) →
  wf_grid W H (createPlayer W H random (gr, ps, n) i).1.1
  ∧ Forall (onBoardPlayer W H) (createPlayer W H random (gr, ps, n) i).1.2.
Proof.
  intros Hgr Hps Hstart. unfold createPlayer.
  destruct (if (i =? 0)%nat then _ else _) as [interval n'].
  assert (∀ l acc, wf_grid W H acc.1 →
            wf_grid W H (foldl (λ (acc : list (list Z) * gset Cell) c,
                                  if isValidPosition W H c
                                  then (setCell acc.1 c (Z.of_nat i + 1), {[c]} ∪ acc.2)
                                  else acc) acc l).1) as Hfold.
  { induction l as [|c l IH]; intros acc Hacc; simpl; [done|].
    apply IH. destruct (isValidPosition W H c); [|done]. simpl. by apply wf_grid_setCell. }
  specialize (Hfold (startSquare (default (0, 0) (startPositions W H !! i))) (gr, ∅) Hgr).
  destruct (foldl _ _ _) as [gr' terr]. simpl in *. split; [done|].
  apply Forall_app. split; [done|]. constructor; [|constructor]. split; simpl; [|constructor].
  by destruct (default _ _).
Qed.

Lemma createPlayers_board W H random l st :
  Forall (λ i, onBoard W H (default (0, 0) (startPositions W H !! i))) l →
  wf_grid W H st.1.1 → Forall (onBoardPlayer W H) st.1.2 →
  wf_grid W H (foldl (createPlayer W H random) st l).1.1
  ∧ Forall (onBoardPlayer W H) (foldl (createPlayer W H random) st l).1.2.
Proof.
  revert st. induction l as [|i l IH]; intros [[gr ps] m] Hl Hgr Hps; [done|].
  apply Forall_cons in Hl as [Hi Hl]. cbn [foldl].
  destruct (createPlayer_board W H random gr ps m i Hgr Hps Hi) as [Hgr' Hps'].
  by apply IH.
Qed.

Lemma BoardInv_initializeGame random now st :
  6 ≤ mapWidth st.1 → 6 ≤ mapHeight st.1 →
  BoardInv (mapWidth st.1) (mapHeight st.1) (initializeGame random now st).1.
Proof.
  destruct st as [g n]. cbn [fst]. intros HW HH. unfold initializeGame.
  destruct (createPlayers_board (mapWidth g) (mapHeight g) random (seq 0 4)
              (replicate (Z.to_nat (mapHeight g)) (replicate (Z.to_nat (mapWidth g)) 0),
               [], n)) as [Hgr Hps].
  - unfold startPositions, onBoard. cbn [seq]. repeat constructor; cbn; lia.
  - cbn [fst snd]. split; [lia|]. split; [lia|]. split; [by rewrite length_replicate|].
    apply Forall_replicate. by rewrite length_replicate.
  - cbn [fst snd]. constructor.
  - destruct (foldl _ _ _) as [[gr ps] n']. cbn [fst snd] in *. by split.
Qed.

Lemma BoardInv_step W H random st e :
  6 ≤ W → 6 ≤ H → BoardInv W H st.1 → BoardInv W H (step random st e).1.
Proof.
  intros HW HH Hinv. destruct e as [currentTime now|key|now]; simpl.
  - unfold gameLoop. destruct (gameRunning st.1); [|done].
    pose proof (BoardInv_updatePlayers W H random currentTime st Hinv) as Hinv1.
    destruct (updatePlayers random currentTime st) as [g1 n1]. simpl in *.
    by apply BoardInv_checkGameEnd.
  - by apply BoardInv_keydown.
  - unfold restart. pose proof (BoardInv_initializeGame random now st) as Hinit.
    rewrite (bi_width _ _ _ Hinv), (bi_height _ _ _ Hinv) in Hinit. by apply Hinit.
Qed.

(** Every state of a session on a board of at least 6 by 6 cells has a grid
    of the dimensions of the board, and players and trails on the board. *)
Lemma BoardInv_run random now st0 events :
  6 ≤ mapWidth st0.1 → 6 ≤ mapHeight st0.1 →
  BoardInv (mapWidth st0.1) (mapHeight st0.1)
           (run random (initializeGame random now st0) events).1.
Proof.
  intros HW HH. unfold run.
  pose proof (BoardInv_initializeGame random now st0 HW HH) as Hinit.
  revert Hinit. generalize (initializeGame random now st0). intros st. revert st.
  induction events as [|e events IH]; intros st Hinv; simpl; [done|].
  apply IH. by apply BoardInv_step.
Qed.

(** ** The ids of a session *)

Lemma idsNonzero_initializeGame random now st :
  idsNonzero (initializeGame random now st).1.
Proof.
  intros p (i & Hp)%list_elem_of_lookup_1.
  destruct (seats_human _ i p (proj2 (initializeGame_seats random now st)) Hp) as [_ ->].
  lia.
Qed.

Lemma idsNonzero_step random st e : idsNonzero st.1 → idsNonzero (step random st e).1.
Proof.
  intros Hids. destruct (isRestart e) eqn:He.
  - destruct e; try done. apply idsNonzero_initializeGame.
  - destruct (step_territory random st e He) as [(ps & Hgrow & Hperm) _].
    intros p' Hp'. rewrite <- Hperm in Hp'.
    apply list_elem_of_lookup_1 in Hp' as (i & Hp').
    destruct (Forall2_lookup_r _ _ _ _ _ Hgrow Hp') as (p & Hp & Hid & _).
    rewrite Hid. apply Hids. by apply list_elem_of_lookup_2 in Hp.
Qed.

(** No player of a session has the id 0, which marks the unowned cells. *)
Lemma idsNonzero_run random now st0 events :
  idsNonzero (run random (initializeGame random now st0) events).1.
Proof.
  unfold run. pose proof (idsNonzero_initializeGame random now st0) as Hinit.
  revert Hinit. generalize (initializeGame random now st0). intros st. revert st.
  induction events as [|e events IH]; intros st Hids; simpl; [done|].
  apply IH. by apply idsNonzero_step.
Qed.

(** * More on the grid engine *)


(** ** Invariants of a session *)

Section SessionInvariant.
Variable Inv : Game → Prop.
Variable Dim : Z → Z → Prop.
Hypothesis Inv_dim : ∀ g, Inv g → Dim (mapWidth g) (mapHeight g).
Hypothesis Inv_init :
  ∀ random now st, Dim (mapWidth st.1) (mapHeight st.1) →
                   Inv (initializeGame random now st).1.
Hypothesis Inv_direction :
  ∀ g i d p, players g !! i = Some p → alive p = true → Inv g →
             Inv (updPlayer i (setDirection d) g).
Hypothesis Inv_time : ∀ g i t, Inv g → Inv (updPlayer i (setLastMoveTime t) g).
Hypothesis Inv_move :
  ∀ g i p, players g !! i = Some p → alive p = true → direction p ≠ (0, 0) →
           Inv g → Inv (movePlayer g i).
Hypothesis Inv_end : ∀ g, Inv g → Inv (showGameOver (setGameRunning false g)).

Lemma Inv_pickDirection r arr i g p :
  players g !! i = Some p → alive p = true → Inv g → Inv (pickDirection r arr i g).
Proof.
  intros Hp Hal Hinv. unfold pickDirection. destruct (floorNth _ _); [|done].
  by apply (Inv_direction g i _ p).
Qed.

Lemma Inv_updateAI random n g i p :
  players g !! i = Some p → alive p = true → Inv g → Inv (updateAI random n g i).1.
Proof.
  intros Hp Hal Hinv. unfold updateAI. rewrite Hp.
  destruct (_ && _); [by apply (Inv_pickDirection _ _ _ _ p)|].
  destruct (_ && _); [done|]. destruct (0 <? _)%nat; [|done].
  by apply (Inv_pickDirection _ _ _ _ p).
Qed.

Lemma Inv_updatePlayer random currentTime st i :
  Inv st.1 → Inv (updatePlayer random currentTime st i).1.
Proof.
  destruct st as [g n]. cbn [fst]. intros Hinv. unfold updatePlayer.
  destruct (players g !! i) as [player|] eqn:Hp; [|done].
  destruct (alive player) eqn:Hal; [|done]. cbn [negb].
  destruct (PrimFloat.leb _ _); [|done].
  assert (∃ d, Inv (if negb (isHuman player) then updateAI random n g i else (g, n)).1
               ∧ players (if negb (isHuman player) then updateAI random n g i else (g, n)).1
                 !! i = Some (setDirection d player)) as (d & Hinv1 & Hp1).
  { destruct (negb (isHuman player)).
    - destruct (updateAI_player random n i g player Hp) as [_ [d Hd]].
      exists d. split; [by apply (Inv_updateAI _ _ _ _ player)|done].
    - exists (direction player). split; [done|]. by destruct player. }
  destruct (if negb (isHuman player) then _ else _) as [g1 n1]. cbn [fst] in *.
  rewrite Hp1. cbn [direction setDirection].
  destruct (negb (d.1 =? 0) || negb (d.2 =? 0)) eqn:Hd; [|done]. cbn [fst].
  apply Inv_time. apply (Inv_move g1 i (setDirection d player)); try done.
  simpl. intros ->. done.
Qed.

Lemma Inv_updatePlayers random currentTime st :
  Inv st.1 → Inv (updatePlayers random currentTime st).1.
Proof.
  unfold updatePlayers. generalize (seq 0 (length (players st.1))). intros l. revert st.
  induction l as [|i l IH]; intros st Hinv; simpl; [done|].
  apply IH. by apply Inv_updatePlayer.
Qed.

Lemma Inv_checkGameEnd now g : Inv g → Inv (checkGameEnd now g).
Proof.
  intros Hinv. unfold checkGameEnd. destruct (_ || _); [|done]. by apply Inv_end.
Qed.

Lemma Inv_keydown key g : Inv g → Inv (keydown key g).
Proof.
  intros Hinv. rewrite keydown_eq. destruct (negb (gameRunning g)); [done|].
  destruct (players g !! 0%nat) as [player|] eqn:Hp; [|done].
  destruct (alive player) eqn:Hal; [|done]. by apply (Inv_direction g 0 _ player).
Qed.

Lemma Inv_step random st e : Inv st.1 → Inv (step random st e).1.
Proof.
  intros Hinv. destruct e as [currentTime now|key|now]; simpl.
  - unfold gameLoop. destruct (gameRunning st.1); [|done].
    pose proof (Inv_updatePlayers random currentTime st Hinv) as Hinv1.
    destruct (updatePlayers random currentTime st) as [g1 n1]. simpl in *.
    by apply Inv_checkGameEnd.
  - by apply Inv_keydown.
  - unfold restart. apply Inv_init. by apply Inv_dim.
Qed.

Lemma Inv_run random now st0 events :
  Dim (mapWidth st0.1) (mapHeight st0.1) →
  Inv (run random (initializeGame random now st0) events).1.
Proof.
  intros Hdim. unfold run.
  pose proof (Inv_init random now st0 Hdim) as Hinit.
  revert Hinit. generalize (initializeGame random now st0). intros st. revert st.
  induction events as [|e events IH]; intros st Hinv; simpl; [done|].
  apply IH. by apply Inv_step.
Qed.
End SessionInvariant.

(** ** The players that [initializeGame] creates *)

Lemma createPlayer_fresh W H random gr ps n i :
  ∃ gr' p n', createPlayer W H random (gr, ps, n) i = (gr', ps ++ [p], n')
              ∧ trail p = [] ∧ alive p = true ∧ direction p = (0, 0).
Proof.
  unfold createPlayer. destruct (if (i =? 0)%nat then _ else _) as [interval n'].
  destruct (foldl _ _ _) as [gr' terr]. by do 3 eexists.
Qed.

Lemma initializeGame_fresh random now st :
  Forall (λ p, trail p = [] ∧ alive p = true ∧ direction p = (0, 0))
         (players (initializeGame random now st).1).
Proof.
  destruct st as [g n]. unfold initializeGame.
  assert (∀ l st, Forall (λ p, trail p = [] ∧ alive p = true ∧ direction p = (0, 0)) st.1.2 →
            Forall (λ p, trail p = [] ∧ alive p = true ∧ direction p = (0, 0))
                   (foldl (createPlayer (mapWidth g) (mapHeight g) random) st l).1.2) as Hfold.
  { induction l as [|i l IH]; intros [[gr ps] m] Hps; [done|]. cbn [foldl].
    destruct (createPlayer_fresh (mapWidth g) (mapHeight g) random gr ps m i)
      as (gr' & p & m' & -> & Hp).
    apply IH. cbn [fst snd] in *. apply Forall_app. split; [done|]. by constructor. }
  specialize (Hfold (seq 0 4)
                (replicate (Z.to_nat (mapHeight g)) (replicate (Z.to_nat (mapWidth g)) 0),
                 [], n)).
  destruct (foldl _ _ _) as [[gr ps] n']. cbn [fst snd] in *. apply Hfold. constructor.
Qed.

(** ** The trails *)

Lemma isValidMove_own_trail g player c :
  isValidMove g player c = true → c ∉ trail player.
Proof.
  unfold isValidMove. destruct (_ || _); [done|].
  destruct (match gridAt (grid g) c with Some _ => _ | None => _ end); [done|].
  destruct (trailHas (trail player) c) eqn:Et; [done|]. intros _ Hc.
  apply trailHas_elem_of in Hc. congruence.
Qed.

Lemma trailInv_trailAfterStep player target :
  trailInv player → target ∉ trail player → target ≠ (px player, py player) →
  NoDup (trailAfterStep player) ∧ (target ∉ trailAfterStep player)
  ∧ ∀ c, c ∈ trailAfterStep player → c ∉ territory player.
Proof.
  intros (Hnd & Hpos & Hterr & _) Ht Hne. unfold trailAfterStep.
  destruct (bool_decide ((px player, py player) ∈ territory player)) eqn:Eb; cbn [negb];
    [done|].
  apply bool_decide_eq_false in Eb. split; [|split].
  - apply NoDup_app. split; [done|]. split; [|apply NoDup_singleton].
    intros c Hc Hc'%list_elem_of_singleton. by subst c.
  - intros [?|?%list_elem_of_singleton]%elem_of_app; done.
  - intros c [?|Hc%list_elem_of_singleton]%elem_of_app; [by apply Hterr|by subst c].
Qed.

Lemma trailInv_movePlayer g i p :
  players g !! i = Some p → alive p = true → direction p ≠ (0, 0) →
  Forall trailInv (players g) → Forall trailInv (players (movePlayer g i)).
Proof.
  intros Hp Hal Hdir Hall.
  assert (trailInv p) as Hinv by (rewrite Forall_lookup in Hall; by apply (Hall i)).
  destruct (movePlayer_cases g i p Hp) as [[_ ->]|[[Hv ->]|(Hv & _ & _ & ->)]].
  - rewrite eliminatePlayer_eq. simpl. apply Forall_alter; [done|].
    intros q _ _. repeat split; simpl; try done; [apply NoDup_nil_2|apply not_elem_of_nil|].
    by intros c ?%elem_of_nil.
  - simpl. apply Forall_alter; [done|]. intros q Hq _.
    assert (q = p) as -> by congruence.
    destruct (trailInv_trailAfterStep p (px p + (direction p).1, py p + (direction p).2))
      as (Hnd & Hpos & Hterr); [done|by apply (isValidMove_own_trail g)| |].
    { destruct (direction p) as [dx dy]. simpl. intros [= Hx Hy]. apply Hdir.
      f_equal; lia. }
    repeat split; simpl; try done. by rewrite Hal.
  - simpl. apply Forall_alter; [done|]. intros q _ _.
    repeat split; simpl; try done; [apply NoDup_nil_2|apply not_elem_of_nil|].
    by intros c ?%elem_of_nil.
Qed.

Lemma trailInv_run random now st0 events :
  Forall trailInv (players (run random (initializeGame random now st0) events).1).
Proof.
  apply (Inv_run (λ g, Forall trailInv (players g)) (λ _ _, True)); try done.
  - intros r t st _. eapply Forall_impl; [apply initializeGame_fresh|].
    intros p (Ht & Hal & _). unfold trailInv. rewrite Ht, Hal.
    repeat split; try done; [apply NoDup_nil_2|apply not_elem_of_nil|].
    by intros c ?%elem_of_nil.
  - intros g i d p _ _ Hall. simpl. apply Forall_alter; [done|]. by intros q _ Hq.
  - intros g i t Hall. simpl. apply Forall_alter; [done|]. by intros q _ Hq.
  - intros g i p. apply trailInv_movePlayer.
  - intros g Hall. simpl.
    by rewrite <- (stableSort_Permutation smallerTerritory (players g)).
Qed.

(** ** The owners of the cells *)

Lemma claimedBoard_owner g player t c o :
  gridAt (claimedBoard g player t).1 c = Some o → o ≠ 0 →
  gridAt (grid g) c = Some o ∨ (o = pid player ∧ c ∈ (claimedBoard g player t).2).
Proof.
  unfold claimedBoard. intros Hc Ho.
  destruct (paintTrail_spec (pid player) t (grid g) (territory player)) as [Hg Ht].
  destruct (paintTrail _ _ _ _) as [gr1 terr1]; cbn [fst snd] in *.
  destruct (floodFillState_inv (mapWidth g) (mapHeight g) (pid player) gr1 terr1)
    as [Hinv _].
  unfold floodFillTerritory in *; cbn [fst snd] in *.
  set (s := floodFillState (mapWidth g) (mapHeight g) (pid player) gr1 terr1) in *.
  destruct (decide (c ∈ fs_visited s)) as [Hv|Hv].
  - right. destruct (fi_unowned _ _ _ _ _ _ Hinv c Hv) as [_ H0].
    destruct (fi_values _ _ _ _ _ _ Hinv c) as [Heq|Heq]; [congruence|].
    assert (o = pid player) as -> by congruence. split; [done|].
    apply (fi_territory _ _ _ _ _ _ Hinv). right. split; [done|]. intros Hb.
    pose proof (fi_border _ _ _ _ _ _ Hinv c Hv Hb). congruence.
  - rewrite (fi_same _ _ _ _ _ _ Hinv c Hv), Hg in Hc.
    destruct (decide (c ∈ t)) as [Hct|Hct]; [|by left]. right.
    destruct (gridAt (grid g) c); simpl in Hc; [|done].
    split; [congruence|]. apply (fi_territory _ _ _ _ _ _ Hinv). left. apply Ht. by left.
Qed.

Lemma ownersInTerritory_mono g g' :
  (∀ c o, gridAt (grid g') c = Some o → o ≠ 0 →
          gridAt (grid g) c = Some o
          ∨ ∃ p, p ∈ players g' ∧ pid p = o ∧ c ∈ territory p) →
  (∀ p, p ∈ players g →
        ∃ p', p' ∈ players g' ∧ pid p' = pid p ∧ territory p ⊆ territory p') →
  ownersInTerritory g → ownersInTerritory g'.
Proof.
  intros Hgrid Hplayers Hinv c o Hc Ho.
  destruct (Hgrid c o Hc Ho) as [Hold|?]; [|done].
  destruct (Hinv c o Hold Ho) as (p & Hp & Hid & Hin).
  destruct (Hplayers p Hp) as (p' & Hp' & Hid' & Hsub).
  exists p'. split; [done|]. split; [congruence|]. by apply Hsub.
Qed.

Lemma ownersInTerritory_updPlayer g i f :
  (∀ p, pid (f p) = pid p ∧ territory p ⊆ territory (f p)) →
  ownersInTerritory g → ownersInTerritory (updPlayer i f g).
Proof.
  intros Hf. apply ownersInTerritory_mono; [by left|].
  intros p (j & Hj)%list_elem_of_lookup_1. simpl.
  destruct (decide (j = i)) as [->|Hji].
  - exists (f p). split; [|apply Hf].
    apply (list_elem_of_lookup_2 _ i). by rewrite list_lookup_alter_eq, Hj.
  - exists p. split; [|done].
    apply (list_elem_of_lookup_2 _ j). by rewrite list_lookup_alter_ne.
Qed.

Lemma ownersInTerritory_movePlayer g i :
  ownersInTerritory g → ownersInTerritory (movePlayer g i).
Proof.
  intros Hinv. destruct (players g !! i) as [p|] eqn:Hp.
  2:{ unfold movePlayer. by rewrite Hp. }
  destruct (movePlayer_cases g i p Hp) as [[_ ->]|[[Hv ->]|(Hv & _ & _ & ->)]].
  - rewrite eliminatePlayer_eq. by apply ownersInTerritory_updPlayer.
  - by apply ownersInTerritory_updPlayer.
  - revert Hinv. apply ownersInTerritory_mono.
    + intros c o Hc Ho.
      change (gridAt (claimedBoard g p (trailAfterStep p)).1 c = Some o) in Hc.
      destruct (claimedBoard_owner g p (trailAfterStep p) c o Hc Ho) as [?|[-> Hin]];
        [by left|right].
      exists (setTrail [] (setTerritory (claimedBoard g p (trailAfterStep p)).2
                (setPosition (px p + (direction p).1) (py p + (direction p).2)
                   (setTrail (trailAfterStep p) p)))).
      split; [|by split].
      apply (list_elem_of_lookup_2 _ i). simpl. by rewrite list_lookup_alter_eq, Hp.
    + intros q (j & Hj)%list_elem_of_lookup_1. simpl.
      destruct (decide (j = i)) as [->|Hji].
      * eexists. split.
        { apply (list_elem_of_lookup_2 _ i). by rewrite list_lookup_alter_eq, Hj. }
        assert (q = p) as -> by congruence. split; [done|]. simpl.
        apply claimedBoard_territory.
      * exists q. split; [|done].
        apply (list_elem_of_lookup_2 _ j). by rewrite list_lookup_alter_ne.
Qed.

Lemma gridAt_replicate h w c o :
  gridAt (replicate h (replicate w 0)) c = Some o → o = 0.
Proof.
  unfold gridAt. destruct (_ && _); [|done].
  destruct (replicate h (replicate w 0) !! Z.to_nat c.2) as [row|] eqn:Er; [|done].
  apply lookup_replicate in Er as [-> _]. simpl.
  by intros [? _]%lookup_replicate.
Qed.

Lemma createPlayer_owner W H random gr ps n i c o :
  gridAt (createPlayer W H random (gr, ps, n) i).1.1 c = Some o → o ≠ 0 →
  gridAt gr c = Some o
  ∨ ∃ p, last (createPlayer W H random (gr, ps, n) i).1.2 = Some p
         ∧ pid p = o ∧ c ∈ territory p.
Proof.
  unfold createPlayer. destruct (if (i =? 0)%nat then _ else _) as [interval n'].
  assert (∀ l (acc : list (list Z) * gset Cell),
            gridAt (foldl (λ (acc : list (list Z) * gset Cell) c,
                                  if isValidPosition W H c
                                  then (setCell acc.1 c (Z.of_nat i + 1), {[c]} ∪ acc.2)
                                  else acc) acc l).1 c = Some o →
            gridAt acc.1 c = Some o
            ∨ (o = Z.of_nat i + 1
               ∧ c ∈ (foldl (λ (acc : list (list Z) * gset Cell) c,
                                  if isValidPosition W H c
                                  then (setCell acc.1 c (Z.of_nat i + 1), {[c]} ∪ acc.2)
                                  else acc) acc l).2)
            ∨ (o = Z.of_nat i + 1 ∧ c ∈ acc.2)) as Hfold.
  { induction l as [|d l IH]; intros acc Hc; [by left|]. cbn [foldl] in *.
    destruct (IH _ Hc) as [Hacc|[?|[-> Hin]]]; [|by right; left|].
    - destruct (isValidPosition W H d); [|by left]. cbn [fst snd] in Hacc.
      rewrite gridAt_setCell in Hacc. case_decide as Hd; [|by left]. subst d.
      destruct (gridAt acc.1 c); simpl in Hacc; [|done]. right. left.
      split; [congruence|].
      assert (∀ l (acc : list (list Z) * gset Cell), c ∈ acc.2 →
                c ∈ (foldl (λ (acc : list (list Z) * gset Cell) c,
                                  if isValidPosition W H c
                                  then (setCell acc.1 c (Z.of_nat i + 1), {[c]} ∪ acc.2)
                                  else acc) acc l).2) as Hkeep.
      { clear. induction l as [|d l IH]; intros acc Hc; [done|]. cbn [foldl].
        apply IH. destruct (isValidPosition W H d); [|done]. simpl.
        apply elem_of_union. by right. }
      apply Hkeep. simpl. apply elem_of_union. left. by apply elem_of_singleton.
    - destruct (isValidPosition W H d); [|by right; right]. cbn [fst snd] in Hin.
      apply elem_of_union in Hin as [Hcd%elem_of_singleton|Hin]; [subst d|by right; right].
      right. left. split; [done|].
      assert (∀ l (acc : list (list Z) * gset Cell), c ∈ acc.2 →
                c ∈ (foldl (λ (acc : list (list Z) * gset Cell) c,
                                  if isValidPosition W H c
                                  then (setCell acc.1 c (Z.of_nat i + 1), {[c]} ∪ acc.2)
                                  else acc) acc l).2) as Hkeep.
      { clear. induction l as [|d l IH]; intros acc Hc; [done|]. cbn [foldl].
        apply IH. destruct (isValidPosition W H d); [|done]. simpl.
        apply elem_of_union. by right. }
      apply Hkeep. simpl. apply elem_of_union. left. by apply elem_of_singleton. }
  specialize (Hfold (startSquare (default (0, 0) (startPositions W H !! i))) (gr, ∅)).
  destruct (foldl _ _ _) as [gr' terr]. cbn [fst snd] in *.
  intros Hc Ho. destruct (Hfold Hc) as [?|[[-> Hin]|[_ Hin]]]; [by left| |by apply elem_of_empty in Hin].
  right. eexists. split; [apply last_snoc|]. by split.
Qed.

Lemma ownersInTerritory_initializeGame random now st :
  ownersInTerritory (initializeGame random now st).1.
Proof.
  destruct st as [g n]. unfold initializeGame.
  assert (∀ l st,
            (∀ c o, gridAt st.1.1 c = Some o → o ≠ 0 →
                    ∃ p, p ∈ st.1.2 ∧ pid p = o ∧ c ∈ territory p) →
            ∀ c o, gridAt (foldl (createPlayer (mapWidth g) (mapHeight g) random) st l).1.1 c
                   = Some o → o ≠ 0 →
                   ∃ p, p ∈ (foldl (createPlayer (mapWidth g) (mapHeight g) random) st l).1.2
                        ∧ pid p = o ∧ c ∈ territory p) as Hfold.
  { induction l as [|i l IH]; intros [[gr ps] m] Hst; [done|]. cbn [foldl].
    apply IH. intros c o Hc Ho.
    destruct (createPlayer_owner _ _ _ _ _ _ _ c o Hc Ho) as [Hold|(p & Hlast & Hid & Hin)].
    - destruct (Hst c o Hold Ho) as (p & Hp & Hid & Hin). exists p. split; [|done].
      destruct (createPlayer_players (mapWidth g) (mapHeight g) random gr ps m i)
        as (gr' & q & m' & -> & _). cbn [fst snd] in *. apply elem_of_app. by left.
    - exists p. split; [|done].
      destruct ((createPlayer (mapWidth g) (mapHeight g) random (gr, ps, m) i).1.2)
        as [|q qs] using rev_ind; [done|].
      rewrite last_snoc in Hlast. injection Hlast as ->.
      apply elem_of_app. right. by apply list_elem_of_singleton. }
  specialize (Hfold (seq 0 4)
                (replicate (Z.to_nat (mapHeight g)) (replicate (Z.to_nat (mapWidth g)) 0),
                 [], n)).
  destruct (foldl _ _ _) as [[gr ps] n']. cbn [fst snd] in *.
  intros c o Hc Ho. apply (Hfold); [|done|done].
  intros c' o' Hc' Ho'. by apply gridAt_replicate in Hc'.
Qed.

Lemma ownersInTerritory_run random now st0 events :
  ownersInTerritory (run random (initializeGame random now st0) events).1.
Proof.
  apply (Inv_run ownersInTerritory (λ _ _, True)); try done.
  - intros r t st _. apply ownersInTerritory_initializeGame.
  - intros g i d p _ _. by apply ownersInTerritory_updPlayer.
  - intros g i t. by apply ownersInTerritory_updPlayer.
  - intros g i p _ _ _. apply ownersInTerritory_movePlayer.
  - intros g. apply ownersInTerritory_mono; [by left|].
    intros p Hp. exists p. split; [|done]. simpl.
    by rewrite <- (stableSort_Permutation smallerTerritory (players g)).
Qed.

(** ** More on [getConnectedRegion] *)

Lemma unowned_dec W H gr c : Decision (unowned W H gr c).
Proof. unfold unowned, onBoard. apply _. Qed.

Lemma regionStep_skip W H gr k stack region visited :
  ¬ unowned W H gr k ∨ k ∈ visited →
  regionStep W H gr k stack region visited = mkRegionState stack region visited.
Proof.
  intros Hk. unfold regionStep.
  destruct (bool_decide (k ∈ visited)) eqn:Ev; [done|].
  destruct (bool_decide (k ∈ region)); [done|]. cbn [orb].
  destruct ((k.1 <? 0) || (W <=? k.1) || (k.2 <? 0) || (H <=? k.2)) eqn:Eb; [done|].
  destruct (bool_decide (gridAt gr k = Some 0)) eqn:Eg; [|done]. exfalso.
  apply bool_decide_eq_false in Ev. apply bool_decide_eq_true in Eg.
  destruct Hk as [Hk|Hk]; [|done]. apply Hk. split; [|done].
  repeat (apply orb_false_iff in Eb as [Eb ?]). unfold onBoard. lia.
Qed.

Lemma regionLoop_NoDup W H gr fuel s :
  NoDup (rs_region s) → NoDup (rs_region (regionLoop fuel W H gr s)).
Proof.
  revert s. induction fuel as [|fuel IH]; intros s Hnd; simpl; [done|].
  destruct (rs_stack s) as [|k stack]; [done|]. apply IH. unfold regionStep.
  destruct (bool_decide (k ∈ rs_visited s)); [done|].
  destruct (bool_decide (k ∈ rs_region s)) eqn:Er; [done|]. cbn [orb].
  destruct (_ || _); [done|]. destruct (negb _); [done|]. simpl.
  apply bool_decide_eq_false in Er. apply NoDup_app. split; [done|].
  split; [|apply NoDup_singleton]. intros c Hc Hc'%list_elem_of_singleton. by subst c.
Qed.

(** X1. The loop of [getConnectedRegion] ends by itself, with an empty
    stack. Started at a cell that is off the board, owned or already
    visited, it returns the empty region and leaves [visited] as it was.
    Started at an unowned cell that was not visited, with a [visited] set
    that is made of whole regions, it returns the cells of the 4-connected
    region of unowned cells of the start cell, each of them once, and adds
    exactly these cells to [visited]. *)
Theorem getConnectedRegion_region W H gr start visited0 :
  rs_stack (getConnectedRegionState W H gr start visited0) = []
  ∧ (¬ unowned W H gr start ∨ start ∈ visited0 →
     getConnectedRegion W H gr start visited0 = ([], visited0))
  ∧ (unowned W H gr start → start ∉ visited0 →
     (∀ c d, c ∈ visited0 → regionStepTo W H gr c d → d ∈ visited0) →
     NoDup (getConnectedRegion W H gr start visited0).1
     ∧ (∀ d, d ∈ (getConnectedRegion W H gr start visited0).1
             ↔ sameRegion W H gr start d)
     ∧ (getConnectedRegion W H gr start visited0).2
       = visited0 ∪ list_to_set (getConnectedRegion W H gr start visited0).1).
Proof.
  split; [apply getConnectedRegion_terminates|]. split.
  - intros Hs. unfold getConnectedRegion, getConnectedRegionState, regionFuel.
    cbn [regionLoop rs_stack rs_region rs_visited]. rewrite regionStep_skip by done.
    by destruct (4 * _)%nat.
  - intros Hs Hf Hcl.
    pose proof (getConnectedRegion_spec W H gr visited0 start Hs Hf Hcl) as Hspec.
    unfold getConnectedRegion in *. cbn [fst snd] in *. destruct Hspec as [Hreg Hvis].
    split; [|split; [done|]].
    + apply regionLoop_NoDup. constructor.
    + apply set_eq. intros d. rewrite Hvis, elem_of_union, elem_of_list_to_set, Hreg. tauto.
Qed.

(** ** No pocket is left *)

Lemma regionHasBorderCell_dec W H gr c :
  unowned W H gr c → Decision (regionHasBorderCell W H gr c).
Proof.
  intros Hc.
  assert (∀ a d : Cell, a ∈ (∅ : gset Cell) → regionStepTo W H gr a d → d ∈ (∅ : gset Cell))
    as Hcl by (by intros a d ?%elem_of_empty).
  pose proof (getConnectedRegion_spec W H gr ∅ c Hc (not_elem_of_empty c) Hcl) as Hspec.
  destruct (getConnectedRegion W H gr c ∅) as [region visited]. destruct Hspec as [Hreg _].
  destruct (existsb (isBorder W H) region) eqn:Eb.
  - left. apply existsb_exists in Eb as (d & Hd & Hb). exists d. split; [|done].
    apply Hreg. by apply list_elem_of_In.
  - right. intros (d & Hd & Hb).
    assert (existsb (isBorder W H) region = true); [|congruence].
    apply existsb_exists. exists d. split; [|done]. apply list_elem_of_In. by apply Hreg.
Qed.

Lemma floodFillTerritory_border_kept W H id gr terr c :
  id ≠ 0 →
  unowned W H (floodFillTerritory W H id gr terr).1 c →
  regionHasBorderCell W H (floodFillTerritory W H id gr terr).1 c.
Proof.
  intros Hid. destruct (floodFillState_inv W H id gr terr) as [Hinv Hall].
  unfold floodFillTerritory; cbn [fst snd].
  set (s := floodFillState W H id gr terr) in *. intros [Hon Hc].
  assert (unowned W H gr c) as Hc0.
  { split; [done|]. destruct (fi_values _ _ _ _ _ _ Hinv c) as [Heq|Heq]; congruence. }
  destruct (regionHasBorderCell_dec W H gr c Hc0) as [(d & Hd & Hb)|Hnb].
  2:{ destruct (fi_enclosed _ _ _ _ _ _ Hinv c (Hall c Hc0) Hnb) as [? _]. congruence. }
  assert (∀ e, sameRegion W H gr c e → unowned W H (fs_grid s) e) as Hkeep.
  { intros e He. pose proof (sameRegion_unowned W H gr c e Hc0 He) as He0.
    split; [apply He0|]. apply (fi_border _ _ _ _ _ _ Hinv); [by apply Hall|].
    apply (regionHasBorderCell_same W H gr c e Hc0 He). by exists d. }
  exists d. split; [|done].
  assert (∀ e, sameRegion W H gr c e → sameRegion W H (fs_grid s) c e) as Hpath.
  { unfold sameRegion at 1. apply rtc_ind_r; [apply rtc_refl|].
    intros a b Ha [Hab Hb0] IH. eapply rtc_r; [exact IH|]. split; [done|].
    apply Hkeep. eapply rtc_r; [exact Ha|]. by split. }
  by apply Hpath.
Qed.

(** X2. After [floodFillTerritory] has run for a player whose id is not 0,
    no pocket is left on the board: from every cell that is still unowned a
    path of unowned cells leads to a border cell. *)
Theorem floodFillTerritory_no_pocket W H id gr terr c :
  id ≠ 0 →
  unowned W H (floodFillTerritory W H id gr terr).1 c →
  regionHasBorderCell W H (floodFillTerritory W H id gr terr).1 c.
Proof. apply floodFillTerritory_border_kept. Qed.

Lemma gridAt_onBoard W H gr c o :
  wf_grid W H gr → gridAt gr c = Some o → onBoard W H c.
Proof.
  intros (HW & HH & Hlen & Hrows). unfold gridAt, onBoard.
  destruct ((0 <=? c.1) && (0 <=? c.2)) eqn:E; [|done].
  apply andb_true_iff in E as [?%Z.leb_le ?%Z.leb_le].
  destruct (gr !! Z.to_nat c.2) as [row|] eqn:Er; [|done]. simpl. intros Hx.
  rewrite Forall_lookup in Hrows. pose proof (Hrows _ _ Er) as Hrow.
  apply lookup_lt_Some in Er, Hx. lia.
Qed.

Lemma grid_ext W H g1 g2 :
  wf_grid W H g1 → wf_grid W H g2 → (∀ c, gridAt g1 c = gridAt g2 c) → g1 = g2.
Proof.
  intros (HW & HH & Hlen1 & Hrows1) (_ & _ & Hlen2 & Hrows2) Heq.
  apply list_eq_same_length with (Z.to_nat H); [done|done|].
  intros y r1 r2 Hy Hr1 Hr2.
  rewrite Forall_lookup in Hrows1, Hrows2.
  apply list_eq_same_length with (Z.to_nat W); [by apply (Hrows2 y)|by apply (Hrows1 y)|].
  intros x v1 v2 Hx Hv1 Hv2. specialize (Heq (Z.of_nat x, Z.of_nat y)).
  unfold gridAt in Heq. cbn [fst snd] in Heq.
  replace ((0 <=? Z.of_nat x) && (0 <=? Z.of_nat y)) with true in Heq
    by (symmetry; apply andb_true_iff; lia).
  rewrite !Nat2Z.id, Hr1, Hr2 in Heq. simpl in Heq. congruence.
Qed.

(** X3. [floodFillTerritory] run a second time, on the grid and the
    territory set that the first run returned, changes neither of them. *)
Theorem floodFillTerritory_idempotent W H id gr terr :
  wf_grid W H gr → id ≠ 0 →
  floodFillTerritory W H id (floodFillTerritory W H id gr terr).1
                     (floodFillTerritory W H id gr terr).2
  = floodFillTerritory W H id gr terr.
Proof.
  intros Hwf Hid.
  pose proof (wf_grid_floodFillTerritory W H id gr terr Hwf) as Hwf1.
  pose proof (floodFillTerritory_border_kept W H id gr terr) as Hnp.
  destruct (floodFillTerritory W H id gr terr) as [gr1 terr1] eqn:E1. cbn [fst snd] in *.
  pose proof (wf_grid_floodFillTerritory W H id gr1 terr1 Hwf1) as Hwf2.
  pose proof (floodFillTerritory_frame W H id gr1 terr1) as [Hframe Hsub].
  pose proof (floodFillTerritory_added W H id gr1 terr1) as Hadd.
  destruct (floodFillState_inv W H id gr1 terr1) as [Hinv2 Hall2].
  unfold floodFillTerritory in *.
  set (s2 := floodFillState W H id gr1 terr1) in *. cbn [fst snd] in *.
  f_equal.
  - apply (grid_ext W H); [done|done|]. intros c.
    destruct (decide (gridAt gr1 c = Some 0)) as [Hc|Hc]; [|by apply Hframe].
    assert (unowned W H gr1 c) as Hu by (split; [by apply (gridAt_onBoard W H gr1 c 0)|done]).
    rewrite Hc. apply (fi_border _ _ _ _ _ _ Hinv2); [by apply Hall2|by apply Hnp].
  - apply set_eq. intros c. split; [|apply Hsub].
    intros [?|[Hu Hnb]]%Hadd; [done|]. destruct Hnb. by apply Hnp.
Qed.

(** ** No pocket in a session *)

Lemma elem_of_startSquare c d :
  d ∈ startSquare c ↔ c.1 - 1 ≤ d.1 ≤ c.1 + 1 ∧ c.2 - 1 ≤ d.2 ≤ c.2 + 1.
Proof.
  unfold startSquare. destruct c as [x y], d as [x' y']. cbn [fst snd].
  rewrite list_elem_of_bind. split.
  - intros (dy & Hd & Hdy). apply list_elem_of_bind in Hd as (dx & Hd & Hdx).
    apply list_elem_of_singleton in Hd. injection Hd as -> ->.
    repeat (apply elem_of_cons in Hdx as [->|Hdx]; [|]); try (by apply elem_of_nil in Hdx);
      repeat (apply elem_of_cons in Hdy as [->|Hdy]; [|]); try (by apply elem_of_nil in Hdy);
      lia.
  - intros [Hx Hy]. exists (y' - y). split.
    + apply list_elem_of_bind. exists (x' - x). split.
      * apply list_elem_of_singleton. f_equal; lia.
      * assert (x' - x = -1 ∨ x' - x = 0 ∨ x' - x = 1) as [-> | [-> | ->]] by lia;
          repeat constructor.
    + assert (y' - y = -1 ∨ y' - y = 0 ∨ y' - y = 1) as [-> | [-> | ->]] by lia;
        repeat constructor.
Qed.

Lemma createPlayer_grid W H random gr ps n i d :
  gridAt (createPlayer W H random (gr, ps, n) i).1.1 d =
    if decide (d ∈ startSquare (default (0, 0) (startPositions W H !! i))
               ∧ isValidPosition W H d = true)
    then (λ _, Z.of_nat i + 1) <$> gridAt gr d
    else gridAt gr d.
Proof.
  unfold createPlayer. destruct (if (i =? 0)%nat then _ else _) as [interval n'].
  assert (∀ l (acc : list (list Z) * gset Cell),
            gridAt (foldl (λ (acc : list (list Z) * gset Cell) c,
                                  if isValidPosition W H c
                                  then (setCell acc.1 c (Z.of_nat i + 1), {[c]} ∪ acc.2)
                                  else acc) acc l).1 d =
            if decide (d ∈ l ∧ isValidPosition W H d = true)
            then (λ _, Z.of_nat i + 1) <$> gridAt acc.1 d
            else gridAt acc.1 d) as Hfold.
  { induction l as [|c l IH]; intros acc; cbn [foldl].
    - case_decide as Hd; [|done]. destruct Hd as [Hd _]. by apply elem_of_nil in Hd.
    - rewrite IH. destruct (isValidPosition W H c) eqn:Ev; cbn [fst].
      + rewrite gridAt_setCell.
        repeat case_decide; subst; try done;
          try (by destruct (gridAt acc.1 d));
          exfalso; repeat match goal with
                          | H : ¬ (_ ∧ _) |- _ => apply H; split; [|done]
                          | H : _ ∧ _ |- _ => destruct H
                          | H : _ ∈ _ :: _ |- _ => apply elem_of_cons in H as [?|?]
                          | |- _ ∈ _ :: _ => apply elem_of_cons
                          end; eauto; congruence.
      + repeat case_decide; try done;
          exfalso; repeat match goal with
                          | H : ¬ (_ ∧ _) |- _ => apply H; split; [|done]
                          | H : _ ∧ _ |- _ => destruct H
                          | H : _ ∈ _ :: _ |- _ => apply elem_of_cons in H as [?|?]
                          | |- _ ∈ _ :: _ => apply elem_of_cons
                          end; eauto; congruence. }
  specialize (Hfold (startSquare (default (0, 0) (startPositions W H !! i))) (gr, ∅)).
  destruct (foldl _ _ _) as [gr' terr]. exact Hfold.
Qed.

Lemma createPlayers_unowned W H random l st d :
  is_Some (gridAt st.1.1 d) → isValidPosition W H d = true →
  gridAt (foldl (createPlayer W H random) st l).1.1 d = Some 0
  ↔ gridAt st.1.1 d = Some 0
    ∧ ∀ i, i ∈ l → d ∉ startSquare (default (0, 0) (startPositions W H !! i)).
Proof.
  revert st. induction l as [|i l IH]; intros [[gr ps] n] Hsome Hv; cbn [foldl fst snd] in *.
  - split; [|by intros [? _]]. intros ?. split; [done|]. by intros i ?%elem_of_nil.
  - pose proof (createPlayer_grid W H random gr ps n i d) as Hg.
    rewrite IH; [|by rewrite Hg; case_decide; [destruct Hsome as [? ->]|]|done].
    rewrite Hg. destruct Hsome as [o Ho]. rewrite Ho.
    case_decide as Hd; simpl.
    + split; [intros [[=] _]; lia|]. intros [_ Hall]. destruct (Hall i); [by left|apply Hd].
    + split; intros [-> Hall]; (split; [done|]).
      * intros j [->|Hj]%elem_of_cons; [|by apply Hall]. intros Hin. by apply Hd.
      * intros j Hj. apply Hall. by right.
Qed.

Lemma column_path W H gr x (k : nat) :
  (∀ y, 0 ≤ y ≤ Z.of_nat k → unowned W H gr (x, y)) →
  sameRegion W H gr (x, Z.of_nat k) (x, 0).
Proof.
  induction k as [|k IH]; intros Hcol; [apply rtc_refl|].
  eapply rtc_l; [|apply IH; intros y Hy; apply Hcol; lia].
  split; [|apply Hcol; lia]. left. cbn [fst snd]. f_equal. lia.
Qed.

Lemma row_path W H gr y (k : nat) :
  (∀ x, 0 ≤ x ≤ Z.of_nat k → unowned W H gr (x, y)) →
  sameRegion W H gr (Z.of_nat k, y) (0, y).
Proof.
  induction k as [|k IH]; intros Hrow; [apply rtc_refl|].
  eapply rtc_l; [|apply IH; intros x Hx; apply Hrow; lia].
  split; [|apply Hrow; lia]. right; right; left. cbn [fst snd]. f_equal. lia.
Qed.

Lemma gridAt_zeros W H c :
  0 ≤ W → 0 ≤ H → onBoard W H c →
  gridAt (replicate (Z.to_nat H) (replicate (Z.to_nat W) 0)) c = Some 0.
Proof.
  intros HW HH [Hx Hy]. unfold gridAt.
  replace ((0 <=? c.1) && (0 <=? c.2)) with true by (symmetry; apply andb_true_iff; lia).
  rewrite lookup_replicate_2 by lia. simpl. rewrite lookup_replicate_2 by lia. done.
Qed.

Lemma noPocket_initializeGame random now st : noPocket (initializeGame random now st).1.
Proof.
  destruct st as [g n]. unfold initializeGame, noPocket.
  set (W := mapWidth g). set (H := mapHeight g).
  pose proof (createPlayers_unowned W H random (seq 0 4)
                (replicate (Z.to_nat H) (replicate (Z.to_nat W) 0), [], n)) as Hgrid.
  destruct (foldl _ _ _) as [[gr ps] n']. cbn [fst snd mapWidth mapHeight grid] in *.
  assert (∀ d, onBoard W H d →
            (gridAt gr d = Some 0 ↔
             ¬ ((4 ≤ d.1 ≤ 6 ∨ W - 7 ≤ d.1 ≤ W - 5) ∧ (4 ≤ d.2 ≤ 6 ∨ H - 7 ≤ d.2 ≤ H - 5))))
    as Hzero.
  { intros d Hd. destruct Hd as [Hx Hy].
    rewrite Hgrid;
      [|rewrite gridAt_zeros by (unfold onBoard; lia); by eexists
       |unfold isValidPosition; repeat (apply andb_true_iff; split); lia].
    rewrite gridAt_zeros by (unfold onBoard; lia). split.
    - intros [_ Hall] [Hc Hr].
      pose proof (Hall 0%nat ltac:(repeat constructor)) as H0.
      pose proof (Hall 1%nat ltac:(repeat constructor)) as H1.
      pose proof (Hall 2%nat ltac:(repeat constructor)) as H2.
      pose proof (Hall 3%nat ltac:(repeat constructor)) as H3.
      rewrite elem_of_startSquare in H0, H1, H2, H3.
      unfold startPositions in *. cbn in H0, H1, H2, H3. lia.
    - intros Hn. split; [done|]. intros i Hi. rewrite elem_of_startSquare.
      repeat (apply elem_of_cons in Hi as [Hi|Hi]; [subst i; unfold startPositions; cbn; lia|]).
      by apply elem_of_nil in Hi. }
  intros [x y] [Hon Hc]. pose proof Hon as [Hx Hy]. cbn [fst snd] in *.
  apply (Hzero (x, y) Hon) in Hc. cbn [fst snd] in Hc.
  destruct (decide (4 ≤ x ≤ 6 ∨ W - 7 ≤ x ≤ W - 5)) as [Hcol|Hcol].
  - assert (¬ (4 ≤ y ≤ 6 ∨ H - 7 ≤ y ≤ H - 5)) as Hrow by tauto.
    exists (0, y). split; [|unfold isBorder; cbn [fst snd]; change (0 =? 0) with true; done].
    replace x with (Z.of_nat (Z.to_nat x)) at 1 by lia. apply row_path.
    intros x' Hx'. assert (onBoard W H (x', y)) as Hon' by (unfold onBoard; cbn; lia).
    split; [done|]. apply (Hzero _ Hon'). cbn [fst snd]. tauto.
  - exists (x, 0). split; [|unfold isBorder; cbn [fst snd]; change (0 =? 0) with true; by rewrite ?orb_true_r].
    replace y with (Z.of_nat (Z.to_nat y)) at 1 by lia. apply column_path.
    intros y' Hy'. assert (onBoard W H (x, y')) as Hon' by (unfold onBoard; cbn; lia).
    split; [done|]. apply (Hzero _ Hon'). cbn [fst snd]. tauto.
Qed.

Lemma idsNonzero_updPlayer g i f :
  (∀ p, pid (f p) = pid p) → idsNonzero g → idsNonzero (updPlayer i f g).
Proof.
  intros Hf Hids q (j & Hj)%list_elem_of_lookup_1. simpl in Hj.
  destruct (decide (j = i)) as [->|Hji].
  - rewrite list_lookup_alter_eq in Hj.
    destruct (players g !! i) as [q0|] eqn:Hq0; [|done]. injection Hj as <-.
    rewrite Hf. apply Hids. by apply list_elem_of_lookup_2 in Hq0.
  - rewrite list_lookup_alter_ne in Hj by done.
    apply Hids. by apply list_elem_of_lookup_2 in Hj.
Qed.

Lemma noPocket_run random now st0 events :
  noPocket (run random (initializeGame random now st0) events).1.
Proof.
  apply (Inv_run (λ g, idsNonzero g ∧ noPocket g) (λ _ _, True)); try done.
  - intros r t st _. split; [apply idsNonzero_initializeGame|apply noPocket_initializeGame].
  - intros g i d p _ _ [Hids Hnp]. split; [by apply idsNonzero_updPlayer|done].
  - intros g i t [Hids Hnp]. split; [by apply idsNonzero_updPlayer|done].
  - intros g i p Hp _ _ [Hids Hnp]. split.
    + pose proof (TurnOf_movePlayer i g) as Hturn.
      intros q (j & Hj)%list_elem_of_lookup_1.
      destruct (decide (j = i)) as [->|Hji].
      * destruct (to_player _ _ _ Hturn p Hp) as (p' & Hp' & Hid & _).
        assert (q = p') as -> by congruence. rewrite Hid.
        apply Hids. by apply list_elem_of_lookup_2 in Hp.
      * rewrite (to_others _ _ _ Hturn j Hji) in Hj.
        apply Hids. by apply list_elem_of_lookup_2 in Hj.
    + destruct (movePlayer_cases g i p Hp) as [[_ ->]|[[Hv ->]|(Hv & _ & _ & ->)]].
      * by rewrite eliminatePlayer_eq.
      * done.
      * intros c. cbn [mapWidth mapHeight grid updPlayer setPlayers setGrid].
        unfold claimedBoard. apply floodFillTerritory_border_kept.
        apply Hids. by apply list_elem_of_lookup_2 in Hp.
  - intros g [Hids Hnp]. split; [|done]. intros q Hq. simpl in Hq.
    rewrite <- (stableSort_Permutation smallerTerritory (players g)) in Hq. by apply Hids.
Qed.

(** ** Players that are out *)

Lemma updatePlayer_dead random currentTime g n i j p :
  players g !! j = Some p → alive p = false →
  players (updatePlayer random currentTime (g, n) i).1 !! j = Some p.
Proof.
  intros Hp Hal. destruct (decide (i = j)) as [->|Hij].
  - unfold updatePlayer. rewrite Hp, Hal. done.
  - rewrite (to_others _ _ _ (TurnOf_updatePlayer random currentTime i g n) j); [done|].
    by intros ->.
Qed.

Lemma updatePlayers_dead random currentTime st j p :
  players st.1 !! j = Some p → alive p = false →
  players (updatePlayers random currentTime st).1 !! j = Some p.
Proof.
  unfold updatePlayers. generalize (seq 0 (length (players st.1))). intros l. revert st.
  induction l as [|i l IH]; intros [g n] Hp Hal; [done|]. cbn [foldl].
  pose proof (updatePlayer_dead random currentTime g n i j p Hp Hal) as Hp1.
  destruct (updatePlayer random currentTime (g, n) i) as [g1 n1]. by apply IH.
Qed.

Lemma keydown_dead key g j p :
  players g !! j = Some p → alive p = false → players (keydown key g) !! j = Some p.
Proof.
  intros Hp Hal. rewrite keydown_eq. destruct (negb (gameRunning g)); [done|].
  destruct (players g !! 0%nat) as [player|] eqn:Hp0; [|done].
  destruct (alive player) eqn:Hal0; [|done]. cbn [negb]. simpl.
  destruct j as [|j]; [congruence|]. by rewrite list_lookup_alter_ne.
Qed.

Lemma step_dead random st e p :
  isRestart e = false → p ∈ players st.1 → alive p = false →
  p ∈ players (step random st e).1.
Proof.
  destruct e as [currentTime now|key|now]; [| |done]; intros _ (j & Hp)%list_elem_of_lookup_1 Hal;
    simpl.
  - unfold gameLoop. destruct (gameRunning st.1); [|by apply list_elem_of_lookup_2 in Hp].
    pose proof (updatePlayers_dead random currentTime st j p Hp Hal) as Hp1.
    destruct (updatePlayers random currentTime st) as [g1 n1]. cbn [fst] in Hp1.
    apply list_elem_of_lookup_2 in Hp1.
    by rewrite <- (proj1 (checkGameEnd_frame now g1)).
  - apply (list_elem_of_lookup_2 _ j). by apply keydown_dead.
Qed.

(** X9. A player that is out stays as it is: over any frames and key
    presses without a restart, the player object, with [alive] false, its
    position, its empty trail and its territory set, is still in the array,
    unchanged. *)
Theorem eliminated_player_stays random st events p :
  noRestart events → p ∈ players st.1 → alive p = false →
  p ∈ players (run random st events).1.
Proof.
  intros Hev. unfold run. revert st.
  induction Hev as [|e events He _ IH]; intros st Hp Hal; [done|]. cbn [foldl].
  apply IH; [|done]. by apply step_dead.
Qed.

(** ** A step that is not valid *)

Lemma isValidMove_blocked g player c :
  ¬ onBoard (mapWidth g) (mapHeight g) c
  ∨ (∃ owner, gridAt (grid g) c = Some owner ∧ owner ≠ 0 ∧ owner ≠ pid player)
  ∨ c ∈ trail player
  ∨ (∃ other, other ∈ players g ∧ pid other ≠ pid player ∧ alive other = true
              ∧ c ∈ trail other) →
  isValidMove g player c = false.
Proof.
  intros Hb. unfold isValidMove.
  destruct ((c.1 <? 0) || (mapWidth g <=? c.1) || (c.2 <? 0) || (mapHeight g <=? c.2))
    eqn:Eb; [done|].
  destruct Hb as [Hoff|[(owner & Ho & H0 & Hid)|[Hown|(other & Hin & Hid & Hal & Ht)]]].
  - destruct Hoff. repeat (apply orb_false_iff in Eb as [Eb ?]). unfold onBoard. lia.
  - rewrite Ho. apply Z.eqb_neq in H0, Hid. by rewrite H0, Hid.
  - destruct (match gridAt (grid g) c with Some _ => _ | None => _ end); [done|].
    apply trailHas_elem_of in Hown. by rewrite Hown.
  - destruct (match gridAt (grid g) c with Some _ => _ | None => _ end); [done|].
    destruct (trailHas (trail player) c); [done|].
    apply negb_false_iff, existsb_exists. exists other.
    split; [by apply list_elem_of_In|]. apply Z.eqb_neq in Hid.
    rewrite Hid, Hal. simpl. by apply trailHas_elem_of.
Qed.

(** X10. A step of [movePlayer] whose target is off the board, is owned by
    another player, is in the own trail or is in the trail of another living
    player puts the moving player out where it stands, with an empty trail;
    every other player, the owner of the trail among them, and the grid are
    as before. *)
Theorem movePlayer_collision g i p :
  let target := (px p + (direction p).1, py p + (direction p).2) in
  players g !! i = Some p →
  ¬ onBoard (mapWidth g) (mapHeight g) target
  ∨ (∃ owner, gridAt (grid g) target = Some owner ∧ owner ≠ 0 ∧ owner ≠ pid p)
  ∨ target ∈ trail p
  ∨ (∃ other, other ∈ players g ∧ pid other ≠ pid p ∧ alive other = true
              ∧ target ∈ trail other) →
  players (movePlayer g i) !! i = Some (setTrail [] (setAlive false p))
  ∧ (∀ j, j ≠ i → players (movePlayer g i) !! j = players g !! j)
  ∧ grid (movePlayer g i) = grid g.
Proof.
  intros target Hp Hb. apply isValidMove_blocked in Hb.
  unfold movePlayer. rewrite Hp. fold target. rewrite Hb. cbn [negb].
  rewrite eliminatePlayer_eq. simpl. split; [by rewrite list_lookup_alter_eq, Hp|].
  split; [|done]. intros j Hj. by rewrite list_lookup_alter_ne.
Qed.

(** ** The direction that [updateAI] sets *)

Lemma floorNthFrom_elem {A} k v (l : list A) d : floorNthFrom k v l = Some d → d ∈ l.
Proof.
  revert k. induction l as [|a l IH]; intros k; simpl; [done|].
  destruct (_ && _)%bool.
  - intros [= ->]. by left.
  - intros Hd. right. by apply (IH (S k)).
Qed.

Lemma updPlayer_same g i p :
  players g !! i = Some p → updPlayer i (setDirection (direction p)) g = g.
Proof.
  intros Hp. unfold updPlayer, setPlayers. destruct g as [W H gr ps run t]. simpl in *.
  f_equal. apply list_eq. intros j. destruct (decide (j = i)) as [->|Hj].
  - rewrite list_lookup_alter_eq, Hp. simpl. by destruct p.
  - by rewrite list_lookup_alter_ne.
Qed.

(** X11. [updateAI] changes nothing but the direction of its player, and
    calls [Math.random()] at most twice. A player that stands still keeps
    standing or gets one of the four directions. A player that moves keeps
    its direction, or gets one of the four directions that is not the
    reverse of its direction and whose next cell is a valid move. *)
Theorem updateAI_direction random n g i p :
  players g !! i = Some p →
  ∃ d, (updateAI random n g i).1 = updPlayer i (setDirection d) g
       ∧ (n ≤ (updateAI random n g i).2 ≤ n + 2)%nat
       ∧ (direction p = (0, 0) → d = (0, 0) ∨ d ∈ directions)
       ∧ (direction p ≠ (0, 0) →
          d = direction p
          ∨ (d ∈ directions ∧ d ≠ opposite (direction p)
             ∧ isValidMove g p (px p + d.1, py p + d.2) = true)).
Proof.
  intros Hp.
  assert (∀ r arr, ∃ d, pickDirection r arr i g = updPlayer i (setDirection d) g
                        ∧ (d = direction p ∨ d ∈ arr)) as Hpick.
  { intros r arr. unfold pickDirection. destruct (floorNth _ arr) as [d|] eqn:Ed.
    - exists d. split; [done|]. right. by apply floorNthFrom_elem in Ed.
    - exists (direction p). split; [by rewrite updPlayer_same|by left]. }
  unfold updateAI. rewrite Hp.
  destruct (((direction p).1 =? 0) && ((direction p).2 =? 0)) eqn:Ez.
  - apply andb_true_iff in Ez as [Hx%Z.eqb_eq Hy%Z.eqb_eq].
    assert (direction p = (0, 0)) as Hd0 by (destruct (direction p); simpl in *; congruence).
    destruct (Hpick (random n) directions) as (d & -> & Hd). exists d.
    split; [done|]. split; [simpl; lia|]. split; [|done].
    intros _. destruct Hd as [->|?]; [by left|by right].
  - assert (direction p ≠ (0, 0)) as Hd0.
    { intros Heq. rewrite Heq in Ez. done. }
    destruct (isValidMove g p (px p + (direction p).1, py p + (direction p).2)
              && PrimFloat.ltb (random n) 0x1.ccccccccccccdp-1) eqn:Ekeep.
    + exists (direction p). split; [by rewrite updPlayer_same|]. split; [simpl; lia|].
      split; [done|]. by left.
    + set (n' := if isValidMove g p (px p + (direction p).1, py p + (direction p).2)
                 then S n else n).
      assert (n ≤ n' ≤ S n)%nat as Hn' by (unfold n'; destruct (isValidMove _ _ _); lia).
      set (safe := filter _ directions).
      destruct (0 <? length safe)%nat.
      * destruct (Hpick (random n') safe) as (d & -> & Hd). exists d.
        split; [done|]. split; [simpl; lia|]. split; [done|]. intros _.
        destruct Hd as [->|Hd]; [by left|right].
        apply list_elem_of_filter in Hd as [Hsafe Hd]. split; [done|].
        apply Is_true_true, andb_true_iff in Hsafe as [Hv Hrev]. split; [|done].
        intros ->. unfold opposite in Hrev. cbn [fst snd] in Hrev.
        by rewrite !Z.eqb_refl in Hrev.
      * exists (direction p). split; [by rewrite updPlayer_same|]. split; [simpl; lia|].
        split; [done|]. by left.
Qed.

(** ** The key listener *)

Lemma keydownListener_session random now st0 events key :
  keydownListener key (run random (initializeGame random now st0) events).1 ≠ None.
Proof.
  set (g := (run random (initializeGame random now st0) events).1).
  unfold keydownListener. destruct (gameRunning g) eqn:Hrun; cbn [negb]; [|done].
  pose proof (run_seats random now st0 events Hrun) as Hs. fold g in Hs.
  destruct (players g !! 0%nat) as [player|] eqn:Hp.
  - by destruct (negb (alive player)).
  - apply (f_equal length) in Hs. unfold seats in Hs. rewrite length_map in Hs.
    apply lookup_ge_None in Hp. simpl in Hs. lia.
Qed.

(** X12. The key listener returns at once, and leaves the game as it is,
    when the game is not running. In a running game it raises a [TypeError]
    when there is no player at index 0, and leaves the game as it is when
    this player is out. Otherwise it changes only the direction of the player
    at index 0, to the direction of the key or not at all, and never to the
    reverse of a direction the player moves in. Two key presses between two
    frames do reverse it: moving right, up and then left gives left. In a
    session started by [initializeGame] the listener never raises. *)
Theorem keydown_direction key g :
  (gameRunning g = false → keydownListener key g = Some g)
  ∧ (gameRunning g = true → players g !! 0%nat = None → keydownListener key g = None)
  ∧ (∀ p, players g !! 0%nat = Some p → alive p = false → keydownListener key g = Some g)
  ∧ (∀ p, players g !! 0%nat = Some p →
          ∃ d, keydownListener key g = Some (updPlayer 0 (setDirection d) g)
               ∧ (d = direction p ∨ keyDirection key = Some d)
               ∧ (direction p ∈ directions → d ≠ opposite (direction p)))
  ∧ (∀ p, gameRunning g = true → players g !! 0%nat = Some p → alive p = true →
          direction p = (1, 0) →
          players (keydown ArrowLeft (keydown ArrowUp g)) !! 0%nat
          = Some (setDirection (-1, 0) p))
  ∧ (∀ random now st0 events,
       keydownListener key (run random (initializeGame random now st0) events).1 ≠ None).
Proof.
  split; [|split; [|split; [|split; [|split]]]].
  - intros Hoff. unfold keydownListener. by rewrite Hoff.
  - intros Hrun Hp. unfold keydownListener. by rewrite Hrun, Hp.
  - intros p Hp Hal. unfold keydownListener. rewrite Hp, Hal.
    by destruct (negb (gameRunning g)).
  - intros p Hp. unfold keydownListener. rewrite Hp.
    assert (∃ d, Some g = Some (updPlayer 0 (setDirection d) g)
                 ∧ (d = direction p ∨ keyDirection key = Some d)
                 ∧ (direction p ∈ directions → d ≠ opposite (direction p))) as Hsame.
    { exists (direction p). split; [by rewrite updPlayer_same|]. split; [by left|].
      unfold directions, opposite. intros Hd.
      repeat (apply elem_of_cons in Hd as [Hd|Hd]; [rewrite Hd; done|]).
      by apply elem_of_nil in Hd. }
    destruct (negb (gameRunning g)); [done|]. destruct (negb (alive p)); [done|].
    eexists. split; [reflexivity|]. destruct (direction p) as [dx dy] eqn:Ed.
    unfold opposite, directions. cbn [fst snd].
    destruct key; cbn [keyDirection];
      repeat match goal with
             | |- context [negb (?a =? ?b)] =>
                 destruct (Z.eqb_spec a b); cbn [negb]
             end;
      (split; [by (left + right)|]); intros Hd;
      repeat (apply elem_of_cons in Hd as [Hd|Hd]; [injection Hd as -> ->; try done; try lia|]);
      try (by apply elem_of_nil in Hd).
  - intros p Hrun Hp Hal Hd. rewrite (keydown_eq ArrowUp g). rewrite Hrun, Hp, Hal, Hd. cbn.
    rewrite keydown_eq. cbn. rewrite Hrun. cbn. rewrite list_lookup_alter_eq, Hp. cbn.
    rewrite Hal. cbn. rewrite list_lookup_alter_eq, list_lookup_alter_eq, Hp. cbn.
    by destruct p.
  - intros random now st0 events. apply keydownListener_session.
Qed.

Lemma territoryFill_owner g x y owner p :
  gridAt (grid g) (Z.of_nat x, Z.of_nat y) = Some owner →
  players g !! Z.to_nat (owner - 1) = Some p → 0 < owner →
  territoryFill g x y = FillStyle (color p ++ "80").
Proof.
  unfold gridAt, territoryFill. cbn [fst snd].
  replace ((0 <=? Z.of_nat x) && (0 <=? Z.of_nat y)) with true
    by (symmetry; apply andb_true_iff; split; apply Z.leb_le; lia).
  rewrite !Nat2Z.id. destruct (grid g !! y) as [row|]; [|done]. simpl.
  intros -> -> Ho. by apply Z.ltb_lt in Ho as ->.
Qed.

Lemma running_owner random now st0 events c owner :
  let g := (run random (initializeGame random now st0) events).1 in
  gameRunning g = true → gridAt (grid g) c = Some owner → owner ≠ 0 →
  ∃ p, players g !! Z.to_nat (owner - 1) = Some p ∧ pid p = owner ∧ 0 < owner
       ∧ c ∈ territory p.
Proof.
  intros g Hrun Hc Ho.
  destruct (ownersInTerritory_run random now st0 events c owner Hc Ho)
    as (p & (j & Hj)%list_elem_of_lookup_1 & Hid & Hin).
  destruct (seats_human g j p (run_seats random now st0 events Hrun) Hj) as [_ Hpid].
  exists p. replace (Z.to_nat (owner - 1)) with j by lia. split; [done|].
  split; [done|]. split; [lia|done].
Qed.

(** X13. The pass of [render] that draws the territories reads the colour
    of [this.players[owner - 1]]. While a game started by [initializeGame]
    is running, this is the colour of a player whose id is the owner of the
    cell. After the end of the game it need not be: in the session of the
    example, once player 1 is out and the time limit has passed, the cell
    (5, 5) of player 1 is filled with the colour of player 2. *)
Theorem render_territory_colour :
  (∀ random now st0 events x y owner,
     let g := (run random (initializeGame random now st0) events).1 in
     gameRunning g = true →
     gridAt (grid g) (Z.of_nat x, Z.of_nat y) = Some owner → owner ≠ 0 →
     ∃ p, p ∈ players g ∧ pid p = owner
          ∧ territoryFill g x y = FillStyle (color p ++ "80"))
  ∧ (∃ random now st0 events x y p q,
       let g := (run random (initializeGame random now st0) events).1 in
       gameRunning g = false
       ∧ gridAt (grid g) (Z.of_nat x, Z.of_nat y) = Some (pid p)
       ∧ p ∈ players g ∧ q ∈ players g ∧ color q ≠ color p
       ∧ territoryFill g x y = FillStyle (color q ++ "80")).
Proof.
  split.
  - intros random now st0 events x y owner g Hrun Hc Ho.
    destruct (running_owner random now st0 events _ owner Hrun Hc Ho)
      as (p & Hp & Hid & Hpos & _).
    exists p. split; [by apply list_elem_of_lookup_2 in Hp|]. split; [done|].
    by apply (territoryFill_owner g x y owner).
  - exists sessionRandom, 0%float, (mkGame 14 14 [] [] false 0, 0%nat),
      (sessionEvents ++ [KeyDown ArrowRight; Frame 9000 9000; Frame 200000 200000]),
      5%nat, 5%nat.
    assert (∃ p q, players (run sessionRandom
                      (initializeGame sessionRandom 0 (mkGame 14 14 [] [] false 0, 0%nat))
                      (sessionEvents ++ [KeyDown ArrowRight; Frame 9000 9000;
                                         Frame 200000 200000])).1 !! 1%nat = Some p
                 ∧ players (run sessionRandom
                      (initializeGame sessionRandom 0 (mkGame 14 14 [] [] false 0, 0%nat))
                      (sessionEvents ++ [KeyDown ArrowRight; Frame 9000 9000;
                                         Frame 200000 200000])).1 !! 0%nat = Some q)
      as (p & q & Hp & Hq).
    { do 2 eexists. split; vm_compute; reflexivity. }
    exists p, q. cbv zeta.
    assert (color p = "#FF6B6B"%string ∧ color q = "#4ECDC4"%string ∧ pid p = 1)
      as (Hcp & Hcq & Hid).
    { revert Hp Hq. vm_compute. intros [= <-] [= <-]. done. }
    split; [vm_compute; reflexivity|]. split; [rewrite Hid; vm_compute; reflexivity|].
    split; [by apply list_elem_of_lookup_2 in Hp|].
    split; [by apply list_elem_of_lookup_2 in Hq|].
    split; [by rewrite Hcp, Hcq|]. rewrite Hcq. vm_compute. reflexivity.
Qed.

Lemma isValidPosition_onBoard W H c : isValidPosition W H c = true ↔ onBoard W H c.
Proof.
  unfold isValidPosition, onBoard. rewrite !andb_true_iff, !Z.leb_le, !Z.ltb_lt. lia.
Qed.

Lemma createPlayer_created W H random gr ps n i :
  ∃ gr' p n', createPlayer W H random (gr, ps, n) i = (gr', ps ++ [p], n')
              ∧ createdPlayer W H i p.
Proof.
  unfold createPlayer. destruct (if (i =? 0)%nat then _ else _) as [interval n'].
  assert (∀ l (acc : list (list Z) * gset Cell) c,
            c ∈ (foldl (λ (acc : list (list Z) * gset Cell) c,
                                  if isValidPosition W H c
                                  then (setCell acc.1 c (Z.of_nat i + 1), {[c]} ∪ acc.2)
                                  else acc) acc l).2
            ↔ (c ∈ l ∧ onBoard W H c) ∨ c ∈ acc.2) as Hfold.
  { induction l as [|d l IH]; intros acc c; cbn [foldl].
    - rewrite elem_of_nil. tauto.
    - rewrite IH, elem_of_cons. destruct (isValidPosition W H d) eqn:Ev; cbn [snd].
      + apply isValidPosition_onBoard in Ev. rewrite elem_of_union, elem_of_singleton.
        split; [intros [?|[->|?]]|intros [[[->|?] ?]|?]]; tauto.
      + split; [tauto|]. intros [[[->|?] Hon]|?]; [|tauto|tauto].
        apply isValidPosition_onBoard in Hon. congruence. }
  specialize (Hfold (startSquare (default (0, 0) (startPositions W H !! i))) (gr, ∅)).
  destruct (foldl _ _ _) as [gr' terr]. do 3 eexists. split; [reflexivity|].
  unfold createdPlayer. cbn [pid isHuman alive trail direction px py territory fst snd] in *.
  split; [done|]. split; [by rewrite Nat.eqb_eq|]. do 3 (split; [done|]).
  split; [by destruct (default _ _)|]. intros c. rewrite Hfold, elem_of_empty. tauto.
Qed.

(** X4. [initializeGame] leaves a running game that started at [now], with
    the dimensions it found. A cell of the board is unowned exactly if it is
    in none of the four 3x3 squares around the start positions. There are
    four players; the one at index [i] has the id [i + 1], is the human
    player exactly for [i = 0], is alive, stands still on its start position
    with an empty trail, and its territory set is the part of its square
    that is on the board (also where a later square has taken the cell in
    the grid). *)
Theorem initializeGame_layout random now st :
  let W := mapWidth st.1 in
  let H := mapHeight st.1 in
  let g := (initializeGame random now st).1 in
  gameRunning g = true ∧ gameStartTime g = now ∧ mapWidth g = W ∧ mapHeight g = H
  ∧ (∀ d, onBoard W H d →
          (gridAt (grid g) d = Some 0
           ↔ ∀ i, (i < 4)%nat → d ∉ startSquare (default (0, 0) (startPositions W H !! i))))
  ∧ length (players g) = 4%nat
  ∧ (∀ i p, players g !! i = Some p → createdPlayer W H i p).
Proof.
  destruct st as [g n]. cbn [fst]. unfold initializeGame.
  set (W := mapWidth g). set (H := mapHeight g).
  pose proof (createPlayers_unowned W H random (seq 0 4)
                (replicate (Z.to_nat H) (replicate (Z.to_nat W) 0), [], n)) as Hgrid.
  cbn [seq foldl] in *.
  destruct (createPlayer_created W H random
              (replicate (Z.to_nat H) (replicate (Z.to_nat W) 0)) [] n 0)
    as (gr1 & p1 & n1 & E1 & Hp1).
  rewrite E1 in *.
  destruct (createPlayer_created W H random gr1 ([] ++ [p1]) n1 1)
    as (gr2 & p2 & n2 & E2 & Hp2).
  rewrite E2 in *.
  destruct (createPlayer_created W H random gr2 (([] ++ [p1]) ++ [p2]) n2 2)
    as (gr3 & p3 & n3 & E3 & Hp3).
  rewrite E3 in *.
  destruct (createPlayer_created W H random gr3 ((([] ++ [p1]) ++ [p2]) ++ [p3]) n3 3)
    as (gr4 & p4 & n4 & E4 & Hp4).
  rewrite E4 in *. cbn [fst snd gameRunning gameStartTime mapWidth mapHeight grid players] in *.
  do 4 (split; [done|]). split; [|split; [done|]].
  - intros d Hd.
    rewrite Hgrid;
      [|rewrite gridAt_zeros by (destruct Hd; unfold onBoard; lia); by eexists
       |by apply isValidPosition_onBoard].
    rewrite gridAt_zeros by (destruct Hd; unfold onBoard; lia). split.
    + intros [_ Hall] i Hi. apply Hall. change (i ∈ seq 0 4). apply elem_of_seq. lia.
    + intros Hall. split; [done|]. intros i Hi. change (i ∈ seq 0 4) in Hi.
      apply elem_of_seq in Hi. apply Hall. lia.
  - intros i p Hp. destruct i as [|[|[|[|i]]]]; simpl in Hp; [| | | |done];
      injection Hp as <-; done.
Qed.

(** ** What holds in every state of a session *)

(** X5. On a board of at least 6 by 6 cells, in every state that a session
    reaches from [initializeGame] by frames, key presses and restarts, the
    dimensions are the first ones, the grid has [mapHeight] rows of
    [mapWidth] cells, and every player stands on the board with a trail that
    is on the board: the reads and writes [this.grid[y][x]] of the engine
    stay in range. *)
Theorem session_on_board random now st0 events :
  let W := mapWidth st0.1 in
  let H := mapHeight st0.1 in
  let g := (run random (initializeGame random now st0) events).1 in
  6 ≤ W → 6 ≤ H →
  mapWidth g = W ∧ mapHeight g = H ∧ wf_grid W H (grid g)
  ∧ ∀ p, p ∈ players g →
         onBoard W H (px p, py p) ∧ ∀ c, c ∈ trail p → onBoard W H c.
Proof.
  intros W H g HW HH. destruct (BoardInv_run random now st0 events HW HH) as [Hw Hh Hgr Hps].
  do 3 (split; [done|]). intros p Hp. rewrite Forall_forall in Hps.
  destruct (Hps p Hp) as [Hpos Ht]. split; [done|]. by apply Forall_forall.
Qed.

(** X6. In every state of a session, a cell that the grid gives to the
    owner [owner], other than 0, is in the territory set of a player with
    the id [owner]: the score of a player counts every cell that the grid
    shows as its own. *)
Theorem session_owned_cells random now st0 events c owner :
  let g := (run random (initializeGame random now st0) events).1 in
  gridAt (grid g) c = Some owner → owner ≠ 0 →
  ∃ p, p ∈ players g ∧ pid p = owner ∧ c ∈ territory p.
Proof. apply ownersInTerritory_run. Qed.

(** X7. On a board of at least 6 by 6 cells, where every player starts on
    the board and so every write of the grid is in range, in every state of
    a session the trail of a player has no cell twice, does not contain the
    cell the player stands on, contains no cell of the player's territory
    set, and is empty if the player is out. *)
Theorem session_trails random now st0 events p :
  let g := (run random (initializeGame random now st0) events).1 in
  6 ≤ mapWidth st0.1 → 6 ≤ mapHeight st0.1 →
  p ∈ players g →
  NoDup (trail p) ∧ ((px p, py p) ∉ trail p)
  ∧ (∀ c, c ∈ trail p → c ∉ territory p)
  ∧ (alive p = false → trail p = []).
Proof.
  intros g _ _ Hp. pose proof (trailInv_run random now st0 events) as Hall.
  rewrite Forall_forall in Hall. by apply Hall.
Qed.

(** X8. In every state of a session there is no pocket: from every
    unowned cell of the board a path of unowned cells leads to a border
    cell. *)
Theorem session_no_pocket random now st0 events c :
  let g := (run random (initializeGame random now st0) events).1 in
  unowned (mapWidth g) (mapHeight g) (grid g) c →
  regionHasBorderCell (mapWidth g) (mapHeight g) (grid g) c.
Proof. apply noPocket_run. Qed.

(** ** The properties at the session of the example *)

Lemma session_on_board_witness :
  wf_grid 14 14 (grid sessionAtFrame8.1)
  ∧ ∀ p, p ∈ players sessionAtFrame8.1 →
         onBoard 14 14 (px p, py p) ∧ ∀ c, c ∈ trail p → onBoard 14 14 c.
Proof.
  destruct (session_on_board sessionRandom 0 (mkGame 14 14 [] [] false 0, 0%nat)
              sessionEvents) as (_ & _ & Hgr & Hps); [simpl; lia|simpl; lia|].
  split; [exact Hgr|exact Hps].
Defined.

Lemma session_owned_cells_witness :
  ∃ p, p ∈ players sessionAtFrame8.1 ∧ pid p = 2 ∧ (7, 3) ∈ territory p.
Proof.
  apply (session_owned_cells sessionRandom 0 (mkGame 14 14 [] [] false 0, 0%nat)
           sessionEvents (7, 3) 2); [vm_compute; reflexivity|done].
Defined.

Lemma session_trails_witness :
  NoDup (trail humanAtFrame8) ∧ ((5, 3) ∉ trail humanAtFrame8)
  ∧ (∀ c, c ∈ trail humanAtFrame8 → c ∉ territory humanAtFrame8)
  ∧ (alive humanAtFrame8 = false → trail humanAtFrame8 = []).
Proof.
  apply (session_trails sessionRandom 0 (mkGame 14 14 [] [] false 0, 0%nat)
           sessionEvents humanAtFrame8); [cbn; lia|cbn; lia|].
  apply (list_elem_of_lookup_2 _ 0%nat). vm_compute. reflexivity.
Defined.

Lemma session_no_pocket_witness :
  regionHasBorderCell 14 14 (grid sessionAtFrame8.1) (7, 2).
Proof.
  apply (session_no_pocket sessionRandom 0 (mkGame 14 14 [] [] false 0, 0%nat)
           sessionEvents (7, 2)).
  unfold unowned, onBoard. apply (bool_decide_unpack _). vm_compute. exact I.
Defined.

Lemma getConnectedRegion_region_witness :
  (getConnectedRegion 5 5 ringBoard (2, 2) ∅).1 = [(2, 2)]
  ∧ NoDup (getConnectedRegion 5 5 ringBoard (2, 2) ∅).1
  ∧ getConnectedRegion 5 5 ringBoard (1, 1) ∅ = ([], ∅).
Proof.
  destruct (getConnectedRegion_region 5 5 ringBoard (2, 2) ∅) as (_ & _ & Hreg).
  destruct (getConnectedRegion_region 5 5 ringBoard (1, 1) ∅) as (_ & Hskip & _).
  split; [vm_compute; reflexivity|]. split.
  - apply Hreg.
    + split; [unfold onBoard; simpl; lia|reflexivity].
    + apply not_elem_of_empty.
    + by intros c d ?%elem_of_empty.
  - apply Hskip. left. intros [_ Hc]. vm_compute in Hc. discriminate.
Defined.

Lemma floodFillTerritory_no_pocket_witness :
  regionHasBorderCell 5 5 (floodFillTerritory 5 5 1 ringBoard ∅).1 (0, 0).
Proof.
  apply (floodFillTerritory_no_pocket 5 5 1 ringBoard ∅ (0, 0)); [done|].
  split; [unfold onBoard; simpl; lia|vm_compute; reflexivity].
Defined.

Lemma floodFillTerritory_idempotent_witness :
  floodFillTerritory 5 5 1 (floodFillTerritory 5 5 1 ringBoard ∅).1
                     (floodFillTerritory 5 5 1 ringBoard ∅).2
  = floodFillTerritory 5 5 1 ringBoard ∅.
Proof. apply (floodFillTerritory_idempotent 5 5 1 ringBoard ∅); [apply ringBoard_wf|done]. Defined.

Lemma eliminated_player_stays_witness :
  humanOut ∈ players (run sessionRandom sessionHumanOut
                          [Frame 10000 10000; KeyDown ArrowLeft; Frame 11000 11000]).1.
Proof.
  apply (eliminated_player_stays sessionRandom sessionHumanOut
           [Frame 10000 10000; KeyDown ArrowLeft; Frame 11000 11000] humanOut).
  - repeat constructor.
  - apply (list_elem_of_lookup_2 _ 0%nat). vm_compute. reflexivity.
  - reflexivity.
Defined.

Lemma movePlayer_collision_witness :
  players (movePlayer (keydown ArrowRight sessionAtFrame8.1) 0) !! 0%nat
  = Some (setTrail [] (setAlive false (setDirection (1, 0) humanAtFrame8))).
Proof.
  apply (movePlayer_collision (keydown ArrowRight sessionAtFrame8.1) 0
           (setDirection (1, 0) humanAtFrame8)).
  - vm_compute. reflexivity.
  - right; right; left. simpl. by left.
Defined.

Lemma player2AtFrame8_lookup : players sessionAtFrame8.1 !! 1%nat = Some player2AtFrame8.
Proof. vm_compute. reflexivity. Qed.

Lemma updateAI_direction_witness :
  ∃ d, (updateAI sessionRandom 29 sessionAtFrame8.1 1).1
       = updPlayer 1 (setDirection d) sessionAtFrame8.1
       ∧ (d = (1, 0)
          ∨ (d ∈ directions ∧ d ≠ (-1, 0)
             ∧ isValidMove sessionAtFrame8.1 player2AtFrame8 (9 + d.1, 6 + d.2) = true)).
Proof.
  destruct (updateAI_direction sessionRandom 29 sessionAtFrame8.1 1 player2AtFrame8
              player2AtFrame8_lookup) as (d & Hd & _ & _ & Hmove).
  exists d. split; [exact Hd|]. apply Hmove. discriminate.
Defined.

Lemma keydown_direction_witness :
  keydownListener ArrowUp (mkGame 14 14 [] [] true 0) = None
  ∧ keydownListener ArrowUp sessionHumanOut.1 = Some sessionHumanOut.1
  ∧ players (keydown ArrowLeft (keydown ArrowUp (keydown ArrowRight sessionAtFrame8.1)))
      !! 0%nat
    = Some (setDirection (-1, 0) (setDirection (1, 0) humanAtFrame8)).
Proof.
  split; [|split].
  - apply (proj1 (proj2 (keydown_direction ArrowUp (mkGame 14 14 [] [] true 0))));
      reflexivity.
  - apply (proj1 (proj2 (proj2 (keydown_direction ArrowUp sessionHumanOut.1))) humanOut).
    + vm_compute. reflexivity.
    + reflexivity.
  - apply (proj1 (proj2 (proj2 (proj2 (proj2
             (keydown_direction ArrowUp (keydown ArrowRight sessionAtFrame8.1))))))).
    + vm_compute. reflexivity.
    + vm_compute. reflexivity.
    + reflexivity.
    + reflexivity.
Defined.

Lemma render_territory_colour_witness :
  ∃ p, p ∈ players sessionAtFrame8.1 ∧ pid p = 1
       ∧ territoryFill sessionAtFrame8.1 5 5 = FillStyle (color p ++ "80").
Proof.
  apply (proj1 render_territory_colour sessionRandom 0%float (mkGame 14 14 [] [] false 0, 0%nat)
           sessionEvents 5%nat 5%nat 1); [vm_compute; reflexivity|vm_compute; reflexivity|done].
Defined.

Lemma initializeGame_layout_witness :
  ∃ p, players (initializeGame sessionRandom 0 (mkGame 14 14 [] [] false 0, 0%nat)).1 !! 1%nat
       = Some p
       ∧ createdPlayer 14 14 1 p.
Proof.
  pose proof (initializeGame_layout sessionRandom 0 (mkGame 14 14 [] [] false 0, 0%nat))
    as Hlay.
  cbv zeta in Hlay. cbn [fst mapWidth mapHeight] in Hlay.
  destruct Hlay as (_ & _ & _ & _ & _ & Hlen & Hall).
  destruct (lookup_lt_is_Some_2
              (players (initializeGame sessionRandom 0 (mkGame 14 14 [] [] false 0, 0%nat)).1) 1)
    as [p Hp]; [rewrite Hlen; lia|].
  exists p. split; [exact Hp|]. exact (Hall 1%nat p Hp).
Defined.

End PaperIOGameFacts.

(** * Properties of the continuous engine *)
Module SmoothPaperIOGameFacts.
Import SmoothPaperIOGame.
Open Scope float_scope.

(** ** The game after a key press *)

(** [handleInput] raises its exception before it writes, so the game after
    the event is given by the cases of [handleInput], with the game as it
    was where [this.players[0]] is [undefined]. *)
Lemma afterInput_eq keys g :
  afterInput keys g
  = if negb (gameRunning g) then g
    else match players g !! 0%nat with
         | None => g
         | Some player =>
             if negb (alive player) then g
             else
               let d := direction player in
               let newDirection : Point :=
                 if (keys ArrowUp && negb (PrimFloat.eqb d.2 1))%bool then (0, -1)
                 else if (keys ArrowDown && negb (PrimFloat.eqb d.2 (-1)))%bool then (0, 1)
                 else if (keys ArrowLeft && negb (PrimFloat.eqb d.1 1))%bool then (-1, 0)
                 else if (keys ArrowRight && negb (PrimFloat.eqb d.1 (-1)))%bool then (1, 0)
                 else d in
               updPlayer 0 (setDirection newDirection) g
         end.
Proof.
  unfold afterInput, handleInput. destruct (negb (gameRunning g)); [done|].
  destruct (players g !! 0%nat) as [player|]; [|done]. by destruct (negb (alive player)).
Qed.

(** ** [distanceToLineSegment] *)

(** The difference of a finite number with itself is [+0]. *)
Lemma float_sub_diag (v : float) : PrimFloat.is_finite v = true → v - v = 0.
Proof.
  intros Hfin. apply Prim2SF_inj. rewrite FloatAxioms.sub_spec.
  unfold PrimFloat.is_finite, PrimFloat.is_nan, PrimFloat.is_infinity in Hfin.
  rewrite !FloatAxioms.eqb_spec, FloatAxioms.abs_spec in Hfin.
  destruct (Prim2SF v) as [s|s| |s m e] eqn:E.
  - destruct s; reflexivity.
  - destruct s; discriminate Hfin.
  - discriminate Hfin.
  - unfold SF64sub, SFsub. rewrite Z.sub_diag. reflexivity.
Qed.

(** C9. For a segment whose two end points are the same point, with finite
    coordinates, [distanceToLineSegment] returns the distance from [(x, y)]
    to that point and does not evaluate the division. For every input the
    function returns a number, and it evaluates the division only when the
    length it computed is not zero. *)
Theorem distanceToLineSegment_degenerate :
  (∀ x y (p : Point),
     PrimFloat.is_finite p.1 = true → PrimFloat.is_finite p.2 = true →
     distanceToLineSegmentTraced x y p p
     = (PrimFloat.sqrt (sq (x - p.1) + sq (y - p.2)), false))
  ∧ (∀ x y (p1 p2 : Point),
       (distanceToLineSegmentTraced x y p1 p2).2 = true →
       PrimFloat.eqb
         (PrimFloat.sqrt ((p2.1 - p1.1) * (p2.1 - p1.1) + (p2.2 - p1.2) * (p2.2 - p1.2)))
         0 = false)
  ∧ (∀ x y (p1 p2 : Point),
       ∃ d, distanceToLineSegment x y p1 p2 = d
            ∧ d = (distanceToLineSegmentTraced x y p1 p2).1).
Proof.
  split; [|split].
  - intros x y p H1 H2. unfold distanceToLineSegmentTraced.
    rewrite (float_sub_diag _ H1), (float_sub_diag _ H2). reflexivity.
  - intros x y p1 p2. unfold distanceToLineSegmentTraced.
    destruct (PrimFloat.eqb _ 0); [discriminate|done].
  - intros x y p1 p2. by eexists.
Qed.

Lemma distanceToLineSegment_degenerate_witness :
  distanceToLineSegmentTraced 3 4 (0, 0) (0, 0) = (5, false).
Proof.
  exact (proj1 distanceToLineSegment_degenerate 3 4 (0, 0) eq_refl eq_refl).
Defined.

(** ** [closeTrail] *)

(** C8. [closeTrail] on a trail of fewer than 3 points empties the trail and
    leaves the list of polygons; on a trail of at least 3 points it appends
    the position to the trail, appends the resulting sequence of points as
    one new polygon at the end of the list, and empties the trail. Nothing
    else changes. *)
Theorem closeTrail_effect g i player :
  players g !! i = Some player →
  ∃ player',
    players (closeTrail g i) !! i = Some player'
    ∧ trail player' = []
    ∧ ((List.length (trail player) < 3)%nat → territory player' = territory player)
    ∧ ((3 ≤ List.length (trail player))%nat →
       territory player' = territory player ++ [trail player ++ [(px player, py player)]])
    ∧ player' = setTrail [] (setTerritory (territory player') player)
    ∧ (∀ j, j ≠ i → players (closeTrail g i) !! j = players g !! j)
    ∧ setPlayers (players g) (closeTrail g i) = g.
Proof.
  intros Hp. exists (closeTrailPlayer player). unfold closeTrail.
  split; [simpl; by rewrite list_lookup_alter_eq, Hp|].
  unfold closeTrailPlayer.
  destruct (List.length (trail player) <? 3)%nat eqn:El; simpl.
  - apply Nat.ltb_lt in El. split; [done|]. split; [done|]. split; [lia|].
    split; [by destruct player|]. split; [|by destruct g].
    intros j Hj. by rewrite list_lookup_alter_ne.
  - apply Nat.ltb_ge in El. split; [done|]. split; [lia|]. split; [done|].
    split; [done|]. split; [|by destruct g].
    intros j Hj. by rewrite list_lookup_alter_ne.
Qed.

(** ** [checkCollisions] *)

Lemma isPointNearTrail_nearTrail x y trail d :
  isPointNearTrail x y trail d = true ↔ nearTrail x y trail d.
Proof.
  unfold nearTrail. induction trail as [|p1 trail IH]; simpl.
  { split; [done|]. by intros (k & q1 & q2 & Hk & _). }
  destruct trail as [|p2 trail].
  { split; [done|]. intros (k & q1 & q2 & _ & Hk & _). by destruct k. }
  destruct (PrimFloat.ltb (distanceToLineSegment x y p1 p2) d) eqn:Ed.
  - split; [intros _|done]. by exists 0%nat, p1, p2.
  - rewrite IH. split.
    + intros (k & q1 & q2 & H1 & H2 & Hd). by exists (S k), q1, q2.
    + intros (k & q1 & q2 & H1 & H2 & Hd). destruct k as [|k].
      * simpl in H1, H2. congruence.
      * by exists k, q1, q2.
Qed.

Lemma outsideCanvas_offCanvas g player :
  outsideCanvas g player = true ↔ offCanvas g player.
Proof. unfold outsideCanvas, offCanvas. rewrite !orb_true_iff. tauto. Qed.

Lemma hitsOtherTrail_nearOtherTrail g player :
  hitsOtherTrail g player = true ↔ nearOtherTrail g player.
Proof.
  unfold hitsOtherTrail, nearOtherTrail. rewrite existsb_exists.
  split; intros (q & Hq & Hc); exists q.
  - apply andb_true_iff in Hc as [Hc Hn]. apply negb_true_iff, orb_false_iff in Hc as [Hid Hal].
    apply Z.eqb_neq in Hid. apply negb_false_iff in Hal.
    apply isPointNearTrail_nearTrail in Hn. by apply list_elem_of_In in Hq.
  - destruct Hc as (Hid & Hal & Hn). split; [by apply list_elem_of_In|].
    apply andb_true_iff. split; [|by apply isPointNearTrail_nearTrail].
    apply negb_true_iff, orb_false_iff. split; [by apply Z.eqb_neq|by rewrite Hal].
Qed.

Lemma hitsOwnTrail_nearOwnTrail player :
  hitsOwnTrail player = true ↔ nearOwnTrail player.
Proof.
  unfold hitsOwnTrail, nearOwnTrail.
  by rewrite andb_true_iff, Nat.ltb_lt, isPointNearTrail_nearTrail.
Qed.

(** The examination of the player at index [k] changes this player only. *)
Lemma checkCollision_others g k j :
  j ≠ k → players (checkCollision g k) !! j = players g !! j.
Proof.
  intros Hj. unfold checkCollision.
  destruct (players g !! k) as [player|]; [|done].
  destruct (negb (alive player)); [done|].
  destruct (outsideCanvas g player); [simpl; by rewrite list_lookup_alter_ne|].
  assert (players (if hitsOtherTrail g player then eliminatePlayer g k else g) !! j
          = players g !! j) as Hg1.
  { destruct (hitsOtherTrail g player); [simpl; by rewrite list_lookup_alter_ne|done]. }
  destruct (players (if hitsOtherTrail g player then eliminatePlayer g k else g) !! k)
    as [player1|]; [|done].
  destruct (hitsOwnTrail player1); [|done].
  simpl. by rewrite list_lookup_alter_ne.
Qed.

Lemma checkCollision_canvas g k :
  canvasWidth (checkCollision g k) = canvasWidth g
  ∧ canvasHeight (checkCollision g k) = canvasHeight g.
Proof.
  unfold checkCollision.
  destruct (players g !! k) as [player|]; [|done].
  destruct (negb (alive player)); [done|].
  destruct (outsideCanvas g player); [done|].
  destruct (hitsOtherTrail g player); simpl.
  - destruct (alter _ k (players g) !! k) as [player1|]; [|done].
    by destruct (hitsOwnTrail player1).
  - destruct (players g !! k) as [player1|]; [|done].
    by destruct (hitsOwnTrail player1).
Qed.

Lemma checkCollision_self g i player :
  players g !! i = Some player → alive player = true →
  ∃ player',
    players (checkCollision g i) !! i = Some player'
    ∧ (alive player' = false ↔
         offCanvas g player ∨ nearOtherTrail g player ∨ nearOwnTrail player)
    ∧ (alive player' = false → player' = eliminated player)
    ∧ (alive player' = true → player' = player).
Proof.
  intros Hp Hal.
  assert (offCanvas g player ∨ nearOtherTrail g player ∨ nearOwnTrail player
          ↔ outsideCanvas g player = true ∨ hitsOtherTrail g player = true
            ∨ hitsOwnTrail player = true) as Hb.
  { by rewrite outsideCanvas_offCanvas, hitsOtherTrail_nearOtherTrail,
      hitsOwnTrail_nearOwnTrail. }
  unfold checkCollision. rewrite Hp, Hal. simpl.
  destruct (outsideCanvas g player) eqn:E1.
  { exists (eliminated player). simpl. rewrite list_lookup_alter_eq, Hp. simpl.
    split; [reflexivity|]. rewrite Hb. split; [tauto|]. split; done. }
  destruct (hitsOtherTrail g player) eqn:E2; simpl.
  { rewrite list_lookup_alter_eq, Hp. simpl. exists (eliminated player).
    rewrite list_lookup_alter_eq, Hp. simpl.
    split; [reflexivity|]. rewrite Hb. split; [tauto|]. split; done. }
  rewrite Hp. destruct (hitsOwnTrail player) eqn:E3; simpl.
  - rewrite list_lookup_alter_eq, Hp. simpl. exists (eliminated player).
    split; [reflexivity|]. rewrite Hb. split; [tauto|]. split; done.
  - exists player. split; [done|]. rewrite Hb, Hal. split; [|split; done].
    split; [done|]. intros [?|[?|?]]; done.
Qed.

Lemma checkCollisions_fold_others l g j :
  j ∉ l → players (foldl checkCollision g l) !! j = players g !! j.
Proof.
  revert g. induction l as [|k l IH]; intros g Hj; [done|]. simpl.
  apply not_elem_of_cons in Hj as [Hjk Hj].
  by rewrite IH, checkCollision_others.
Qed.

Lemma checkCollisions_fold_canvas l g :
  canvasWidth (foldl checkCollision g l) = canvasWidth g
  ∧ canvasHeight (foldl checkCollision g l) = canvasHeight g.
Proof.
  revert g. induction l as [|k l IH]; intros g; [done|]. simpl.
  destruct (IH (checkCollision g k)) as [-> ->]. apply checkCollision_canvas.
Qed.

(** [checkCollisions] is the examination of the players before [i], of the
    player at [i], and of the players after it. *)
Lemma checkCollisions_split g i :
  (i < List.length (players g))%nat →
  checkCollisions g
  = foldl checkCollision (checkCollision (checkCollisionsBefore g i) i)
          (seq (S i) (List.length (players g) - S i)).
Proof.
  intros Hi. unfold checkCollisions, checkCollisionsBefore.
  replace (List.length (players g)) with (i + S (List.length (players g) - S i))%nat at 1
    by lia.
  by rewrite seq_app, foldl_app.
Qed.

(** C4, as the code has it. [checkCollisions] examines the players in the
    order of the array. A living player is eliminated exactly when its
    position is outside the canvas, or within [playerSize] of the trail of
    another player that is alive at the moment of the examination, or, with
    an own trail of more than 10 points, within [playerSize] of that trail
    without its last 5 points. At that moment the players before it are as
    [checkCollisions] leaves them (one that was eliminated has an empty
    trail and is not alive) and the others are as at the start. The
    eliminated player is not alive, has an empty trail and the direction
    (0, 0); a player that is not eliminated is unchanged. *)
Theorem checkCollisions_eliminates g i player :
  players g !! i = Some player → alive player = true →
  ∃ player',
    players (checkCollisions g) !! i = Some player'
    ∧ (alive player' = false ↔
         offCanvas g player
         ∨ nearOtherTrail (checkCollisionsBefore g i) player
         ∨ nearOwnTrail player)
    ∧ (alive player' = false → trail player' = [] ∧ direction player' = (0, 0))
    ∧ (alive player' = true → player' = player)
    ∧ (∀ j, (i ≤ j)%nat → players (checkCollisionsBefore g i) !! j = players g !! j)
    ∧ (∀ j, (j < i)%nat →
            players (checkCollisionsBefore g i) !! j = players (checkCollisions g) !! j).
Proof.
  intros Hp Hal.
  assert (i < List.length (players g))%nat as Hi by (by eapply lookup_lt_Some).
  assert (∀ j, (i ≤ j)%nat → players (checkCollisionsBefore g i) !! j = players g !! j)
    as Hlater.
  { intros j Hj. apply checkCollisions_fold_others. rewrite elem_of_seq. lia. }
  destruct (checkCollision_self (checkCollisionsBefore g i) i player)
    as (player' & Hp' & Hiff & Hdead & Hlive); [by rewrite Hlater|done|].
  exists player'. rewrite (checkCollisions_split g i Hi).
  split; [|split; [|split; [|split; [|split]]]]; try done.
  - rewrite checkCollisions_fold_others; [done|]. rewrite elem_of_seq. lia.
  - rewrite Hiff. unfold offCanvas, checkCollisionsBefore.
    by destruct (checkCollisions_fold_canvas (seq 0 i) g) as [-> ->].
  - intros ->%Hdead. done.
  - intros j Hj. rewrite checkCollisions_fold_others by (rewrite elem_of_seq; lia).
    by rewrite checkCollision_others by lia.
Qed.

(** C4 as stated fails: player 3 is alive and within [playerSize] of the
    trail of player 2, who is alive when [checkCollisions] starts, and
    [checkCollisions] does not eliminate player 3. *)
Lemma checkCollisions_start_state_counterexample :
  ∃ p3,
    players crossGame !! 2%nat = Some p3
    ∧ alive p3 = true
    ∧ nearOtherTrail crossGame p3
    ∧ ∃ p3', players (checkCollisions crossGame) !! 2%nat = Some p3' ∧ alive p3' = true.
Proof.
  eexists. split; [reflexivity|]. split; [reflexivity|]. split.
  - eexists. split; [apply (list_elem_of_lookup_2 _ 1%nat); reflexivity|].
    split; [done|]. split; [reflexivity|].
    exists 0%nat. do 2 eexists. split; [reflexivity|]. split; [reflexivity|].
    vm_compute. reflexivity.
  - eexists. split; [vm_compute; reflexivity|]. reflexivity.
Qed.

Lemma checkCollisions_eliminates_witness :
  ∃ p2',
    players (checkCollisions crossGame) !! 1%nat = Some p2'
    ∧ alive p2' = false ∧ trail p2' = [] ∧ direction p2' = (0, 0).
Proof.
  destruct (checkCollisions_eliminates crossGame 1
              (mkPlayer 2 103 160 (-1, 0) "#4ECDC4" [(153, 60); (153, 110); (153, 160)]
                        [homeSquare 700 100] true false 100 0) eq_refl eq_refl)
    as (p2' & Hp & Hiff & Hdead & _).
  exists p2'. split; [exact Hp|].
  assert (alive p2' = false) as Hal.
  { apply Hiff. right; left.
    eexists. split; [apply (list_elem_of_lookup_2 _ 2%nat); reflexivity|].
    split; [done|]. split; [reflexivity|].
    exists 1%nat. do 2 eexists. split; [reflexivity|]. split; [reflexivity|].
    vm_compute. reflexivity. }
  split; [exact Hal|]. exact (Hdead Hal).
Defined.

(** Player 2 of [crossGame] closes its trail of three points. *)
Lemma closeTrail_effect_witness :
  ∃ p2',
    players (closeTrail crossGame 1) !! 1%nat = Some p2'
    ∧ trail p2' = []
    ∧ territory p2'
      = [homeSquare 700 100; [(153, 60); (153, 110); (153, 160); (103, 160)]].
Proof.
  destruct (closeTrail_effect crossGame 1
              (mkPlayer 2 103 160 (-1, 0) "#4ECDC4" [(153, 60); (153, 110); (153, 160)]
                        [homeSquare 700 100] true false 100 0) eq_refl)
    as (p2' & Hp & Ht & _ & Hlong & _).
  exists p2'. split; [exact Hp|]. split; [exact Ht|]. apply Hlong. simpl. lia.
Defined.

(** ** What the frame leaves of the players *)



Lemma extends_refl p : extends p p.
Proof. by split. Qed.

Lemma allExtend_refl g : allExtend g g.
Proof.
  apply Forall2_same_length_lookup. split; [done|]. intros i p p' Hp Hp'.
  assert (p = p') as -> by congruence. apply extends_refl.
Qed.

Lemma allExtend_trans g1 g2 g3 : allExtend g1 g2 → allExtend g2 g3 → allExtend g1 g3.
Proof.
  unfold allExtend. intros H12 H23. revert H23. generalize (players g3).
  induction H12 as [|p1 p2 l1 l2 [Hid Hpre] _ IH]; intros l3 H23.
  - by inversion H23.
  - inversion H23 as [|? p3 ? l3' [Hid' Hpre'] H23']; subst. constructor; [|by apply IH].
    split; [congruence|by etrans].
Qed.

Lemma allExtend_updPlayer i f g :
  (∀ p, extends p (f p)) → allExtend g (updPlayer i f g).
Proof.
  intros Hf. apply Forall2_same_length_lookup. simpl. split; [by rewrite length_alter|].
  intros j p p' Hp Hp'. destruct (decide (j = i)) as [->|Hj].
  - rewrite list_lookup_alter_eq, Hp in Hp'. injection Hp' as <-. apply Hf.
  - rewrite list_lookup_alter_ne in Hp' by done.
    assert (p = p') as -> by congruence. apply extends_refl.
Qed.

Lemma allExtend_fold {A} (f : Game → A → Game) (l : list A) g :
  (∀ g a, allExtend g (f g a)) → allExtend g (foldl f g l).
Proof.
  intros Hf. revert g. induction l as [|a l IH]; intros g; simpl; [apply allExtend_refl|].
  eapply allExtend_trans; [apply Hf|apply IH].
Qed.

Lemma allExtend_closeTrail g i : allExtend g (closeTrail g i).
Proof.
  apply allExtend_updPlayer. intros p. unfold closeTrailPlayer.
  destruct (_ <? 3)%nat; [by split|].
  split; [done|]. simpl. by apply prefix_app_r.
Qed.

Lemma allExtend_updatePlayer deltaTime g i : allExtend g (updatePlayer deltaTime g i).
Proof.
  unfold updatePlayer. destruct (players g !! i) as [player|]; [|apply allExtend_refl].
  destruct (_ || _)%bool; [apply allExtend_refl|].
  match goal with
  | |- context [updPlayer i (setPosition ?x ?y) g] =>
      apply (allExtend_trans _ (updPlayer i (setPosition x y) g));
      [by apply allExtend_updPlayer|]
  end.
  destruct (negb _).
  - destruct (PrimFloat.ltb 2 _); [|apply allExtend_refl]. by apply allExtend_updPlayer.
  - destruct (0 <? _)%nat; [apply allExtend_closeTrail|apply allExtend_refl].
Qed.

Lemma allExtend_updatePlayers deltaTime g : allExtend g (updatePlayers deltaTime g).
Proof. apply allExtend_fold. intros g' i. apply allExtend_updatePlayer. Qed.

Lemma allExtend_eliminatePlayer g i : allExtend g (eliminatePlayer g i).
Proof. by apply allExtend_updPlayer. Qed.

Lemma allExtend_checkCollision g i : allExtend g (checkCollision g i).
Proof.
  unfold checkCollision. destruct (players g !! i) as [player|]; [|apply allExtend_refl].
  destruct (negb (alive player)); [apply allExtend_refl|].
  destruct (outsideCanvas g player); [apply allExtend_eliminatePlayer|].
  assert (allExtend g (if hitsOtherTrail g player then eliminatePlayer g i else g)) as H1.
  { destruct (hitsOtherTrail g player);
      [apply allExtend_eliminatePlayer|apply allExtend_refl]. }
  destruct (players (if hitsOtherTrail g player then eliminatePlayer g i else g) !! i)
    as [player1|]; [|done].
  destruct (hitsOwnTrail player1); [|done].
  eapply allExtend_trans; [done|apply allExtend_eliminatePlayer].
Qed.

Lemma allExtend_checkCollisions g : allExtend g (checkCollisions g).
Proof. apply allExtend_fold. intros g' i. apply allExtend_checkCollision. Qed.

Lemma allExtend_pickDirection r arr i g : allExtend g (pickDirection r arr i g).
Proof.
  unfold pickDirection. destruct (floorNth _ arr); [|apply allExtend_refl].
  by apply allExtend_updPlayer.
Qed.

Lemma allExtend_updateAIDirection random n g i :
  allExtend g (updateAIDirection random n g i).1.
Proof.
  unfold updateAIDirection. destruct (players g !! i) as [player|]; [|apply allExtend_refl].
  destruct (0 <? _)%nat.
  - destruct (findBestAIDirection _ _ _); simpl;
      [by apply allExtend_updPlayer|apply allExtend_pickDirection].
  - destruct (_ =? 0)%nat; simpl; [apply allExtend_pickDirection|apply allExtend_refl].
Qed.

Lemma allExtend_updateAIPlayer random currentTime st i :
  allExtend st.1 (updateAIPlayer random currentTime st i).1.
Proof.
  destruct st as [g n]. unfold updateAIPlayer. simpl.
  destruct (players g !! i) as [player|]; [|apply allExtend_refl].
  destruct (_ || _)%bool; [apply allExtend_refl|].
  assert (∀ g n, allExtend g
            (let '(g', n') := updateAIDirection random n g i in
             (updPlayer i (setLastDirectionChange currentTime) g', n')).1) as Hdir.
  { intros g' n'. pose proof (allExtend_updateAIDirection random n' g' i) as Hd.
    destruct (updateAIDirection random n' g' i) as [g'' n'']. simpl in *.
    eapply allExtend_trans; [done|]. by apply allExtend_updPlayer. }
  match goal with
  | |- allExtend g (let '(g1, n1) := ?first in _).1 =>
      assert (allExtend g first.1) as H1;
      [|destruct first as [g1 n1]; simpl in H1]
  end.
  { destruct (PrimFloat.ltb _ _); [apply Hdir|apply allExtend_refl]. }
  destruct (players g1 !! i) as [player1|]; [|done].
  destruct (isAIInDanger g1 player1); [|done].
  eapply allExtend_trans; [done|apply Hdir].
Qed.

Lemma allExtend_gameLoop random currentTime now st :
  allExtend st.1 (gameLoop random currentTime now st).1.
Proof.
  destruct st as [g n]. unfold gameLoop. simpl.
  destruct (gameRunning g); [|exact (allExtend_refl g)].
  set (g0 := setLastFrameTime currentTime g).
  set (g2 := checkCollisions (updatePlayers ((currentTime - lastFrameTime g) / 1000) g0)).
  assert (allExtend g g2) as H2.
  { eapply (allExtend_trans _ g0); [exact (allExtend_refl g)|].
    eapply allExtend_trans; [apply allExtend_updatePlayers|].
    apply allExtend_checkCollisions. }
  clearbody g2.
  assert (∀ l st, allExtend st.1 (foldl (updateAIPlayer random currentTime) st l).1) as Hai.
  { induction l as [|i l IH]; intros st; simpl; [apply allExtend_refl|].
    eapply allExtend_trans; [apply allExtend_updateAIPlayer|apply IH]. }
  unfold updateAI. specialize (Hai (seq 0 (List.length (players (g2, n).1))) (g2, n)).
  destruct (foldl _ (g2, n) _) as [g3 n3]. simpl in *.
  eapply allExtend_trans; [done|]. eapply allExtend_trans; [done|].
  unfold checkGameEnd. destruct (_ || _)%bool; exact (allExtend_refl g3).
Qed.

Lemma allExtend_handleInput keys g : allExtend g (afterInput keys g).
Proof.
  rewrite afterInput_eq. destruct (negb (gameRunning g)); [apply allExtend_refl|].
  destruct (players g !! 0%nat) as [player|]; [|apply allExtend_refl].
  destruct (negb (alive player)); [apply allExtend_refl|]. by apply allExtend_updPlayer.
Qed.

(** * More on the continuous engine *)


(** ** How a player changes *)

Lemma evolves_refl p : evolves p p.
Proof. by left. Qed.

Lemma evolves_trans p1 p2 p3 : evolves p1 p2 → evolves p2 p3 → evolves p1 p3.
Proof.
  intros [->|(Hal & Hid & Hh & Hc & Hs & Hpre & Hout)]; [done|].
  intros [->|(Hal' & Hid' & Hh' & Hc' & Hs' & Hpre' & Hout')].
  - right. done.
  - right. split; [done|]. split; [congruence|]. split; [congruence|].
    split; [congruence|]. split; [congruence|]. split; [by etrans|done].
Qed.

Lemma allEvolve_refl g : allEvolve g g.
Proof.
  apply Forall2_same_length_lookup. split; [done|]. intros i p p' Hp Hp'.
  assert (p = p') as -> by congruence. apply evolves_refl.
Qed.

Lemma allEvolve_trans g1 g2 g3 : allEvolve g1 g2 → allEvolve g2 g3 → allEvolve g1 g3.
Proof.
  unfold allEvolve. intros H12 H23. revert H23. generalize (players g3).
  induction H12 as [|p1 p2 l1 l2 He _ IH]; intros l3 H23.
  - by inversion H23.
  - inversion H23 as [|? p3 ? l3' He' H23']; subst. constructor; [|by apply IH].
    by apply (evolves_trans p1 p2 p3).
Qed.

Lemma allEvolve_updPlayer i f g :
  (∀ p, players g !! i = Some p → evolves p (f p)) → allEvolve g (updPlayer i f g).
Proof.
  intros Hf. apply Forall2_same_length_lookup. simpl. split; [by rewrite length_alter|].
  intros j p p' Hp Hp'. destruct (decide (j = i)) as [->|Hj].
  - rewrite list_lookup_alter_eq, Hp in Hp'. injection Hp' as <-. by apply Hf.
  - rewrite list_lookup_alter_ne in Hp' by done.
    assert (p = p') as -> by congruence. apply evolves_refl.
Qed.

(** A change of a living player that leaves it alive, with its id, flag,
    colour and speed, and that keeps its polygons. *)
Lemma evolves_alive p p' :
  alive p = true → alive p' = true → pid p' = pid p → isHuman p' = isHuman p →
  color p' = color p → speed p' = speed p → territory p `prefix_of` territory p' →
  evolves p p'.
Proof. intros Hal Hal' ? ? ? ? ?. right. repeat split; try done; congruence. Qed.

Lemma evolves_eliminated p : alive p = true → evolves p (eliminated p).
Proof. intros Hal. right. by repeat split. Qed.

Lemma allEvolve_eliminatePlayer g i p :
  players g !! i = Some p → alive p = true → allEvolve g (eliminatePlayer g i).
Proof.
  intros Hp Hal. apply allEvolve_updPlayer. intros q Hq.
  assert (q = p) as -> by congruence. by apply evolves_eliminated.
Qed.

Lemma allEvolve_updatePlayer deltaTime g i : allEvolve g (updatePlayer deltaTime g i).
Proof.
  unfold updatePlayer. destruct (players g !! i) as [player|] eqn:Hp; [|apply allEvolve_refl].
  destruct (alive player) eqn:Hal; cbn [negb orb]; [|apply allEvolve_refl].
  destruct (_ && _)%bool; [apply allEvolve_refl|].
  match goal with
  | |- context [updPlayer i (setPosition ?x ?y) g] =>
      set (g1 := updPlayer i (setPosition x y) g);
      assert (players g1 !! i = Some (setPosition x y player)) as Hp1
        by (unfold g1; simpl; by rewrite list_lookup_alter_eq, Hp);
      assert (allEvolve g g1) as H1
        by (apply allEvolve_updPlayer; intros q Hq;
            assert (q = player) as -> by congruence; by apply evolves_alive)
  end.
  clearbody g1. destruct (negb _).
  - destruct (PrimFloat.ltb 2 _); [|done].
    eapply allEvolve_trans; [done|]. apply allEvolve_updPlayer. intros q Hq.
    assert (q = setPosition (px player + (direction player).1 * speed player * deltaTime)
                  (py player + (direction player).2 * speed player * deltaTime) player)
      as -> by congruence.
    by apply evolves_alive.
  - destruct (0 <? _)%nat; [|done].
    eapply allEvolve_trans; [done|]. apply allEvolve_updPlayer. intros q Hq.
    assert (q = setPosition (px player + (direction player).1 * speed player * deltaTime)
                  (py player + (direction player).2 * speed player * deltaTime) player)
      as -> by congruence.
    unfold closeTrailPlayer. destruct (_ <? 3)%nat; [by apply evolves_alive|].
    apply evolves_alive; try done. simpl. by apply prefix_app_r.
Qed.

Lemma allEvolve_fold {A} (f : Game → A → Game) (l : list A) g :
  (∀ g a, allEvolve g (f g a)) → allEvolve g (foldl f g l).
Proof.
  intros Hf. revert g. induction l as [|a l IH]; intros g; simpl; [apply allEvolve_refl|].
  eapply allEvolve_trans; [apply Hf|apply IH].
Qed.

Lemma hitsOwnTrail_eliminated p : hitsOwnTrail (eliminated p) = false.
Proof. done. Qed.

Lemma checkCollision_cases g i player :
  players g !! i = Some player → alive player = true →
  checkCollision g i = eliminatePlayer g i ∨ checkCollision g i = g.
Proof.
  intros Hp Hal. unfold checkCollision. rewrite Hp, Hal. cbn [negb].
  destruct (outsideCanvas g player); [by left|].
  destruct (hitsOtherTrail g player).
  - simpl. rewrite list_lookup_alter_eq, Hp. simpl. by left.
  - rewrite Hp. destruct (hitsOwnTrail player); [by left|by right].
Qed.

Lemma allEvolve_checkCollision g i : allEvolve g (checkCollision g i).
Proof.
  destruct (players g !! i) as [player|] eqn:Hp.
  2:{ unfold checkCollision. rewrite Hp. apply allEvolve_refl. }
  destruct (alive player) eqn:Hal.
  2:{ unfold checkCollision. rewrite Hp, Hal. apply allEvolve_refl. }
  destruct (checkCollision_cases g i player Hp Hal) as [-> | ->];
    [by apply (allEvolve_eliminatePlayer g i player)|apply allEvolve_refl].
Qed.

Lemma floorNthFrom_elem_of {A} k v (l : list A) d : floorNthFrom k v l = Some d → d ∈ l.
Proof.
  revert k. induction l as [|a l IH]; intros k; simpl; [done|].
  destruct (_ && _)%bool.
  - intros [= ->]. by left.
  - intros Hd. right. by apply (IH (S k)).
Qed.

Lemma updPlayer_direction_same g i p :
  players g !! i = Some p → updPlayer i (setDirection (direction p)) g = g.
Proof.
  intros Hp. unfold updPlayer, setPlayers. destruct g as [W H ps run t t']. simpl in *.
  f_equal. apply list_eq. intros j. destruct (decide (j = i)) as [->|Hj].
  - rewrite list_lookup_alter_eq, Hp. simpl. by destruct p.
  - by rewrite list_lookup_alter_ne.
Qed.

Lemma findBestAIDirection_elem g player dirs d :
  findBestAIDirection g player dirs = Some d → d ∈ dirs.
Proof.
  unfold findBestAIDirection.
  assert (∀ l best, (foldl (λ (best : option Point * float) dir,
                               let score := directionScore g player dir in
                               if PrimFloat.ltb best.2 score then (Some dir, score) else best)
                            best l).1 = Some d →
                    best.1 = Some d ∨ d ∈ l) as Hfold.
  { induction l as [|a l IH]; intros best; cbn [foldl]; [by left|].
    intros [Hb|Hd]%IH; [|by right; right].
    destruct (PrimFloat.ltb _ _); [|by left]. simpl in Hb. injection Hb as ->.
    right. by left. }
  intros [Hb|Hd]%Hfold; done.
Qed.

(** ** The direction that [updateAIDirection] sets *)

Lemma pickDirection_effect r arr i g p :
  players g !! i = Some p →
  ∃ d, pickDirection r arr i g = updPlayer i (setDirection d) g
       ∧ (d = direction p ∨ d ∈ arr).
Proof.
  intros Hp. unfold pickDirection. destruct (floorNth _ arr) as [d|] eqn:Ed.
  - exists d. split; [done|]. right. by apply floorNthFrom_elem_of in Ed.
  - exists (direction p). split; [by rewrite updPlayer_direction_same|by left].
Qed.

Lemma updateAIDirection_effect random n g i p :
  players g !! i = Some p →
  ∃ d, (updateAIDirection random n g i).1 = updPlayer i (setDirection d) g
       ∧ (n ≤ (updateAIDirection random n g i).2 ≤ S n)%nat
       ∧ (d = direction p
          ∨ (d ∈ directions
             ∧ (aiSafe g p d
                ∨ (trail p = [] ∧ ∀ s, s ∈ directions → ¬ aiSafe g p s))))
       ∧ (trail p ≠ [] → (∀ s, s ∈ directions → ¬ aiSafe g p s) → d = direction p).
Proof.
  intros Hp. unfold updateAIDirection. rewrite Hp.
  set (safe := filter _ directions).
  assert (∀ s, s ∈ safe ↔ s ∈ directions ∧ aiSafe g p s) as Hsafe.
  { intros s. unfold safe. rewrite list_elem_of_filter. unfold aiSafe.
    destruct (_ && _)%bool; simpl; [|rewrite Is_true_true; tauto].
    split; [tauto|]. by intros [_ [? _]]. }
  destruct (0 <? List.length safe)%nat eqn:El.
  - assert (∃ s, s ∈ safe) as [s0 Hs0].
    { destruct safe as [|s0 ?]; [done|]. exists s0. by left. }
    assert (¬ ∀ s, s ∈ directions → ¬ aiSafe g p s) as Hex.
    { intros Hno. apply Hsafe in Hs0 as [? ?]. by apply (Hno s0). }
    destruct (findBestAIDirection g p safe) as [b|] eqn:Eb.
    + exists b. cbn [fst snd]. split; [done|]. split; [lia|].
      apply findBestAIDirection_elem, Hsafe in Eb as [? ?].
      split; [right; split; [done|by left]|]. by intros _ ?.
    + destruct (pickDirection_effect (random n) safe i g p Hp) as (d & -> & Hd).
      exists d. cbn [fst snd]. split; [done|]. split; [lia|].
      split; [|by intros _ ?]. destruct Hd as [->|[? ?]%Hsafe]; [by left|].
      right. split; [done|by left].
  - assert (safe = []) as Hnil by (destruct safe; [done|simpl in El; done]).
    assert (∀ s, s ∈ directions → ¬ aiSafe g p s) as Hno.
    { intros s Hs Ha. assert (s ∈ safe) as Hin by (by apply Hsafe).
      rewrite Hnil in Hin. by apply elem_of_nil in Hin. }
    destruct (List.length (trail p) =? 0)%nat eqn:Et.
    + assert (trail p = []) as Htr by (destruct (trail p); [done|simpl in Et; done]).
      destruct (pickDirection_effect (random n) directions i g p Hp) as (d & -> & Hd).
      exists d. cbn [fst snd]. split; [done|]. split; [lia|].
      split; [|by intros ?]. destruct Hd as [->|?]; [by left|].
      right. split; [done|]. by right.
    + exists (direction p). cbn [fst snd]. split; [by rewrite updPlayer_direction_same|].
      split; [lia|]. split; [by left|done].
Qed.

(** X14. [updateAIDirection] changes nothing but the direction of its
    player and calls [Math.random()] at most once. The new direction is the
    old one, or one of the four directions that is safe (not the reverse of
    the old one, and with a safe position 50 units ahead), or, only when no
    direction is safe and the player has no trail, any of the four. A player
    with a trail and no safe direction keeps its direction. *)
Theorem updateAIDirection_direction random n g i p :
  players g !! i = Some p →
  ∃ d, (updateAIDirection random n g i).1 = updPlayer i (setDirection d) g
       ∧ (n ≤ (updateAIDirection random n g i).2 ≤ S n)%nat
       ∧ (d = direction p
          ∨ (d ∈ directions
             ∧ (aiSafe g p d
                ∨ (trail p = [] ∧ ∀ s, s ∈ directions → ¬ aiSafe g p s))))
       ∧ (trail p ≠ [] → (∀ s, s ∈ directions → ¬ aiSafe g p s) → d = direction p).
Proof. apply updateAIDirection_effect. Qed.

(** ** The frame and the key events *)

Lemma allEvolve_setDirection g i d p :
  players g !! i = Some p → alive p = true → allEvolve g (updPlayer i (setDirection d) g).
Proof.
  intros Hp Hal. apply allEvolve_updPlayer. intros q Hq.
  assert (q = p) as -> by congruence. by apply evolves_alive.
Qed.

Lemma allEvolve_updateAIPlayer random currentTime st i :
  allEvolve st.1 (updateAIPlayer random currentTime st i).1.
Proof.
  destruct st as [g n]. unfold updateAIPlayer. cbn [fst].
  destruct (players g !! i) as [player|] eqn:Hp; [|apply allEvolve_refl].
  destruct (alive player) eqn:Hal; cbn [negb orb]; [|apply allEvolve_refl].
  destruct (isHuman player); [apply allEvolve_refl|].
  assert (∀ g n p, players g !! i = Some p → alive p = true →
            ∃ p', players (let '(g', n') := updateAIDirection random n g i in
                           (updPlayer i (setLastDirectionChange currentTime) g', n')).1 !! i
                  = Some p' ∧ alive p' = true
                  ∧ allEvolve g (let '(g', n') := updateAIDirection random n g i in
                           (updPlayer i (setLastDirectionChange currentTime) g', n')).1)
    as Hdir.
  { intros g' n' p Hp' Hal'.
    destruct (updateAIDirection_effect random n' g' i p Hp') as (d & Hd & _).
    destruct (updateAIDirection random n' g' i) as [g'' n'']. cbn [fst] in *. subst g''.
    exists (setLastDirectionChange currentTime (setDirection d p)).
    split; [simpl; by rewrite !list_lookup_alter_eq, Hp'|]. split; [done|].
    eapply allEvolve_trans; [by apply (allEvolve_setDirection g' i d p)|].
    apply allEvolve_updPlayer. intros q Hq. simpl in Hq.
    rewrite list_lookup_alter_eq, Hp' in Hq. injection Hq as <-. by apply evolves_alive. }
  match goal with
  | |- allEvolve g (let '(g1, n1) := ?first in _).1 =>
      assert (∃ p1, players first.1 !! i = Some p1 ∧ alive p1 = true ∧ allEvolve g first.1)
        as (p1 & Hp1 & Hal1 & H1);
      [|destruct first as [g1 n1]; cbn [fst] in Hp1, H1]
  end.
  { destruct (PrimFloat.ltb _ _); [by apply (Hdir g (S n) player)|].
    exists player. split; [done|]. split; [done|apply allEvolve_refl]. }
  rewrite Hp1. destruct (isAIInDanger g1 p1); [|done].
  destruct (Hdir g1 n1 p1 Hp1 Hal1) as (_ & _ & _ & H2).
  by eapply allEvolve_trans.
Qed.

Lemma allEvolve_updatePlayers deltaTime g : allEvolve g (updatePlayers deltaTime g).
Proof. apply allEvolve_fold. intros g' i. apply allEvolve_updatePlayer. Qed.

Lemma allEvolve_checkCollisions g : allEvolve g (checkCollisions g).
Proof. apply allEvolve_fold. intros g' i. apply allEvolve_checkCollision. Qed.

Lemma allEvolve_gameLoop random currentTime now st :
  allEvolve st.1 (gameLoop random currentTime now st).1.
Proof.
  destruct st as [g n]. unfold gameLoop. simpl.
  destruct (gameRunning g); [|exact (allEvolve_refl g)].
  set (g0 := setLastFrameTime currentTime g).
  set (g2 := checkCollisions (updatePlayers ((currentTime - lastFrameTime g) / 1000) g0)).
  assert (allEvolve g g2) as H2.
  { eapply (allEvolve_trans _ g0); [exact (allEvolve_refl g)|].
    eapply allEvolve_trans; [apply allEvolve_updatePlayers|].
    apply allEvolve_checkCollisions. }
  clearbody g2.
  assert (∀ l st, allEvolve st.1 (foldl (updateAIPlayer random currentTime) st l).1) as Hai.
  { induction l as [|i l IH]; intros st; simpl; [apply allEvolve_refl|].
    eapply allEvolve_trans; [apply allEvolve_updateAIPlayer|apply IH]. }
  unfold updateAI. specialize (Hai (seq 0 (List.length (players (g2, n).1))) (g2, n)).
  destruct (foldl _ (g2, n) _) as [g3 n3]. simpl in *.
  eapply allEvolve_trans; [done|]. eapply allEvolve_trans; [done|].
  unfold checkGameEnd. destruct (_ || _)%bool; exact (allEvolve_refl g3).
Qed.

Lemma allEvolve_handleInput keys g : allEvolve g (afterInput keys g).
Proof.
  rewrite afterInput_eq. destruct (negb (gameRunning g)); [apply allEvolve_refl|].
  destruct (players g !! 0%nat) as [player|] eqn:Hp; [|apply allEvolve_refl].
  destruct (alive player) eqn:Hal; cbn [negb]; [|apply allEvolve_refl].
  by apply (allEvolve_setDirection g 0 _ player).
Qed.

Lemma allEvolve_step cos sin random st e :
  isRestart e = false → allEvolve st.1.1 (step cos sin random st e).1.1.
Proof.
  destruct st as [[g keys] n].
  destruct e as [currentTime now|key|key|now frameNow]; [| | |done]; intros _.
  - pose proof (allEvolve_gameLoop random currentTime now (g, n)) as Hl.
    cbv beta iota delta [step].
    destruct (gameLoop random currentTime now (g, n)) as [g' n']. exact Hl.
  - apply allEvolve_handleInput.
  - apply allEvolve_refl.
Qed.

Lemma allEvolve_run cos sin random st events :
  noRestart events → allEvolve st.1.1 (run cos sin random st events).1.1.
Proof.
  intros Hev. unfold run. revert st.
  induction Hev as [|e events He _ IH]; intros st; [apply allEvolve_refl|]. cbn [foldl].
  eapply allEvolve_trans; [by apply allEvolve_step|apply IH].
Qed.

(** X15. In the continuous engine a player that is out stays as it is:
    over any frames and key events without a restart, the player object at
    its index is unchanged. *)
Theorem smooth_eliminated_stays cos sin random st events i p :
  noRestart events → players st.1.1 !! i = Some p → alive p = false →
  players (run cos sin random st events).1.1 !! i = Some p.
Proof.
  intros Hev Hp Hal. pose proof (allEvolve_run cos sin random st events Hev) as Hall.
  destruct (Forall2_lookup_l _ _ _ _ _ Hall Hp) as (p' & Hp' & [->|[Hal' _]]); [done|].
  congruence.
Qed.

(** ** The players of a session *)

Lemma run_created cos sin random st events :
  Forall2 evolves (map (createPlayer cos sin) (seq 0 4)) (players st.1.1) →
  Forall2 evolves (map (createPlayer cos sin) (seq 0 4))
          (players (run cos sin random st events).1.1).
Proof.
  unfold run. revert st. induction events as [|e events IH]; intros st Hst; [done|].
  cbn [foldl]. apply IH. destruct (isRestart e) eqn:He.
  - destruct e; try done. destruct st as [[g keys] n]. cbn.
    apply Forall2_same_length_lookup. split; [done|]. intros i p p' Hp Hp'.
    assert (p = p') as -> by congruence. apply evolves_refl.
  - pose proof (allEvolve_step cos sin random st e He) as Hstep.
    clear IH. revert Hstep. unfold allEvolve.
    generalize (players (step cos sin random st e).1.1). revert Hst.
    generalize (players st.1.1). generalize (map (createPlayer cos sin) (seq 0 4)).
    intros l1 l2 H12. induction H12 as [|p1 p2 l1 l2 He1 _ IH]; intros l3 H23.
    + by inversion H23.
    + inversion H23 as [|? p3 ? l3' He' H23']; subst. constructor; [|by apply IH].
      by apply (evolves_trans p1 p2 p3).
Qed.

(** X16. In every state that a session of the continuous engine
    reaches from [initializeGame] by frames, key events and restarts, also
    after the end of the game, the array has its four players in their first
    order: the player at index [i] has the id [i + 1], is the human player
    exactly for [i = 0], has its first speed and colour, still has the
    polygon of [createInitialTerritory] as its first polygon, and has an
    empty trail and the direction (0, 0) when it is out. *)
Theorem smooth_session_players cos sin random now frameNow g0 keys n events :
  let g := (run cos sin random (initializeGame cos sin now frameNow g0, keys, n) events).1.1 in
  List.length (players g) = 4%nat
  ∧ ∀ i p, players g !! i = Some p →
      pid p = (Z.of_nat i + 1)%Z
      ∧ isHuman p = (i =? 0)%nat
      ∧ speed p = (if (i =? 0)%nat then playerSpeed else aiSpeed)
      ∧ color p = default EmptyString (colors !! i)
      ∧ territory (createPlayer cos sin i) `prefix_of` territory p
      ∧ (alive p = false → trail p = [] ∧ direction p = (0, 0)).
Proof.
  intros g.
  assert (Forall2 evolves (map (createPlayer cos sin) (seq 0 4)) (players g)) as Hall.
  { apply run_created. cbn. apply Forall2_same_length_lookup. split; [done|].
    intros i p p' Hp Hp'. assert (p = p') as -> by congruence. apply evolves_refl. }
  split; [by rewrite <- (Forall2_length _ _ _ Hall)|].
  intros i p Hp. destruct (Forall2_lookup_r _ _ _ _ _ Hall Hp) as (p0 & Hp0 & Hev).
  rewrite list_lookup_fmap in Hp0.
  destruct (seq 0 4 !! i) as [i'|] eqn:Ei; [|done]. apply lookup_seq in Ei as [-> _].
  simpl in Hp0. injection Hp0 as <-.
  destruct Hev as [->|(_ & Hid & Hh & Hc & Hs & Hpre & Hout)].
  - repeat split; try done.
  - rewrite Hid, Hh, Hc, Hs. repeat split; try done; by apply Hout.
Qed.

(** ** [checkCollisions] twice *)

Lemma checkCollision_alive_kept g k j q :
  players (checkCollision g k) !! j = Some q → alive q = true → players g !! j = Some q.
Proof.
  intros Hq Hal. destruct (decide (j = k)) as [->|Hjk].
  2:{ by rewrite checkCollision_others in Hq. }
  destruct (players g !! k) as [p|] eqn:Hp.
  2:{ unfold checkCollision in Hq. rewrite Hp in Hq. congruence. }
  destruct (alive p) eqn:Hp_al.
  2:{ unfold checkCollision in Hq. rewrite Hp, Hp_al in Hq. simpl in Hq. congruence. }
  destruct (checkCollision_self g k p Hp Hp_al) as (p' & Hp' & _ & _ & Hlive).
  assert (q = p') as -> by congruence. by rewrite (Hlive Hal).
Qed.

Lemma checkCollisions_fold_alive_kept l g j q :
  players (foldl checkCollision g l) !! j = Some q → alive q = true →
  players g !! j = Some q.
Proof.
  revert g. induction l as [|k l IH]; intros g Hq Hal; [done|]. cbn [foldl] in Hq.
  apply (checkCollision_alive_kept g k); [|done]. by apply IH.
Qed.

Lemma checkCollision_stable g i p :
  players g !! i = Some p → alive p = true →
  ¬ offCanvas g p → ¬ nearOtherTrail g p → ¬ nearOwnTrail p →
  checkCollision g i = g.
Proof.
  intros Hp Hal H1 H2 H3. unfold checkCollision. rewrite Hp, Hal. cbn [negb].
  destruct (outsideCanvas g p) eqn:E1; [by apply outsideCanvas_offCanvas in E1|].
  destruct (hitsOtherTrail g p) eqn:E2; [by apply hitsOtherTrail_nearOtherTrail in E2|].
  rewrite Hp. destruct (hitsOwnTrail p) eqn:E3; [by apply hitsOwnTrail_nearOwnTrail in E3|].
  done.
Qed.

Lemma checkCollisions_fixed g i : checkCollision (checkCollisions g) i = checkCollisions g.
Proof.
  destruct (players (checkCollisions g) !! i) as [p|] eqn:Hp.
  2:{ unfold checkCollision. by rewrite Hp. }
  destruct (alive p) eqn:Hal.
  2:{ unfold checkCollision. by rewrite Hp, Hal. }
  assert (players g !! i = Some p) as Hp0
    by (by apply (checkCollisions_fold_alive_kept (seq 0 (List.length (players g))) g)).
  assert (i < List.length (players g))%nat as Hi by (by eapply lookup_lt_Some).
  set (gb := checkCollisionsBefore g i).
  assert (players gb !! i = Some p) as Hpb.
  { unfold gb, checkCollisionsBefore. rewrite checkCollisions_fold_others; [done|].
    rewrite elem_of_seq. lia. }
  destruct (checkCollision_self gb i p Hpb Hal) as (p' & Hp' & Hiff & _ & _).
  assert (players (checkCollisions g) !! i = Some p') as Hp''.
  { rewrite (checkCollisions_split g i Hi). fold gb.
    rewrite checkCollisions_fold_others; [done|]. rewrite elem_of_seq. lia. }
  assert (p' = p) as -> by congruence.
  assert (¬ (offCanvas gb p ∨ nearOtherTrail gb p ∨ nearOwnTrail p)) as Hno.
  { intros Hyes. apply Hiff in Hyes. congruence. }
  apply (checkCollision_stable _ i p Hp Hal).
  - intros Hoff. apply Hno. left. unfold offCanvas in *. unfold gb, checkCollisionsBefore.
    destruct (checkCollisions_fold_canvas (seq 0 i) g) as [-> ->].
    unfold checkCollisions in Hoff.
    by destruct (checkCollisions_fold_canvas (seq 0 (List.length (players g))) g)
      as [<- <-].
  - intros (q & (j & Hq)%list_elem_of_lookup_1 & Hid & Hqal & Hnear).
    apply Hno. right; left. exists q. split; [|done].
    apply (list_elem_of_lookup_2 _ j).
    rewrite (checkCollisions_split g i Hi) in Hq. fold gb in Hq.
    apply checkCollisions_fold_alive_kept in Hq; [|done].
    by apply checkCollision_alive_kept in Hq.
  - intros Hown. apply Hno. by do 2 right.
Qed.

(** X17. [checkCollisions] run a second time changes nothing: a player
    that the first run has left alive is left alive by the second. *)
Theorem checkCollisions_idempotent g :
  checkCollisions (checkCollisions g) = checkCollisions g.
Proof.
  unfold checkCollisions at 1. generalize (seq 0 (List.length (players (checkCollisions g)))).
  intros l. induction l as [|i l IH]; [done|]. cbn [foldl].
  by rewrite checkCollisions_fixed.
Qed.

(** ** [handleInput] *)

Lemma point_apart (f : Point → bool) (a b : Point) : f a ≠ f b → a ≠ b.
Proof. by intros Hne ->. Qed.

(** In a session the array has its four players, so that [handleInput]
    finds the player at index 0. *)
Lemma handleInput_session cos sin random now frameNow g0 keys0 n events keys :
  handleInput keys
    (run cos sin random (initializeGame cos sin now frameNow g0, keys0, n) events).1.1
  ≠ None.
Proof.
  set (g := (run cos sin random (initializeGame cos sin now frameNow g0, keys0, n) events).1.1).
  assert (Forall2 evolves (map (createPlayer cos sin) (seq 0 4)) (players g)) as Hall.
  { apply run_created. cbn. apply Forall2_same_length_lookup. split; [done|].
    intros i p p' Hp Hp'. assert (p = p') as -> by congruence. apply evolves_refl. }
  apply Forall2_length in Hall. rewrite length_map, length_seq in Hall.
  unfold handleInput. destruct (negb (gameRunning g)); [done|].
  destruct (players g !! 0%nat) as [player|] eqn:Hp; [by destruct (negb (alive player))|].
  apply lookup_ge_None in Hp. lia.
Qed.

(** X18. [handleInput] returns at once, and leaves the game as it is, when
    the game is not running. In a running game it raises a [TypeError] when
    there is no player at index 0, and leaves the game as it is when this
    player is out. Otherwise it changes only the direction of the player at
    index 0, to its old direction or to one of the four directions: up when
    the up key is down and the player does not move down; never the reverse
    of the direction the player moves in; and the old direction when no key
    is down. In a session started by [initializeGame] it never raises. *)
Theorem handleInput_direction keys g :
  (gameRunning g = false → handleInput keys g = Some g)
  ∧ (gameRunning g = true → players g !! 0%nat = None → handleInput keys g = None)
  ∧ (∀ p, players g !! 0%nat = Some p → alive p = false → handleInput keys g = Some g)
  ∧ (∀ p, gameRunning g = true → players g !! 0%nat = Some p → alive p = true →
          ∃ d, handleInput keys g = Some (updPlayer 0 (setDirection d) g)
               ∧ (d = direction p ∨ d ∈ directions)
               ∧ (keys ArrowUp = true → PrimFloat.eqb (direction p).2 1 = false →
                  d = (0, -1))
               ∧ (direction p = (0, 1) → d ≠ (0, -1))
               ∧ (direction p = (0, -1) → d ≠ (0, 1))
               ∧ (direction p = (1, 0) → d ≠ (-1, 0))
               ∧ (direction p = (-1, 0) → d ≠ (1, 0))
               ∧ ((∀ k, keys k = false) → d = direction p))
  ∧ (∀ cos sin random now frameNow g0 keys0 n events,
       handleInput keys
         (run cos sin random (initializeGame cos sin now frameNow g0, keys0, n) events).1.1
       ≠ None).
Proof.
  split; [|split; [|split; [|split]]].
  - intros Hoff. unfold handleInput. by rewrite Hoff.
  - intros Hrun Hp. unfold handleInput. by rewrite Hrun, Hp.
  - intros p Hp Hal. unfold handleInput. rewrite Hp, Hal.
    by destruct (negb (gameRunning g)).
  - intros p Hrun Hp Hal. unfold handleInput. rewrite Hrun, Hp, Hal. cbn [negb].
    eexists. split; [reflexivity|].
    split; [|split; [|split; [|split; [|split; [|split]]]]].
    + repeat match goal with
             | |- context [if ?b then _ else _] => destruct b
             end; try (by left); right; unfold directions; set_solver.
    + intros Hup Hne. by rewrite Hup, Hne.
    + intros ->. apply (point_apart (λ d, PrimFloat.ltb d.2 0)).
      destruct (keys ArrowUp), (keys ArrowDown), (keys ArrowLeft), (keys ArrowRight);
        vm_compute; discriminate.
    + intros ->. apply (point_apart (λ d, PrimFloat.ltb 0 d.2)).
      destruct (keys ArrowUp), (keys ArrowDown), (keys ArrowLeft), (keys ArrowRight);
        vm_compute; discriminate.
    + intros ->. apply (point_apart (λ d, PrimFloat.ltb d.1 0)).
      destruct (keys ArrowUp), (keys ArrowDown), (keys ArrowLeft), (keys ArrowRight);
        vm_compute; discriminate.
    + intros ->. apply (point_apart (λ d, PrimFloat.ltb 0 d.1)).
      destruct (keys ArrowUp), (keys ArrowDown), (keys ArrowLeft), (keys ArrowRight);
        vm_compute; discriminate.
    + intros Hk. by rewrite !Hk.
  - intros cos sin random now frameNow g0 keys0 n events.
    apply handleInput_session.
Qed.

(** ** Polygons without an inside *)

Lemma pointInPolygonFrom_flat x y y0 pj rest inside :
  pj.2 = y0 → (∀ q, q ∈ rest → q.2 = y0) →
  pointInPolygonFrom x y pj rest inside = inside.
Proof.
  revert pj inside. induction rest as [|q rest IH]; intros pj inside Hj Hall; [done|].
  cbn [pointInPolygonFrom]. rewrite IH; [| |intros q' Hq'; apply Hall; by right].
  - unfold crosses. rewrite Hj, (Hall q) by (by left). by rewrite Bool.eqb_reflx.
  - apply Hall. by left.
Qed.

(** X19. A polygon whose points all have the same y coordinate has no
    inside: [isPointInPolygon] is false for every point. Such a polygon is
    what [closeTrail] adds for a trail along a horizontal line. *)
Theorem isPointInPolygon_flat x y y0 polygon :
  (∀ q, q ∈ polygon → q.2 = y0) → isPointInPolygon x y polygon = false.
Proof.
  intros Hall. unfold isPointInPolygon. destruct (last polygon) as [pj|] eqn:El; [|done].
  apply (pointInPolygonFrom_flat x y y0); [|done].
  apply Hall. apply last_Some in El as [l' ->]. apply elem_of_app. right. by left.
Qed.

(** ** The properties at the example game *)

Lemma updateAIDirection_direction_witness :
  ∃ d, (updateAIDirection (λ _, 0.5) 0 crossGame 1).1 = updPlayer 1 (setDirection d) crossGame
       ∧ (d = (-1, 0) ∨ d ∈ directions).
Proof.
  destruct (updateAIDirection_direction (λ _, 0.5) 0 crossGame 1 crossPlayer2 eq_refl)
    as (d & Hd & _ & Hcase & _).
  exists d. split; [exact Hd|]. destruct Hcase as [->|[Hin _]]; [by left|by right].
Defined.

Lemma smooth_eliminated_stays_witness :
  players (run (λ _, 0) (λ _, 0) (λ _, 0.5)
               (checkCollisions crossGame, λ _, false, 0%nat)
               [Frame 16 16; KeyDown ArrowUp; Frame 32 32]).1.1 !! 1%nat
  = Some (eliminated crossPlayer2).
Proof.
  apply (smooth_eliminated_stays (λ _, 0) (λ _, 0) (λ _, 0.5)
           (checkCollisions crossGame, λ _, false, 0%nat)
           [Frame 16 16; KeyDown ArrowUp; Frame 32 32] 1 (eliminated crossPlayer2)).
  - repeat constructor.
  - vm_compute. reflexivity.
  - reflexivity.
Defined.

Lemma handleInput_direction_witness :
  handleInput (λ k, sameKey k ArrowUp) (mkGame 800 600 [] true 0 0) = None
  ∧ ∃ d, handleInput (λ k, sameKey k ArrowUp) crossGame
         = Some (updPlayer 0 (setDirection d) crossGame)
         ∧ d = (0, -1).
Proof.
  split.
  - apply (proj1 (proj2 (handleInput_direction (λ k, sameKey k ArrowUp)
                           (mkGame 800 600 [] true 0 0)))); reflexivity.
  - destruct (proj1 (proj2 (proj2 (proj2
                (handleInput_direction (λ k, sameKey k ArrowUp) crossGame))))
                (mkPlayer 1 100 100 (0, 0) "#FF6B6B" [] [homeSquare 100 100] true true 120 0)
                eq_refl eq_refl eq_refl) as (d & Hd & _ & Hup & _).
    exists d. split; [exact Hd|]. apply Hup; reflexivity.
Defined.

Lemma isPointInPolygon_flat_witness :
  isPointInPolygon 10 5 [(0, 5); (10, 5); (20, 5)] = false.
Proof.
  apply (isPointInPolygon_flat 10 5 5 [(0, 5); (10, 5); (20, 5)]).
  intros q Hq. repeat (apply elem_of_cons in Hq as [->|Hq]; [reflexivity|]).
  by apply elem_of_nil in Hq.
Defined.

End SmoothPaperIOGameFacts.

(** * Properties of both engines *)
Module Engines.

Module G := PaperIOGame.
Module S := SmoothPaperIOGame.
Import PaperIOGameFacts SmoothPaperIOGameFacts.
Close Scope float_scope.

(** ** The end of the game *)

Lemma grid_checkGameEnd_ends now g :
  G.endCondition now g → G.gameRunning (G.checkGameEnd now g) = false.
Proof.
  unfold G.endCondition, G.checkGameEnd. intros Hend.
  replace (_ || _) with true; [done|]. symmetry. apply orb_true_iff.
  destruct Hend as [?%Nat.leb_le|?]; [by left|by right].
Qed.

Lemma grid_step_stopped random st e :
  G.isRestart e = false → G.gameRunning st.1 = false → G.step random st e = st.
Proof.
  destruct st as [g n]. destruct e as [currentTime now|key|now]; [| |done]; intros _ Hrun.
  - unfold G.step, G.gameLoop. simpl in *. by rewrite Hrun.
  - unfold G.step. rewrite PaperIOGameFacts.keydown_eq. simpl in *. by rewrite Hrun.
Qed.

Lemma grid_run_stopped random st events :
  G.noRestart events → G.gameRunning st.1 = false → G.run random st events = st.
Proof.
  unfold G.run. induction 1 as [|e events He _ IH]; intros Hrun; [done|].
  simpl. rewrite grid_step_stopped by done. by apply IH.
Qed.

Lemma grid_restart_runs random now st : G.gameRunning (G.restart random now st).1 = true.
Proof.
  destruct st as [g n]. unfold G.restart, G.initializeGame.
  by destruct (foldl _ _ _) as [[gr ps] n'].
Qed.

Lemma smooth_checkGameEnd_ends now g :
  S.endCondition now g → S.gameRunning (S.checkGameEnd now g) = false.
Proof.
  unfold S.endCondition, S.checkGameEnd. intros Hend.
  replace (_ || _)%bool with true; [done|]. symmetry. apply orb_true_iff.
  destruct Hend as [?%Nat.leb_le|?]; [by left|by right].
Qed.

Lemma smooth_step_stopped cos sin random st e :
  S.isRestart e = false → S.gameRunning st.1.1 = false →
  S.gameRunning (S.step cos sin random st e).1.1 = false
  ∧ S.players (S.step cos sin random st e).1.1 = S.players st.1.1.
Proof.
  destruct st as [[g keys] n].
  destruct e as [currentTime now|key|key|now frameNow]; [| | |done]; intros _ Hrun; simpl in *.
  - unfold S.gameLoop. simpl. by rewrite Hrun.
  - rewrite SmoothPaperIOGameFacts.afterInput_eq. by rewrite Hrun.
  - done.
Qed.

Lemma smooth_run_stopped cos sin random st events :
  S.noRestart events → S.gameRunning st.1.1 = false →
  S.gameRunning (S.run cos sin random st events).1.1 = false
  ∧ S.players (S.run cos sin random st events).1.1 = S.players st.1.1.
Proof.
  unfold S.run. intros Hev. revert st.
  induction Hev as [|e events He _ IH]; intros st Hrun; [done|].
  simpl. destruct (smooth_step_stopped cos sin random st e He Hrun) as [Hrun' Hp].
  destruct (IH _ Hrun') as [? ?]. split; [done|congruence].
Qed.

(** C5. In both engines [checkGameEnd], run in a state in which at most one
    player is alive or at a time at which 180000 ms or more have passed since
    the start, leaves [gameRunning] false; from a state in which it is false,
    no sequence of frames and key events makes it true again (in the grid
    engine the whole state stays as it is); a restart makes it true. *)
Theorem gameRunning_one_way :
  (∀ now g, G.endCondition now g → G.gameRunning (G.checkGameEnd now g) = false)
  ∧ (∀ random st events,
       G.noRestart events → G.gameRunning st.1 = false →
       G.gameRunning (G.run random st events).1 = false
       ∧ G.run random st events = st)
  ∧ (∀ random now st, G.gameRunning (G.restart random now st).1 = true)
  ∧ (∀ now g, S.endCondition now g → S.gameRunning (S.checkGameEnd now g) = false)
  ∧ (∀ cos sin random st events,
       S.noRestart events → S.gameRunning st.1.1 = false →
       S.gameRunning (S.run cos sin random st events).1.1 = false)
  ∧ (∀ cos sin now frameNow g, S.gameRunning (S.restart cos sin now frameNow g) = true).
Proof.
  split; [exact grid_checkGameEnd_ends|]. split.
  { intros random st events Hev Hrun. by rewrite grid_run_stopped. }
  split; [exact grid_restart_runs|]. split; [exact smooth_checkGameEnd_ends|]. split.
  { intros cos sin random st events Hev Hrun.
    by apply (smooth_run_stopped cos sin random st events). }
  done.
Qed.

(** At the time 200000 of a game started at 0 the limit has passed, and the
    frames and key presses that follow leave the game stopped. *)
Lemma gameRunning_one_way_witness :
  G.gameRunning (G.checkGameEnd 200000 G.sessionAtFrame8.1) = false
  ∧ G.gameRunning
      (G.run G.sessionRandom (G.checkGameEnd 200000 G.sessionAtFrame8.1, 0%nat)
             [G.Frame 200016 200016; G.KeyDown G.ArrowUp; G.Frame 200033 200033]).1
    = false.
Proof.
  destruct gameRunning_one_way as (Hend & Hstop & _).
  assert (G.gameRunning (G.checkGameEnd 200000 G.sessionAtFrame8.1) = false) as Hfalse.
  { apply Hend. right. vm_compute. reflexivity. }
  split; [exact Hfalse|].
  apply Hstop; [|exact Hfalse]. repeat constructor.
Defined.

(** ** Territory over time *)

Lemma smooth_step_extends cos sin random st e :
  S.isRestart e = false → S.allExtend st.1.1 (S.step cos sin random st e).1.1.
Proof.
  destruct st as [[g keys] n].
  destruct e as [currentTime now|key|key|now frameNow]; [| | |done]; intros _.
  - pose proof (allExtend_gameLoop random currentTime now (g, n)) as Hl.
    cbv beta iota delta [S.step].
    destruct (S.gameLoop random currentTime now (g, n)) as [g' n']. exact Hl.
  - apply allExtend_handleInput.
  - apply allExtend_refl.
Qed.

(** C7, as the code has it. Across a frame or a key event, in the grid
    engine every player is still in the array, under its id and with a
    territory set that contains the one it had; a cell of the grid that has
    an owner keeps it, unless a player owns it afterwards and the cell was in
    the trail of this player or was the cell it stood on (the claim of a
    trail); the flood fill changes no owner other than 0; and
    [eliminatePlayer] changes neither the grid nor a territory set. In the continuous engine every player stays at its index, under its
    id, and its list of polygons has the old list as a prefix. *)
Theorem territory_only_grows :
  (∀ random st e,
     G.isRestart e = false →
     (∃ ps, Forall2 G.grows (G.players st.1) ps
            ∧ Permutation ps (G.players (G.step random st e).1))
     ∧ (G.idsNonzero st.1 → G.ownersKept st.1 (G.step random st e).1))
  ∧ (∀ W H id gr terr c,
       G.gridAt gr c ≠ Some 0 →
       G.gridAt (G.floodFillTerritory W H id gr terr).1 c = G.gridAt gr c)
  ∧ (∀ g i, G.grid (G.eliminatePlayer g i) = G.grid g
            ∧ Forall2 (λ p p', G.territory p' = G.territory p)
                      (G.players g) (G.players (G.eliminatePlayer g i)))
  ∧ (∀ cos sin random st e,
       S.isRestart e = false → S.allExtend st.1.1 (S.step cos sin random st e).1.1)
  ∧ (∀ g i, Forall2 (λ p p', S.territory p' = S.territory p)
                    (S.players g) (S.players (S.eliminatePlayer g i))).
Proof.
  split; [exact step_territory|]. split; [|split; [|split; [exact smooth_step_extends|]]].
  - intros W H id gr terr c Hc. by apply floodFillTerritory_frame.
  - intros g i. rewrite eliminatePlayer_eq. split; [done|].
    apply Forall2_same_length_lookup. simpl. split; [by rewrite length_alter|].
    intros j p p' Hp Hp'. destruct (decide (j = i)) as [->|Hj].
    + rewrite list_lookup_alter_eq, Hp in Hp'. by injection Hp' as <-.
    + rewrite list_lookup_alter_ne in Hp' by done. congruence.
  - intros g i. apply Forall2_same_length_lookup. simpl. split; [by rewrite length_alter|].
    intros j p p' Hp Hp'. destruct (decide (j = i)) as [->|Hj].
    + rewrite list_lookup_alter_eq, Hp in Hp'. by injection Hp' as <-.
    + rewrite list_lookup_alter_ne in Hp' by done. congruence.
Qed.

(** The ninth frame of the session: the cell (7, 3), which goes from player
    2 to player 1, was in the trail of player 1. *)
Lemma territory_only_grows_witness :
  G.ownersKept G.sessionAtFrame8.1
    (G.step G.sessionRandom G.sessionAtFrame8 (G.Frame 9000 9000)).1.
Proof.
  apply (proj1 territory_only_grows G.sessionRandom G.sessionAtFrame8
               (G.Frame 9000 9000) eq_refl).
  intros p Hp. revert p Hp. apply Forall_forall.
  apply (bool_decide_unpack _). vm_compute. exact I.
Defined.

(** ** The ranking at the end *)

Lemma grid_updatePlayer_human random currentTime g n i player :
  G.players g !! i = Some player → G.isHuman player = true →
  (G.updatePlayer random currentTime (g, n) i).2 = n.
Proof.
  intros Hp Hh. unfold G.updatePlayer. rewrite Hp, Hh. simpl.
  destruct (negb (G.alive player)); [done|].
  destruct (PrimFloat.leb _ _); [|done]. rewrite Hp.
  by destruct (negb _ || negb _).
Qed.

Lemma grid_keydown_others key g j :
  j ≠ 0%nat → G.players (G.keydown key g) !! j = G.players g !! j.
Proof.
  intros Hj. rewrite PaperIOGameFacts.keydown_eq. destruct (negb (G.gameRunning g)); [done|].
  destruct (G.players g !! 0%nat) as [player|]; [|done].
  destruct (negb (G.alive player)); [done|]. simpl. by rewrite list_lookup_alter_ne.
Qed.

(** C10. The grid engine's [showGameOver] replaces [this.players] by its
    stable sort in descending order of the size of the territory set: the
    array is a permutation of the old one, its first element has a largest
    territory set, and no frame or key event that follows the end of the game
    changes the array again. The first element need not be the player with
    id 1. While a game that [initializeGame] has started is running, the
    array is in its first order: the element at index 0, and no other, has
    the [isHuman] flag, by which [updatePlayers] spares it the call of
    [updateAI], and it is the element that the key listener steers. The
    continuous engine's [showGameOver] ranks a sorted copy and leaves the
    game, and so the order of the array, as it is. *)
Theorem showGameOver_order :
  (∀ g,
     G.players (G.showGameOver g) = stableSort G.smallerTerritory (G.players g)
     ∧ Permutation (G.players g) (G.players (G.showGameOver g))
     ∧ descending (λ p, size (G.territory p)) (G.players (G.showGameOver g))
     ∧ (∀ first, G.players (G.showGameOver g) !! 0%nat = Some first →
                 ∀ p, p ∈ G.players g →
                      (size (G.territory p) ≤ size (G.territory first))%nat))
  ∧ (∀ now g, G.endCondition now g →
              G.players (G.checkGameEnd now g)
              = stableSort G.smallerTerritory (G.players g))
  ∧ (∀ random now g n events,
       G.endCondition now g → G.noRestart events →
       G.players (G.run random (G.checkGameEnd now g, n) events).1
       = stableSort G.smallerTerritory (G.players g))
  ∧ (∃ g p1 first,
       G.players g !! 0%nat = Some p1 ∧ G.pid p1 = 1
       ∧ G.players (G.showGameOver g) !! 0%nat = Some first ∧ G.pid first ≠ 1)
  ∧ (∀ random now st0 events i p,
       let g := (G.run random (G.initializeGame random now st0) events).1 in
       G.gameRunning g = true → G.players g !! i = Some p →
       (G.isHuman p = true ↔ i = 0%nat) ∧ G.pid p = Z.of_nat i + 1)
  ∧ (∀ key g j, j ≠ 0%nat → G.players (G.keydown key g) !! j = G.players g !! j)
  ∧ (∀ random currentTime g n i player,
       G.players g !! i = Some player → G.isHuman player = true →
       (G.updatePlayer random currentTime (g, n) i).2 = n)
  ∧ (∀ g, (S.showGameOver g).1 = g
          ∧ (S.showGameOver g).2 = stableSort S.smallerArea (S.players g)
          ∧ Permutation (S.players g) (S.showGameOver g).2)
  ∧ (∀ now g, S.players (S.checkGameEnd now g) = S.players g).
Proof.
  split; [|split; [|split; [|split; [|split; [|split; [|split; [|split]]]]]]].
  - intros g. split; [done|]. split; [apply stableSort_Permutation|].
    split; [apply (stableSort_descending (λ p, size (G.territory p)))|].
    intros first Hfirst p Hp.
    by apply (stableSort_first_largest (λ p, size (G.territory p)) (G.players g) first).
  - intros now g Hend. unfold G.checkGameEnd.
    replace (_ || _) with true; [done|]. symmetry. apply orb_true_iff.
    destruct Hend as [?%Nat.leb_le|?]; [by left|by right].
  - intros random now g n events Hend Hev.
    rewrite grid_run_stopped; [|done|by apply grid_checkGameEnd_ends]. simpl.
    unfold G.checkGameEnd.
    replace (_ || _) with true; [done|]. symmetry. apply orb_true_iff.
    destruct Hend as [?%Nat.leb_le|?]; [by left|by right].
  - exists G.sessionAtFrame8.1. do 2 eexists.
    split; [exact sessionAtFrame8_human|]. split; [reflexivity|].
    split; [vm_compute; reflexivity|]. done.
  - intros random now st0 events i p g Hrun Hp.
    apply (seats_human g i p); [|done]. by apply run_seats.
  - exact grid_keydown_others.
  - exact grid_updatePlayer_human.
  - intros g. split; [done|]. split; [done|]. apply stableSort_Permutation.
  - intros now g. unfold S.checkGameEnd. by destruct (_ || _)%bool.
Qed.

(** The session ends at the time 200000: player 2, with 11 cells, comes
    first, before the human player, with 9. *)
Lemma showGameOver_order_witness :
  map G.pid (G.players (G.checkGameEnd 200000 G.sessionAtFrame8.1)) = [2; 1; 3; 4].
Proof.
  rewrite (proj1 (proj2 showGameOver_order) 200000%float G.sessionAtFrame8.1).
  - vm_compute. reflexivity.
  - right. vm_compute. reflexivity.
Defined.
End Engines.

(** * The bet buttons *)
Module BetButtonsFacts.
Import BetButtons.
Local Open Scope string_scope.

Lemma elem_of_classAdd t cl c : c ∈ classAdd t cl ↔ c = t ∨ c ∈ cl.
Proof.
  unfold classAdd. case_bool_decide as Ht.
  - split; [by right|]. by intros [->|?].
  - rewrite elem_of_app, list_elem_of_singleton. tauto.
Qed.

Lemma elem_of_classRemove t cl c : c ∈ classRemove t cl ↔ c ≠ t ∧ c ∈ cl.
Proof. unfold classRemove. by rewrite list_elem_of_filter. Qed.

Lemma NoDup_classAdd t cl : NoDup cl → NoDup (classAdd t cl).
Proof.
  intros Hnd. unfold classAdd. case_bool_decide as Ht; [done|].
  apply NoDup_app. split; [done|]. split; [|apply NoDup_singleton].
  intros c Hc Hc'%list_elem_of_singleton. by subst c.
Qed.

Lemma NoDup_classRemove t cl : NoDup cl → NoDup (classRemove t cl).
Proof. apply NoDup_filter. Qed.

Lemma classRemove_absent t cl : t ∉ cl → classRemove t cl = cl.
Proof.
  intros Ht. unfold classRemove. induction cl as [|c cl IH]; [done|].
  apply not_elem_of_cons in Ht as [Hne Ht]. rewrite filter_cons_True by done.
  by rewrite IH.
Qed.

Lemma classRemove_app t cl cl' :
  classRemove t (cl ++ cl')%list = (classRemove t cl ++ classRemove t cl')%list.
Proof. apply filter_app. Qed.

Lemma classAdd_present t cl : t ∈ cl → classAdd t cl = cl.
Proof. intros Ht. unfold classAdd. by rewrite bool_decide_eq_true_2. Qed.

Lemma classAdd_absent t cl : t ∉ cl → classAdd t cl = (cl ++ [t])%list.
Proof. intros Ht. unfold classAdd. by rewrite bool_decide_eq_false_2. Qed.

Lemma resetButton_spec cl c :
  c ∈ resetButton cl ↔ c = "btn-primary-dark" ∨ (c ≠ "btn-primary" ∧ c ∈ cl).
Proof. unfold resetButton. by rewrite elem_of_classAdd, elem_of_classRemove. Qed.

Lemma activateButton_spec cl c :
  c ∈ activateButton cl ↔ c = "btn-primary" ∨ (c ≠ "btn-primary-dark" ∧ c ∈ cl).
Proof. unfold activateButton. by rewrite elem_of_classAdd, elem_of_classRemove. Qed.

Lemma resetButton_twice cl : resetButton (resetButton cl) = resetButton cl.
Proof.
  unfold resetButton at 1. rewrite classRemove_absent.
  - apply classAdd_present. apply resetButton_spec. by left.
  - rewrite resetButton_spec. intros [?|[? _]]; done.
Qed.

Lemma activate_reset_activate cl :
  activateButton (resetButton (activateButton (resetButton cl)))
  = activateButton (resetButton cl).
Proof.
  set (rest := classRemove "btn-primary-dark" (resetButton cl)).
  assert ("btn-primary" ∉ rest) as Hp.
  { unfold rest. rewrite elem_of_classRemove, resetButton_spec. intros [_ [?|[? _]]]; done. }
  assert ("btn-primary-dark" ∉ rest) as Hd.
  { unfold rest. rewrite elem_of_classRemove. by intros [? _]. }
  assert (activateButton (resetButton cl) = (rest ++ ["btn-primary"])%list) as Ha.
  { unfold activateButton. fold rest. by apply classAdd_absent. }
  rewrite Ha. unfold resetButton at 1.
  rewrite classRemove_app, (classRemove_absent _ rest Hp).
  replace (classRemove "btn-primary" ["btn-primary"]) with (@nil string) by done.
  rewrite app_nil_r, (classAdd_absent _ rest Hd).
  unfold activateButton. rewrite classRemove_app, (classRemove_absent _ rest Hd).
  replace (classRemove "btn-primary-dark" ["btn-primary-dark"]) with (@nil string) by done.
  rewrite app_nil_r. by apply classAdd_absent.
Qed.

(** X20. A click on the button at index [i] leaves the number of buttons;
    afterwards the clicked button, and no other, has the class
    [btn-primary], and every other button, and not the clicked one, has the
    class [btn-primary-dark]; the other classes of every button are as
    before, and a class list without a repeated token stays one. A second
    click on the same button changes nothing, and after a click on another
    button the classes are those that this click alone gives. *)
Theorem click_selects i betButtons :
  (i < length betButtons)%nat →
  length (click i betButtons) = length betButtons
  ∧ (∀ j cl, click i betButtons !! j = Some cl →
       ("btn-primary" ∈ cl ↔ j = i) ∧ ("btn-primary-dark" ∈ cl ↔ j ≠ i))
  ∧ (∀ j cl cl' c, betButtons !! j = Some cl → click i betButtons !! j = Some cl' →
       c ≠ "btn-primary" → c ≠ "btn-primary-dark" → (c ∈ cl' ↔ c ∈ cl))
  ∧ (∀ j cl cl', betButtons !! j = Some cl → click i betButtons !! j = Some cl' →
       NoDup cl → NoDup cl')
  ∧ click i (click i betButtons) = click i betButtons
  ∧ (∀ k j cl cl' c, (k < length betButtons)%nat →
       click k (click i betButtons) !! j = Some cl → click k betButtons !! j = Some cl' →
       (c ∈ cl ↔ c ∈ cl')).
Proof.
  intros Hi.
  assert (∀ i bs j, click i bs !! j
            = (λ cl, if decide (j = i) then activateButton (resetButton cl)
                     else resetButton cl) <$> bs !! j) as Hlook.
  { intros i' bs j. unfold click. destruct (decide (j = i')) as [->|Hj].
    - rewrite list_lookup_alter_eq, list_lookup_fmap. by destruct (bs !! i').
    - by rewrite list_lookup_alter_ne, list_lookup_fmap. }
  split; [unfold click; by rewrite length_alter, length_map|].
  split; [|split; [|split; [|split]]].
  - intros j cl. rewrite Hlook. destruct (betButtons !! j) as [cl0|]; [|done]. simpl.
    intros [= <-]. case_decide as Hj.
    + rewrite !activateButton_spec, !resetButton_spec. split; [split; [done|by left]|].
      split; [intros [?|[? _]]; done|done].
    + rewrite !resetButton_spec. split; [split; [intros [?|[? _]]; done|done]|].
      split; [done|by left].
  - intros j cl cl' c Hcl. rewrite Hlook, Hcl. simpl. intros [= <-] Hp Hd.
    case_decide; rewrite ?activateButton_spec, !resetButton_spec; tauto.
  - intros j cl cl' Hcl. rewrite Hlook, Hcl. simpl. intros [= <-] Hnd.
    case_decide; unfold activateButton, resetButton;
      repeat first [apply NoDup_classAdd | apply NoDup_classRemove]; done.
  - apply list_eq. intros j. rewrite !Hlook.
    destruct (betButtons !! j) as [cl|]; [|done]. simpl. f_equal.
    case_decide; [apply activate_reset_activate|apply resetButton_twice].
  - intros k j cl cl' c Hk. rewrite !Hlook.
    destruct (betButtons !! j) as [cl0|]; [|done]. simpl. intros [= <-] [= <-].
    repeat case_decide; rewrite ?activateButton_spec, ?resetButton_spec,
      ?activateButton_spec, ?resetButton_spec; split; intros; 
      repeat match goal with
             | H : _ ∨ _ |- _ => destruct H
             | H : _ ∧ _ |- _ => destruct H
             end; subst; try tauto; try done;
      try (destruct (decide (c = "btn-primary")); [subst; tauto|]);
      try (destruct (decide (c = "btn-primary-dark")); [subst; tauto|]); tauto.
Qed.

Lemma click_selects_witness :
  click 1 [["btn"; "btn-primary"]; ["btn"; "btn-primary-dark"]; ["btn"]]
  = [["btn"; "btn-primary-dark"]; ["btn"; "btn-primary"]; ["btn"; "btn-primary-dark"]]
  ∧ click 1 (click 1 [["btn"; "btn-primary"]; ["btn"; "btn-primary-dark"]; ["btn"]])
    = click 1 [["btn"; "btn-primary"]; ["btn"; "btn-primary-dark"]; ["btn"]].
Proof.
  split; [vm_compute; reflexivity|].
  apply (click_selects 1 [["btn"; "btn-primary"]; ["btn"; "btn-primary-dark"]; ["btn"]]).
  simpl. lia.
Defined.
End BetButtonsFacts.
